(** * Interstellar: the sprite, controller and projectile engine

    A shallow embedding of [interstellar/sprite.py] (Python 2) and proofs
    about the per-frame update of the player's ship: movement, firing,
    projectile bookkeeping, damage exchange and power-up attachments.

    Conventions of the embedding.
    - The sources are Python 2: [/] between two integers is floor division,
      written [Z.div] here.  Sizes, speeds, health and damage are integers.
    - Positions are rationals: the ship starts on integer coordinates, but
      projectiles and asteroids move by [random.random() * k]; the draws of
      the generator are an input of the model.
    - Objects are records carrying an identity.  The world holds the ship,
      the asteroid list of the parent and the controller; a method that
      mutates an object writes the new record back under the same identity.
    - Calls into collaborators that are not part of this module (audio,
      rendering, the parent game) are recorded in an event log. *)

From Stdlib Require Import ZArith QArith Qround List Bool Lia Lqa.
Import ListNotations.
Open Scope Z_scope.

Set Default Proof Using "Type".

(** ** Data model *)

(** [resource.ResourceImage]: a positioned visual with a fixed size. *)
Module Image.
Record t := mk { x : Q; y : Q; width : Z; height : Z }.

Definition set_x (v : Q) (i : t) : t := mk v (y i) (width i) (height i).

Definition set_y (v : Q) (i : t) : t := mk (x i) v (width i) (height i).

Definition set_position (vx vy : Q) (i : t) : t := mk vx vy (width i) (height i).
End Image.

(** The four attachment classes of the [mechanism] module, named by the
    [ATTACHMENT] attribute of the carrier asteroids. *)
Inductive AttachmentKind :=
| ShieldMechanism
| InstantKillMechanism
| FullHealthMechanism
| DoubleHealthMechanism.

(** An attachment object: its identity, its class, and its image when it
    has one (read by [SpriteController.move]). *)
Record Attachment := mkAttachment {
  att_id : nat;
  att_kind : AttachmentKind;
  att_image : option Image.t
}.

(** Modelled from the spec: the audio handle [audio.AudioSound] is missing
    from the sources; the spec gives it [play()], [stop()] and a boolean
    [playing]. *)
Record AudioSound := mkAudioSound { playing : bool }.

Inductive Sound := AttachmentSound | AttachmentDenySound | FireSound.

Inductive Key := Up | Down | Right | Left | Space.

(** The class of a sprite decides which [die] runs. *)
Inductive Class :=
| ClsSprite
| ClsShip
| ClsAsteroid
| ClsMechanismAsteroid (k : AttachmentKind).

(** Calls that leave this module, plus the calls the statements below speak about. *)
Inductive Event :=
| EvPlay (s : Sound)
| EvStop (s : Sound)
| EvSelect
| EvDeselect
| EvSetup (a : Attachment)
| EvDie (self killer : nat)
| EvExplode (ex ey : Q)
| EvEnd
| EvRemoveAsteroid (a : nat) (flag : bool)
| EvRender (p : nat)
| EvDestroy (p : nat)
| EvCollisionTest (p : nat)
| EvMoved (p : nat) (dy : Q)
| EvUnbind (k : Key) (release : bool)
| EvDestroyMusic
| EvDestroyGameController.

Module Sprite.
Record t := mk {
  id : nat;
  cls : Class;
  image : Image.t;
  _attachment : option Attachment;
  attachment_sound : AudioSound;
  attachment_deny_sound : AudioSound;
  health : Z;
  damage : Z;
  can_damage : bool
}.

Definition set_image (v : Image.t) (s : t) : t :=
  mk (id s) (cls s) v (_attachment s) (attachment_sound s)
     (attachment_deny_sound s) (health s) (damage s) (can_damage s).

Definition set_attachment (v : option Attachment) (s : t) : t :=
  mk (id s) (cls s) (image s) v (attachment_sound s)
     (attachment_deny_sound s) (health s) (damage s) (can_damage s).

Definition set_attachment_sound (v : AudioSound) (s : t) : t :=
  mk (id s) (cls s) (image s) (_attachment s) v
     (attachment_deny_sound s) (health s) (damage s) (can_damage s).

Definition set_attachment_deny_sound (v : AudioSound) (s : t) : t :=
  mk (id s) (cls s) (image s) (_attachment s) (attachment_sound s)
     v (health s) (damage s) (can_damage s).

Definition set_health (v : Z) (s : t) : t :=
  mk (id s) (cls s) (image s) (_attachment s) (attachment_sound s)
     (attachment_deny_sound s) v (damage s) (can_damage s).
End Sprite.

(** A projectile is a [ResourceImage] of the bullet with its identity. *)
Record Projectile := mkProjectile { pid : nat; pimage : Image.t }.

(** The fields of [ShipController]; its [image] is the ship's own image
    object and is read from the ship. *)
Module Controller.
Record t := mk {
  speed : Z;
  projectile_speed : Z;
  moving_forward : bool;
  moving_backward : bool;
  moving_right : bool;
  moving_left : bool;
  firing : bool;
  projectiles : list Projectile;
  maximum_projectiles : Z;
  current_distance : Z;
  fire_sound : bool
}.

Definition set_moving_forward (v : bool) (c : t) : t :=
  mk (speed c) (projectile_speed c) v (moving_backward c) (moving_right c)
     (moving_left c) (firing c) (projectiles c) (maximum_projectiles c)
     (current_distance c) (fire_sound c).

Definition set_moving_backward (v : bool) (c : t) : t :=
  mk (speed c) (projectile_speed c) (moving_forward c) v (moving_right c)
     (moving_left c) (firing c) (projectiles c) (maximum_projectiles c)
     (current_distance c) (fire_sound c).

Definition set_moving_right (v : bool) (c : t) : t :=
  mk (speed c) (projectile_speed c) (moving_forward c) (moving_backward c) v
     (moving_left c) (firing c) (projectiles c) (maximum_projectiles c)
     (current_distance c) (fire_sound c).

Definition set_moving_left (v : bool) (c : t) : t :=
  mk (speed c) (projectile_speed c) (moving_forward c) (moving_backward c)
     (moving_right c) v (firing c) (projectiles c) (maximum_projectiles c)
     (current_distance c) (fire_sound c).

Definition set_firing (v : bool) (c : t) : t :=
  mk (speed c) (projectile_speed c) (moving_forward c) (moving_backward c)
     (moving_right c) (moving_left c) v (projectiles c) (maximum_projectiles c)
     (current_distance c) (fire_sound c).

Definition set_projectiles (v : list Projectile) (c : t) : t :=
  mk (speed c) (projectile_speed c) (moving_forward c) (moving_backward c)
     (moving_right c) (moving_left c) (firing c) v (maximum_projectiles c)
     (current_distance c) (fire_sound c).

Definition set_current_distance (v : Z) (c : t) : t :=
  mk (speed c) (projectile_speed c) (moving_forward c) (moving_backward c)
     (moving_right c) (moving_left c) (firing c) (projectiles c)
     (maximum_projectiles c) v (fire_sound c).

Definition set_fire_sound (v : bool) (c : t) : t :=
  mk (speed c) (projectile_speed c) (moving_forward c) (moving_backward c)
     (moving_right c) (moving_left c) (firing c) (projectiles c)
     (maximum_projectiles c) (current_distance c) v.
End Controller.

(** The part of the running game the controller reaches through [_parent]:
    the ship, its controller, the asteroid list, the display bounds, and the
    bookkeeping of the model (event log, round-ended flag, number of random
    draws consumed, next fresh object identity). *)
Module World.
Record t := mk {
  ship : Sprite.t;
  controller : Controller.t;
  asteroids : list Sprite.t;
  display_width : Z;
  display_height : Z;
  log : list Event;
  ended : bool;
  draws : nat;
  next_id : nat
}.

Definition set_ship (v : Sprite.t) (w : t) : t :=
  mk v (controller w) (asteroids w) (display_width w) (display_height w)
     (log w) (ended w) (draws w) (next_id w).

Definition set_controller (v : Controller.t) (w : t) : t :=
  mk (ship w) v (asteroids w) (display_width w) (display_height w)
     (log w) (ended w) (draws w) (next_id w).

Definition set_asteroids (v : list Sprite.t) (w : t) : t :=
  mk (ship w) (controller w) v (display_width w) (display_height w)
     (log w) (ended w) (draws w) (next_id w).

Definition emit (es : list Event) (w : t) : t :=
  mk (ship w) (controller w) (asteroids w) (display_width w) (display_height w)
     (log w ++ es) (ended w) (draws w) (next_id w).

Definition set_ended (v : bool) (w : t) : t :=
  mk (ship w) (controller w) (asteroids w) (display_width w) (display_height w)
     (log w) v (draws w) (next_id w).

Definition set_draws (v : nat) (w : t) : t :=
  mk (ship w) (controller w) (asteroids w) (display_width w) (display_height w)
     (log w) (ended w) v (next_id w).

Definition set_next_id (v : nat) (w : t) : t :=
  mk (ship w) (controller w) (asteroids w) (display_width w) (display_height w)
     (log w) (ended w) (draws w) v.
End World.

Definition set_speed (v : Z) (c : Controller.t) : Controller.t :=
  Controller.mk v (Controller.projectile_speed c) (Controller.moving_forward c)
    (Controller.moving_backward c) (Controller.moving_right c)
    (Controller.moving_left c) (Controller.firing c) (Controller.projectiles c)
    (Controller.maximum_projectiles c) (Controller.current_distance c)
    (Controller.fire_sound c).

(** ** Audio handles *)

Definition play (s : Sound) (a : AudioSound) : AudioSound * list Event :=
  (mkAudioSound true, [EvPlay s]).

Definition stop (s : Sound) (a : AudioSound) : AudioSound * list Event :=
  (mkAudioSound false, [EvStop s]).

(** [if snd.playing: snd.stop()] followed by [snd.play()]. *)
Definition restart (s : Sound) (a : AudioSound) : AudioSound * list Event :=
  let (a1, e1) := if playing a then stop s a else (a, []) in
  let (a2, e2) := play s a1 in
  (a2, e1 ++ e2).

(** ** [Sprite.attachment] *)

(** Truth value of [self._attachment]: [None] is false, an object is true. *)
Definition truthy (a : option Attachment) : bool :=
  match a with Some _ => true | None => false end.

(** [a is b] on attachment references. *)
Definition is_ (a b : option Attachment) : bool :=
  match a, b with
  | None, None => true
  | Some a', Some b' => Nat.eqb (att_id a') (att_id b')
  | _, _ => false
  end.

(** The setter of the [attachment] property (sprite.py, lines 34-49).  It
    only touches [self]; the result is the new [self] and the calls made.
    In the accepting branch [attachment] cannot be [None], because
    [None is None] sends that case to the rejecting branch. *)
Definition attachment_setter (self : Sprite.t) (attachment : option Attachment)
  : Sprite.t * list Event :=
  if truthy (Sprite._attachment self) || is_ attachment (Sprite._attachment self)
  then
    let (snd, es) := restart AttachmentDenySound (Sprite.attachment_deny_sound self) in
    (Sprite.set_attachment_deny_sound snd self, es)
  else
    let self1 := Sprite.set_attachment attachment self in
    let es1 := match Sprite._attachment self1 with
               | Some a => [EvSetup a]
               | None => []
               end in
    let (snd, es2) := restart AttachmentSound (Sprite.attachment_sound self1) in
    (Sprite.set_attachment_sound snd self1, es1 ++ es2).

(** ** The object store *)

Definition replace_sprite (s : Sprite.t) (l : list Sprite.t) : list Sprite.t :=
  map (fun a => if Nat.eqb (Sprite.id a) (Sprite.id s) then s else a) l.

(** Write a mutated sprite back under its identity. *)
Definition put_sprite (s : Sprite.t) (w : World.t) : World.t :=
  if Nat.eqb (Sprite.id s) (Sprite.id (World.ship w))
  then World.set_ship s w
  else World.set_asteroids (replace_sprite s (World.asteroids w)) w.

Definition sprite_by_id (i : nat) (w : World.t) : option Sprite.t :=
  if Nat.eqb i (Sprite.id (World.ship w))
  then Some (World.ship w)
  else find (fun a => Nat.eqb (Sprite.id a) i) (World.asteroids w).

(** [list.remove(obj)]: drops the first element that is the object. *)
Fixpoint remove_sprite (i : nat) (l : list Sprite.t) : list Sprite.t :=
  match l with
  | [] => []
  | a :: l' => if Nat.eqb (Sprite.id a) i then l' else a :: remove_sprite i l'
  end.

Fixpoint remove_projectile (i : nat) (l : list Projectile) : list Projectile :=
  match l with
  | [] => []
  | p :: l' => if Nat.eqb (pid p) i then l' else p :: remove_projectile i l'
  end.

(** ** The parent game *)

(** Modelled from the spec: [explode], [end] and [remove_asteroid] belong to
    the parent game, which is missing from the sources.  The spec has an
    explosion effect at a position, the end of the round, and the removal of
    an obstacle from the live set; the second argument of [remove_asteroid] is
    passed as [True] after an explosion and [False] by the carriers. *)
Definition explode (ex ey : Q) (w : World.t) : World.t :=
  World.emit [EvExplode ex ey] w.

Definition end_ (w : World.t) : World.t :=
  World.set_ended true (World.emit [EvEnd] w).

Definition remove_asteroid (a : Sprite.t) (flag : bool) (w : World.t) : World.t :=
  World.emit [EvRemoveAsteroid (Sprite.id a) flag]
    (World.set_asteroids (remove_sprite (Sprite.id a) (World.asteroids w)) w).

(** ** Construction *)

(** [ShipController.__init__] (lines 142-168). *)
Definition new_ship_controller : Controller.t :=
  Controller.mk 15 20 false false false false false [] 15 0 false.

(** [Ship.__init__] (lines 318-326). *)
Definition new_ship (i : nat) (img : Image.t) : Sprite.t :=
  Sprite.mk i ClsShip img None (mkAudioSound false) (mkAudioSound false)
    100 5 true.

(** [Asteroid.__init__] (lines 350-365). *)
Definition new_asteroid (i : nat) (img : Image.t) : Sprite.t :=
  Sprite.mk i ClsAsteroid img None (mkAudioSound false) (mkAudioSound false)
    10 1 true.

(** [MechanismAsteroid.__init__] (lines 375-383) for the carrier of [k]. *)
Definition new_mechanism_asteroid (i : nat) (k : AttachmentKind) (img : Image.t)
  : Sprite.t :=
  Sprite.mk i (ClsMechanismAsteroid k) img None (mkAudioSound false)
    (mkAudioSound false) 0 0 true.

(** A round that has just started: the ship, no asteroid, nothing logged. *)
Definition new_world (img : Image.t) (dw dh : Z) : World.t :=
  World.mk (new_ship 0 img) new_ship_controller [] dw dh [] false 0 1.

(** ** Sample data for concrete runs *)

(** Modelled from the spec: [collide_point] is missing from the sources; the
    spec has a point-in-bounds test against the visual bounds of the other
    image.  The point is the position of the receiver, the bounds span half
    the size of the argument on each side of its position. *)
Definition point_in_bounds (a b : Image.t) : bool :=
  Qle_bool (Image.x b - inject_Z (Image.width b / 2)) (Image.x a)
  && Qle_bool (Image.x a) (Image.x b + inject_Z (Image.width b / 2))
  && Qle_bool (Image.y b - inject_Z (Image.height b / 2)) (Image.y a)
  && Qle_bool (Image.y a) (Image.y b + inject_Z (Image.height b / 2)).

(** A generator that always returns one half. *)
Definition half_random (n : nat) : Q := 1 # 2.

Definition no_image (k : AttachmentKind) : option Image.t := None.

(** A 64 by 64 ship on an 800 by 600 display, placed by [Ship.__init__] at
    [(800 / 2, 600 - 64)]. *)
Definition ship_image : Image.t := Image.mk 400 536 64 64.

Definition start : World.t := new_world ship_image 800 600.

(** A plain asteroid and a shield carrier sitting on the ship. *)
Definition rock : Sprite.t := new_asteroid 1 (Image.mk 400 536 32 32).

Definition carrier : Sprite.t :=
  new_mechanism_asteroid 1 ShieldMechanism (Image.mk 400 536 32 32).

Definition crowded : World.t := World.set_asteroids [rock] start.

Definition bonus : World.t := World.set_asteroids [carrier] start.

(** The ship down to its last point of health, a rock on it. *)
Definition frail : World.t :=
  World.set_ship (Sprite.set_health 1 (World.ship crowded)) crowded.

(** A carrier up the screen and a projectile inside its bounds. *)
Definition far_carrier : Sprite.t :=
  new_mechanism_asteroid 1 ShieldMechanism (Image.mk 368 300 32 32).

Definition shot : Projectile := mkProjectile 7 (Image.mk 368 300 8 16).

Definition hunt : World.t := World.set_asteroids [far_carrier] start.

(** Two projectiles in flight, the first one at the top of the display. *)
Definition shot0 : Projectile := mkProjectile 1 (Image.mk 368 0 8 16).

Definition shot1 : Projectile := mkProjectile 2 (Image.mk 432 100 8 16).

Definition two_shots : World.t :=
  World.set_controller
    (Controller.set_projectiles [shot0; shot1] (World.controller start)) start.

(** The ship holding a shield whose image has not been placed yet, alone
    and with a carrier up the screen. *)
Definition shield : Attachment :=
  mkAttachment 9 ShieldMechanism (Some (Image.mk 0 0 48 48)).

Definition armed : World.t :=
  World.set_ship (Sprite.set_attachment (Some shield) (World.ship start)) start.

Definition armed_hunt : World.t := World.set_asteroids [far_carrier] armed.

(** The ship against the top edge with Up and Down both held. *)
Definition cornered : World.t :=
  World.set_controller
    (Controller.set_moving_backward true
       (Controller.set_moving_forward true new_ship_controller))
    (new_world (Image.mk 400 32 64 64) 800 600).

(** A display the ship fills from edge to edge, every direction held. *)
Definition boxed : World.t :=
  World.set_controller
    (Controller.set_moving_left true
       (Controller.set_moving_right true
          (Controller.set_moving_backward true
             (Controller.set_moving_forward true new_ship_controller))))
    (new_world (Image.mk 32 32 64 64) 64 64).

(** Every direction held in the middle of the display. *)
Definition all_keys : World.t :=
  World.set_controller
    (Controller.set_moving_left true
       (Controller.set_moving_right true
          (Controller.set_moving_backward true
             (Controller.set_moving_forward true new_ship_controller))))
    start.


(** ** Sprites *)

Section Engine.

(** The [n]-th value returned by [random.random()]. *)
Variable random : nat -> Q.

(** [ResourceImage.collide_point], of the missing [resource] module. *)
Variable collide_point : Image.t -> Image.t -> bool.

(** Size of [assets/bullet.png]. *)
Variables bullet_width bullet_height : Z.

(** The image a freshly built attachment of each class owns, if any. *)
Variable mechanism_image : AttachmentKind -> option Image.t.

(** Assigning to [killer.attachment] runs the setter on the killer. *)
Definition grant (self : Sprite.t) (attachment : option Attachment) (w : World.t)
  : World.t :=
  let (self', es) := attachment_setter self attachment in
  World.emit es (put_sprite self' w).

(** [die], dispatched on the class of [self] (lines 60, 328, 367, 385). *)
Definition die (self killer : Sprite.t) (w : World.t) : World.t :=
  let w0 := World.emit [EvDie (Sprite.id self) (Sprite.id killer)] w in
  let img := Sprite.image self in
  match Sprite.cls self with
  | ClsSprite => w0
  | ClsShip => end_ (explode (Image.x img) (Image.y img) w0)
  | ClsAsteroid =>
      remove_asteroid self true (explode (Image.x img) (Image.y img) w0)
  | ClsMechanismAsteroid k =>
      let a := mkAttachment (World.next_id w0) k (mechanism_image k) in
      let w1 := World.set_next_id (S (World.next_id w0)) w0 in
      remove_asteroid self false (grant killer (Some a) w1)
  end.

(** [Sprite.hurt] (lines 51-58). *)
Definition hurt (self attacker : Sprite.t) (w : World.t) : World.t :=
  if negb (Sprite.can_damage self) then w
  else if Sprite.health self <=? 0 then die self attacker w
  else put_sprite
         (Sprite.set_health (Sprite.health self - Sprite.damage attacker) self) w.

(** ** [SpriteController] and [ShipController] *)

Definition set_ship_image (v : Image.t) (w : World.t) : World.t :=
  World.set_ship (Sprite.set_image v (World.ship w)) w.

Definition set_projectiles (v : list Projectile) (w : World.t) : World.t :=
  World.set_controller (Controller.set_projectiles v (World.controller w)) w.

Definition set_current_distance (v : Z) (w : World.t) : World.t :=
  World.set_controller (Controller.set_current_distance v (World.controller w)) w.

Definition projectiles (w : World.t) : list Projectile :=
  Controller.projectiles (World.controller w).

(** [SpriteController.move] (lines 112-114): an attachment that owns an
    image follows the sprite. *)
Definition sprite_controller_move (w : World.t) : World.t :=
  let s := World.ship w in
  match Sprite._attachment s with
  | Some a =>
      match att_image a with
      | Some i =>
          let i' := Image.set_position (Image.x (Sprite.image s))
                      (Image.y (Sprite.image s)) i in
          World.set_ship
            (Sprite.set_attachment
               (Some (mkAttachment (att_id a) (att_kind a) (Some i'))) s) w
      | None => w
      end
  | None => w
  end.

(** The key handlers bound in [setup] (lines 186-214). *)
Inductive KeyEvent := Press (k : Key) | Release (k : Key).

Definition released (e : KeyEvent) : bool :=
  match e with Press _ => false | Release _ => true end.

Definition key_of (e : KeyEvent) : Key :=
  match e with Press k => k | Release k => k end.

Definition handle_key (e : KeyEvent) (w : World.t) : World.t :=
  let c := World.controller w in
  let v := negb (released e) in
  World.set_controller
    match key_of e with
    | Up => Controller.set_moving_forward v c
    | Down => Controller.set_moving_backward v c
    | Right => Controller.set_moving_right v c
    | Left => Controller.set_moving_left v c
    | Space => Controller.set_firing v c
    end w.

(** [fire_projectile] (lines 269-287). *)
Definition fire_projectile (w : World.t) : World.t :=
  let c := World.controller w in
  let w1 := if Controller.fire_sound c
            then World.emit [EvDeselect]
                   (World.set_controller (Controller.set_fire_sound false c) w)
            else w in
  let w2 := World.emit [EvSelect; EvPlay FireSound]
              (World.set_controller
                 (Controller.set_fire_sound true (World.controller w1)) w1) in
  let img := Sprite.image (World.ship w2) in
  let n := World.next_id w2 in
  let bullet0 :=
    mkProjectile n
      (Image.mk (Image.x img - inject_Z (Image.width img / 2))%Q (Image.y img)
         bullet_width bullet_height) in
  let bullet1 :=
    mkProjectile (S n)
      (Image.mk (Image.x img + inject_Z (Image.width img / 2))%Q (Image.y img)
         bullet_width bullet_height) in
  let w3 := World.emit [EvRender n; EvRender (S n)]
              (World.set_next_id (S (S n)) w2) in
  let w4 := set_projectiles (projectiles w3 ++ [bullet0]) w3 in
  set_projectiles (projectiles w4 ++ [bullet1]) w4.

(** [destroy_projectile] (lines 289-291): [projectile.destroy()], then
    [self.projectiles.remove(projectile)]. *)
Definition destroy_projectile (p : Projectile) (w : World.t) : World.t :=
  let w1 := World.emit [EvDestroy (pid p)] w in
  set_projectiles (remove_projectile (pid p) (projectiles w1)) w1.

(** [check_projectile_collisions] (lines 254-261).  The loop leaves at the
    first hit, so the asteroid list it walks is the one it started with. *)
Fixpoint check_projectile_collisions_in (l : list Sprite.t) (p : Projectile)
  (w : World.t) : bool * World.t :=
  match l with
  | [] => (false, w)
  | asteroid :: l' =>
      if collide_point (pimage p) (Sprite.image asteroid)
      then (true, hurt asteroid (World.ship w) w)
      else check_projectile_collisions_in l' p w
  end.

Definition check_projectile_collisions (p : Projectile) (w : World.t)
  : bool * World.t :=
  check_projectile_collisions_in (World.asteroids w) p
    (World.emit [EvCollisionTest (pid p)] w).

(** [projectile.y -= random.random() * self.projectile_speed * 2] on the
    projectile the iterator handed out, which sits at index [i]. *)
Fixpoint move_projectile_at (i : nat) (dy : Q) (l : list Projectile)
  : list Projectile :=
  match l, i with
  | [], _ => []
  | p :: l', O =>
      mkProjectile (pid p) (Image.set_y (Image.y (pimage p) - dy)%Q (pimage p))
      :: l'
  | p :: l', S i' => p :: move_projectile_at i' dy l'
  end.

(** One turn of the body of the [for] loop of [update_projectiles]. *)
Definition update_projectile (i : nat) (p : Projectile) (w : World.t) : World.t :=
  if Qle_bool (Image.y (pimage p)) 0 then destroy_projectile p w
  else
    let (hit, w1) := check_projectile_collisions p w in
    if hit then destroy_projectile p w1
    else
      let dy := (random (World.draws w1)
                 * inject_Z (Controller.projectile_speed (World.controller w1))
                 * 2)%Q in
      World.emit [EvMoved (pid p) dy]
        (World.set_draws (S (World.draws w1))
           (set_projectiles (move_projectile_at i dy (projectiles w1)) w1)).

(** [update_projectiles] (lines 241-252).  A Python [for] over a list keeps
    an index into the live list: each turn reads the element at the index,
    advances the index, and stops when the index is past the end.  [fuel]
    bounds the number of turns; the list never grows in the body, so its
    length at entry is enough (see [update_projectiles_from_fuel]). *)
Fixpoint update_projectiles_from (fuel i : nat) (w : World.t) : World.t :=
  match fuel with
  | O => w
  | S fuel' =>
      match nth_error (projectiles w) i with
      | None => w
      | Some p => update_projectiles_from fuel' (S i) (update_projectile i p w)
      end
  end.

Definition update_projectiles (w : World.t) : World.t :=
  update_projectiles_from (length (projectiles w)) 0 w.

(** [check_player_collisions] (lines 263-267). *)
Fixpoint check_player_collisions_in (l : list Sprite.t) (w : World.t) : World.t :=
  match l with
  | [] => w
  | asteroid :: l' =>
      if collide_point (Sprite.image asteroid) (Sprite.image (World.ship w))
      then hurt (World.ship w) asteroid w
      else check_player_collisions_in l' w
  end.

Definition check_player_collisions (w : World.t) : World.t :=
  check_player_collisions_in (World.asteroids w) w.

(** The steps of [ShipController.move] (lines 219-239), in source order. *)

(** Line 222: [self.current_distance += self.speed]. *)
Definition move_distance (w : World.t) : World.t :=
  let c := World.controller w in
  set_current_distance (Controller.current_distance c + Controller.speed c) w.

(** Lines 224-228: the forward/backward axis. *)
Definition move_vertical (w : World.t) : World.t :=
  let c := World.controller w in
  let img := Sprite.image (World.ship w) in
  if Controller.moving_forward c
     && negb (Qle_bool (Image.y img - inject_Z (Image.height img / 2)) 0)
  then set_ship_image
         (Image.set_y (Image.y img - inject_Z (Controller.speed c))%Q img) w
  else if Controller.moving_backward c
          && negb (Qle_bool (inject_Z (World.display_height w))
                     (Image.y img + inject_Z (Image.height img / 2)))
  then
    let w1 := set_ship_image
                (Image.set_y (Image.y img + inject_Z (Controller.speed c / 2))%Q
                   img) w in
    set_current_distance
      (Controller.current_distance c - Controller.speed c / 2) w1
  else w.

(** Lines 230-233: the right/left axis. *)
Definition move_horizontal (w : World.t) : World.t :=
  let c := World.controller w in
  let img := Sprite.image (World.ship w) in
  if Controller.moving_right c
     && negb (Qle_bool (inject_Z (World.display_width w))
                (Image.x img + inject_Z (Image.width img / 2)))
  then set_ship_image
         (Image.set_x (Image.x img + inject_Z (Controller.speed c))%Q img) w
  else if Controller.moving_left c
          && negb (Qle_bool (Image.x img - inject_Z (Image.width img / 2)) 0)
  then set_ship_image
         (Image.set_x (Image.x img - inject_Z (Controller.speed c))%Q img) w
  else w.

(** Lines 235-236: the guarded call of [fire_projectile]. *)
Definition move_fire (w : World.t) : World.t :=
  let c := World.controller w in
  if Controller.firing c
     && (Z.of_nat (length (Controller.projectiles c))
         <? Controller.maximum_projectiles c)
  then fire_projectile w
  else w.

Definition move (w : World.t) : World.t :=
  let w := sprite_controller_move w in
  let w := move_distance w in
  let w := move_vertical w in
  let w := move_horizontal w in
  let w := move_fire w in
  let w := update_projectiles w in
  check_player_collisions w.

(** [destroy_projectiles] (lines 293-295), the same kind of loop. *)
Fixpoint destroy_projectiles_from (fuel i : nat) (w : World.t) : World.t :=
  match fuel with
  | O => w
  | S fuel' =>
      match nth_error (projectiles w) i with
      | None => w
      | Some p => destroy_projectiles_from fuel' (S i) (destroy_projectile p w)
      end
  end.

Definition destroy_projectiles (w : World.t) : World.t :=
  destroy_projectiles_from (length (projectiles w)) 0 w.

Definition unbind_all : list Event :=
  [EvUnbind Up false; EvUnbind Up true; EvUnbind Down false; EvUnbind Down true;
   EvUnbind Right false; EvUnbind Right true; EvUnbind Left false;
   EvUnbind Left true; EvUnbind Space false; EvUnbind Space true].

(** [ShipController.destroy] (lines 297-314), followed by
    [SpriteController.destroy] (lines 134-138). *)
Definition destroy (w : World.t) : World.t :=
  let w1 := World.emit [EvDestroyMusic]  w in
  let w2 := World.set_controller
              (Controller.set_fire_sound false (World.controller w1)) w1 in
  let w3 := World.emit unbind_all w2 in
  let w4 := World.emit [EvDestroyGameController] w3 in
  let w5 := destroy_projectiles w4 in
  World.set_controller (set_speed 0 (World.controller w5)) w5.

(** One frame: the key events delivered since the last frame, then [move]. *)
Definition frame (keys : list KeyEvent) (w : World.t) : World.t :=
  move (fold_left (fun w e => handle_key e w) keys w).

(** Everything [move] does after the two movement steps. *)
Definition move_rest (w : World.t) : World.t :=
  check_player_collisions (update_projectiles (move_fire w)).

(** ** Runs *)

(** What can happen between two observations of the world: a key handler
    runs, the controller's [move] runs, or the parent game spawns, advances
    and removes asteroids.  Asteroids are objects distinct from the ship. *)
Inductive step : World.t -> World.t -> Prop :=
| step_key (e : KeyEvent) (w : World.t) : step w (handle_key e w)
| step_move (w : World.t) : step w (move w)
| step_parent (l : list Sprite.t) (w : World.t) :
    (forall a, In a l -> Sprite.id a <> Sprite.id (World.ship w)) ->
    step w (World.set_asteroids l w).

Inductive reachable (w0 : World.t) : World.t -> Prop :=
| reach_start : reachable w0 w0
| reach_step (w w' : World.t) : reachable w0 w -> step w w' -> reachable w0 w'.

(** ** Predicates of the statements *)

(** No asteroid of the parent's list is the ship object. *)
Definition distinct_ids (w : World.t) : Prop :=
  forall a, In a (World.asteroids w) -> Sprite.id a <> Sprite.id (World.ship w).

(** A record passed as an argument is up to date: if it carries the ship's
    identity, it is the ship as the world holds it. *)
Definition current (s : Sprite.t) (w : World.t) : Prop :=
  Sprite.id s = Sprite.id (World.ship w) -> s = World.ship w.

(** The settings of the controller and of the display that no step of
    [move] after the movement itself touches. *)
Record same_settings (w w' : World.t) : Prop := mk_same_settings {
  same_speed :
    Controller.speed (World.controller w') = Controller.speed (World.controller w);
  same_maximum :
    Controller.maximum_projectiles (World.controller w')
    = Controller.maximum_projectiles (World.controller w);
  same_distance :
    Controller.current_distance (World.controller w')
    = Controller.current_distance (World.controller w);
  same_width : World.display_width w' = World.display_width w;
  same_height : World.display_height w' = World.display_height w
}.

(** The ship keeps its identity and its image, and no asteroid identity
    appears. *)
Record same_stage (w w' : World.t) : Prop := mk_same_stage {
  same_ship_id : Sprite.id (World.ship w') = Sprite.id (World.ship w);
  same_ship_image : Sprite.image (World.ship w') = Sprite.image (World.ship w);
  same_asteroid_ids :
    incl (map Sprite.id (World.asteroids w')) (map Sprite.id (World.asteroids w))
}.

(** The four bounding edges of the ship's image. *)
Definition top_edge (w : World.t) : Q :=
  let img := Sprite.image (World.ship w) in
  Image.y img - inject_Z (Image.height img / 2).

Definition bottom_edge (w : World.t) : Q :=
  let img := Sprite.image (World.ship w) in
  Image.y img + inject_Z (Image.height img / 2).

Definition left_edge (w : World.t) : Q :=
  let img := Sprite.image (World.ship w) in
  Image.x img - inject_Z (Image.width img / 2).

Definition right_edge (w : World.t) : Q :=
  let img := Sprite.image (World.ship w) in
  Image.x img + inject_Z (Image.width img / 2).

(** The ship inside the play area, edges included. *)
Definition in_play_area (w : World.t) : Prop :=
  (0 <= top_edge w)%Q /\
  (bottom_edge w <= inject_Z (World.display_height w))%Q /\
  (0 <= left_edge w)%Q /\
  (right_edge w <= inject_Z (World.display_width w))%Q.

(** The ship within less than one step of the play area: a step of [speed]
    upwards and sideways, of [speed / 2] downwards. *)
Definition within_one_step (w : World.t) : Prop :=
  let c := World.controller w in
  (- inject_Z (Controller.speed c) < top_edge w)%Q /\
  (bottom_edge w
   < inject_Z (World.display_height w) + inject_Z (Controller.speed c / 2))%Q /\
  (- inject_Z (Controller.speed c) < left_edge w)%Q /\
  (right_edge w
   < inject_Z (World.display_width w) + inject_Z (Controller.speed c))%Q.

(** The backward branch of the vertical axis is the one taken. *)
Definition backs_up (w : World.t) : bool :=
  let c := World.controller w in
  let img := Sprite.image (World.ship w) in
  negb (Controller.moving_forward c
        && negb (Qle_bool (Image.y img - inject_Z (Image.height img / 2)) 0))
  && (Controller.moving_backward c
      && negb (Qle_bool (inject_Z (World.display_height w))
                 (Image.y img + inject_Z (Image.height img / 2)))).

(** Events of the pass over the projectiles that concern projectile [p]. *)
Definition visits (p : nat) (e : Event) : Prop :=
  e = EvDestroy p \/ e = EvCollisionTest p \/ exists dy, e = EvMoved p dy.

(** An event that concerns no projectile. *)
Definition quiet (e : Event) : Prop := forall p, ~ visits p e.

(** [w'] has the log of [w] followed by events that concern no projectile. *)
Definition appends_quietly (w w' : World.t) : Prop :=
  exists es, World.log w' = World.log w ++ es /\ Forall quiet es.

(** The identities of the in-flight projectiles, in list order. *)
Definition pids (w : World.t) : list nat := map pid (projectiles w).

(** [n] frames without any key event. *)
Fixpoint idle (n : nat) (w : World.t) : World.t :=
  match n with
  | O => w
  | S n' => idle n' (frame [] w)
  end.

(** ** Asteroids *)

(** [a + b] on Python floats: the sum as the machine rounds it.  The speed
    of an asteroid is the float [random.random() * 25]
    ([AsteroidController.__init__], lines 334-338), so its [y] is a float
    from the first update on. *)
Variable float_add : Q -> Q -> Q.



(** [n] projectile hits on the asteroid with identity [i]: each one is the
    call [asteroid.hurt(self.sprite)] of [check_projectile_collisions]. *)
Fixpoint strike (n : nat) (i : nat) (w : World.t) : World.t :=
  match n with
  | O => w
  | S n' =>
      match find (fun a => Nat.eqb (Sprite.id a) i) (World.asteroids w) with
      | Some a => strike n' i (hurt a (World.ship w) w)
      | None => w
      end
  end.

(** The projectiles an event list destroys, in order. *)
Fixpoint destroyed_in (es : list Event) : list nat :=
  match es with
  | [] => []
  | EvDestroy p :: es' => p :: destroyed_in es'
  | _ :: es' => destroyed_in es'
  end.

(** ** The game controller ([controller.py]) *)

Definition JOYBUTTON_Y : Z := 0.

Definition JOYBUTTON_B : Z := 1.

Definition JOYBUTTON_A : Z := 2.

Definition JOYBUTTON_X : Z := 3.

Definition JOYBUTTON_LB : Z := 4.

Definition JOYBUTTON_RB : Z := 5.

Definition JOYBUTTON_LT : Z := 6.

Definition JOYBUTTON_RT : Z := 7.

(** The events [Controller.update] tells apart by their [type]. *)
Inductive JoyEvent :=
| JoyButtonDown (button : Z)
| JoyButtonUp (button : Z)
| JoyAxisMotion
| JoyOther.

(** Python 2 [round] of one argument: to the nearest integer, halves away
    from zero. *)
Definition py_round (q : Q) : Z :=
  if Qle_bool 0 q then Qfloor (q + (1 # 2)) else - Qfloor (- q + (1 # 2)).

(** Modelled from the spec: [self.root.send('<Up>')] goes through
    [SpriteController.send] to the parent, which is missing from the sources;
    the spec has the device events translated into the same intents as the
    keys, so a sent event runs the handler that [setup] bound to that key. *)
Definition send (e : KeyEvent) (w : World.t) : World.t := handle_key e w.

(** [GameController.button_down] and [button_up] (lines 53-59). *)
Definition button_down (button : Z) (w : World.t) : World.t :=
  if (button =? JOYBUTTON_LT) || (button =? JOYBUTTON_RT)
  then send (Press Space) w
  else w.

Definition button_up (button : Z) (w : World.t) : World.t :=
  if (button =? JOYBUTTON_LT) || (button =? JOYBUTTON_RT)
  then send (Release Space) w
  else w.

(** [GameController.axis_motion] (lines 61-82); [axis0] and [axis1] are what
    [joystick.get_axis] returns. *)
Definition axis_motion (axis0 axis1 : Q) (w : World.t) : World.t :=
  let x := py_round axis0 in
  let y := py_round axis1 in
  let w1 :=
    if x =? 1 then send (Press Right) w
    else if x =? -1 then send (Press Left) w
    else if Controller.moving_right (World.controller w)
         then send (Release Right) w
         else if Controller.moving_left (World.controller w)
              then send (Release Left) w
              else w in
  if y =? -1 then send (Press Up) w1
  else if y =? 1 then send (Press Down) w1
  else if Controller.moving_forward (World.controller w1)
       then send (Release Up) w1
       else if Controller.moving_backward (World.controller w1)
            then send (Release Down) w1
            else w1.

(** [Controller.update] (lines 31-38) over the events of [pygame.event.get()],
    with the axes as they stand. *)
Definition controller_update (axis0 axis1 : Q) (events : list JoyEvent)
  (w : World.t) : World.t :=
  fold_left
    (fun w e =>
       match e with
       | JoyButtonDown button => button_down button w
       | JoyButtonUp button => button_up button w
       | JoyAxisMotion => axis_motion axis0 axis1 w
       | JoyOther => w
       end)
    events w.

(** Two worlds give the movement steps of [move] the same inputs. *)
Record same_motion_inputs (w w' : World.t) : Prop := mk_same_motion_inputs {
  smi_forward :
    Controller.moving_forward (World.controller w')
    = Controller.moving_forward (World.controller w);
  smi_backward :
    Controller.moving_backward (World.controller w')
    = Controller.moving_backward (World.controller w);
  smi_right :
    Controller.moving_right (World.controller w')
    = Controller.moving_right (World.controller w);
  smi_left :
    Controller.moving_left (World.controller w')
    = Controller.moving_left (World.controller w);
  smi_speed :
    Controller.speed (World.controller w') = Controller.speed (World.controller w);
  smi_width : World.display_width w' = World.display_width w;
  smi_height : World.display_height w' = World.display_height w;
  smi_image : Sprite.image (World.ship w') = Sprite.image (World.ship w)
}.

(** Every projectile of [l'] is one of [l], at the same horizontal position
    and size, and not lower on the display. *)
Definition risen (l l' : list Projectile) : Prop :=
  forall q', In q' l' ->
    exists q, In q l /\ pid q' = pid q /\
              Image.x (pimage q') = Image.x (pimage q) /\
              Image.width (pimage q') = Image.width (pimage q) /\
              Image.height (pimage q') = Image.height (pimage q) /\
              (Image.y (pimage q') <= Image.y (pimage q))%Q.

(** Identities are handed out in increasing order: every projectile in
    flight is in the list once and was created before [next_id]. *)
Definition distinct_projectiles (w : World.t) : Prop :=
  NoDup (pids w) /\ forall r, In r (pids w) -> (r < World.next_id w)%nat.

(** ** Attachments *)

Lemma restart_events (s : Sound) (a : AudioSound) :
  snd (restart s a) = (if playing a then [EvStop s] else []) ++ [EvPlay s].
Proof. unfold restart; destruct (playing a); reflexivity. Qed.

Lemma restart_playing (s : Sound) (a : AudioSound) :
  playing (fst (restart s a)) = true.
Proof. unfold restart; destruct (playing a); reflexivity. Qed.

Lemma attachment_setter_id (self : Sprite.t) (o : option Attachment) :
  Sprite.id (fst (attachment_setter self o)) = Sprite.id self.
Proof.
  unfold attachment_setter.
  destruct (truthy (Sprite._attachment self) || is_ o (Sprite._attachment self));
    unfold restart;
    [destruct (playing (Sprite.attachment_deny_sound self))
    |destruct (playing (Sprite.attachment_sound (Sprite.set_attachment o self)))];
    reflexivity.
Qed.

Lemma attachment_setter_image (self : Sprite.t) (o : option Attachment) :
  Sprite.image (fst (attachment_setter self o)) = Sprite.image self.
Proof.
  unfold attachment_setter.
  destruct (truthy (Sprite._attachment self) || is_ o (Sprite._attachment self));
    unfold restart;
    [destruct (playing (Sprite.attachment_deny_sound self))
    |destruct (playing (Sprite.attachment_sound (Sprite.set_attachment o self)))];
    reflexivity.
Qed.

Lemma attachment_setter_health (self : Sprite.t) (o : option Attachment) :
  Sprite.health (fst (attachment_setter self o)) = Sprite.health self.
Proof.
  unfold attachment_setter.
  destruct (truthy (Sprite._attachment self) || is_ o (Sprite._attachment self));
    unfold restart;
    [destruct (playing (Sprite.attachment_deny_sound self))
    |destruct (playing (Sprite.attachment_sound (Sprite.set_attachment o self)))];
    reflexivity.
Qed.

(** C5. A sprite that already holds an attachment rejects every offer,
    whatever is offered: the deny sound is played (stopped first when it was
    playing), the held attachment stays, and no [setup] runs.  A sprite that
    holds none and is offered an attachment object takes it as its
    attachment, runs its [setup], and plays the accepted sound. *)
Theorem attachment_offer_rejected_or_accepted
  (self : Sprite.t) (offered : option Attachment) :
  (forall cur, Sprite._attachment self = Some cur ->
     Sprite._attachment (fst (attachment_setter self offered)) = Some cur /\
     snd (attachment_setter self offered)
     = (if playing (Sprite.attachment_deny_sound self)
        then [EvStop AttachmentDenySound] else [])
       ++ [EvPlay AttachmentDenySound] /\
     (forall a, ~ In (EvSetup a) (snd (attachment_setter self offered))) /\
     playing (Sprite.attachment_deny_sound (fst (attachment_setter self offered)))
     = true) /\
  (forall a, Sprite._attachment self = None -> offered = Some a ->
     Sprite._attachment (fst (attachment_setter self offered)) = Some a /\
     snd (attachment_setter self offered)
     = [EvSetup a]
       ++ (if playing (Sprite.attachment_sound self)
           then [EvStop AttachmentSound] else [])
       ++ [EvPlay AttachmentSound] /\
     playing (Sprite.attachment_sound (fst (attachment_setter self offered)))
     = true).
Proof.
  split.
  - intros cur Hcur. unfold attachment_setter. rewrite Hcur. simpl.
    destruct self as [i c im at_ s1 s2 h d cd]; simpl in *.
    unfold restart; destruct (playing s2); simpl; subst at_;
      (repeat split; try reflexivity);
      intros a H; simpl in H;
      repeat (destruct H as [H | H]; try discriminate H); contradiction.
  - intros a Hnone Hoff. unfold attachment_setter. rewrite Hnone, Hoff. simpl.
    destruct self as [i c im at_ s1 s2 h d cd]; simpl in *.
    unfold restart; destruct (playing s1); simpl; repeat split; reflexivity.
Qed.

(** ** Firing *)

Lemma fire_projectile_projectiles (w : World.t) :
  let img := Sprite.image (World.ship w) in
  projectiles (fire_projectile w)
  = projectiles w
    ++ [mkProjectile (World.next_id w)
          (Image.mk (Image.x img - inject_Z (Image.width img / 2))%Q
             (Image.y img) bullet_width bullet_height);
        mkProjectile (S (World.next_id w))
          (Image.mk (Image.x img + inject_Z (Image.width img / 2))%Q
             (Image.y img) bullet_width bullet_height)].
Proof.
  unfold fire_projectile, projectiles, set_projectiles.
  destruct (Controller.fire_sound (World.controller w)); simpl;
    rewrite <- app_assoc; reflexivity.
Qed.

(** C8. A call of [fire_projectile] appends exactly two projectiles to the
    in-flight collection, the first at [x - width / 2] and the second at
    [x + width / 2] of the ship's image (so their midpoint is [x]), both at
    the ship's [y]. *)
Theorem fire_spawns_symmetric_pair (w : World.t) :
  exists bullet0 bullet1,
    projectiles (fire_projectile w) = projectiles w ++ [bullet0; bullet1] /\
    length (projectiles (fire_projectile w)) = (length (projectiles w) + 2)%nat /\
    pid bullet0 <> pid bullet1 /\
    Image.x (pimage bullet0)
    = (Image.x (Sprite.image (World.ship w))
       - inject_Z (Image.width (Sprite.image (World.ship w)) / 2))%Q /\
    Image.x (pimage bullet1)
    = (Image.x (Sprite.image (World.ship w))
       + inject_Z (Image.width (Sprite.image (World.ship w)) / 2))%Q /\
    (Image.x (pimage bullet0) + Image.x (pimage bullet1)
     == 2 * Image.x (Sprite.image (World.ship w)))%Q /\
    Image.y (pimage bullet0) = Image.y (Sprite.image (World.ship w)) /\
    Image.y (pimage bullet1) = Image.y (Sprite.image (World.ship w)).
Proof.
  eexists; eexists. split; [apply fire_projectile_projectiles|].
  rewrite fire_projectile_projectiles, length_app. simpl.
  repeat split; try reflexivity; try lia. ring.
Qed.

(** ** The object store *)

Lemma map_id_replace_sprite (s : Sprite.t) (l : list Sprite.t) :
  map Sprite.id (replace_sprite s l) = map Sprite.id l.
Proof.
  induction l as [|a l IH]; simpl; [reflexivity|].
  rewrite IH. destruct (Nat.eqb (Sprite.id a) (Sprite.id s)) eqn:E;
    [apply Nat.eqb_eq in E; rewrite E|]; reflexivity.
Qed.

Lemma find_replace_sprite (s s0 : Sprite.t) (l : list Sprite.t) :
  find (fun a => Nat.eqb (Sprite.id a) (Sprite.id s)) l = Some s0 ->
  find (fun a => Nat.eqb (Sprite.id a) (Sprite.id s)) (replace_sprite s l)
  = Some s.
Proof.
  induction l as [|a l IH]; simpl; [discriminate|].
  destruct (Nat.eqb (Sprite.id a) (Sprite.id s)) eqn:E; simpl.
  - rewrite Nat.eqb_refl. reflexivity.
  - rewrite E. exact IH.
Qed.

Lemma find_replace_sprite_other (s : Sprite.t) (i : nat) (l : list Sprite.t) :
  i <> Sprite.id s ->
  find (fun a => Nat.eqb (Sprite.id a) i) (replace_sprite s l)
  = find (fun a => Nat.eqb (Sprite.id a) i) l.
Proof.
  intros Hne. induction l as [|a l IH]; simpl; [reflexivity|].
  destruct (Nat.eqb (Sprite.id a) (Sprite.id s)) eqn:E.
  - apply Nat.eqb_eq in E.
    destruct (Nat.eqb (Sprite.id s) i) eqn:E1;
      [apply Nat.eqb_eq in E1; congruence|].
    destruct (Nat.eqb (Sprite.id a) i) eqn:E2;
      [apply Nat.eqb_eq in E2; congruence|]. exact IH.
  - destruct (Nat.eqb (Sprite.id a) i); [reflexivity|exact IH].
Qed.

Lemma find_remove_sprite (i : nat) (l : list Sprite.t) :
  NoDup (map Sprite.id l) ->
  find (fun a => Nat.eqb (Sprite.id a) i) (remove_sprite i l) = None.
Proof.
  induction l as [|a l IH]; simpl; intros Hnd; [reflexivity|].
  inversion Hnd as [|? ? Hnin Hnd']; subst.
  destruct (Nat.eqb (Sprite.id a) i) eqn:E; simpl.
  - apply Nat.eqb_eq in E. subst i.
    destruct (find (fun a0 => Nat.eqb (Sprite.id a0) (Sprite.id a)) l) eqn:F;
      [|reflexivity].
    apply find_some in F. destruct F as [Hin Heq]. apply Nat.eqb_eq in Heq.
    exfalso. apply Hnin. rewrite <- Heq. apply in_map. exact Hin.
  - rewrite E. apply IH. exact Hnd'.
Qed.

Lemma put_sprite_ship_id (s : Sprite.t) (w : World.t) :
  Sprite.id (World.ship (put_sprite s w)) = Sprite.id (World.ship w).
Proof.
  unfold put_sprite.
  destruct (Nat.eqb (Sprite.id s) (Sprite.id (World.ship w))) eqn:E;
    [apply Nat.eqb_eq in E; exact E|reflexivity].
Qed.

Lemma put_sprite_log (s : Sprite.t) (w : World.t) :
  World.log (put_sprite s w) = World.log w.
Proof.
  unfold put_sprite.
  destruct (Nat.eqb (Sprite.id s) (Sprite.id (World.ship w))); reflexivity.
Qed.

Lemma put_sprite_controller (s : Sprite.t) (w : World.t) :
  World.controller (put_sprite s w) = World.controller w.
Proof.
  unfold put_sprite.
  destruct (Nat.eqb (Sprite.id s) (Sprite.id (World.ship w))); reflexivity.
Qed.

Lemma sprite_by_id_put (s s0 : Sprite.t) (w : World.t) :
  sprite_by_id (Sprite.id s) w = Some s0 ->
  sprite_by_id (Sprite.id s) (put_sprite s w) = Some s.
Proof.
  unfold sprite_by_id, put_sprite.
  destruct (Nat.eqb (Sprite.id s) (Sprite.id (World.ship w))) eqn:E; simpl.
  - rewrite Nat.eqb_refl. reflexivity.
  - rewrite E. apply find_replace_sprite.
Qed.

Lemma sprite_by_id_put_other (s : Sprite.t) (i : nat) (w : World.t) :
  i <> Sprite.id s ->
  sprite_by_id i (put_sprite s w) = sprite_by_id i w.
Proof.
  intros Hne. unfold sprite_by_id, put_sprite.
  destruct (Nat.eqb (Sprite.id s) (Sprite.id (World.ship w))) eqn:E; simpl.
  - apply Nat.eqb_eq in E. rewrite <- E.
    destruct (Nat.eqb i (Sprite.id s)) eqn:E1;
      [apply Nat.eqb_eq in E1; contradiction|reflexivity].
  - destruct (Nat.eqb i (Sprite.id (World.ship w))); [reflexivity|].
    apply find_replace_sprite_other. exact Hne.
Qed.

Lemma put_sprite_asteroid_ids (s : Sprite.t) (w : World.t) :
  map Sprite.id (World.asteroids (put_sprite s w))
  = map Sprite.id (World.asteroids w).
Proof.
  unfold put_sprite.
  destruct (Nat.eqb (Sprite.id s) (Sprite.id (World.ship w))); simpl;
    [reflexivity|apply map_id_replace_sprite].
Qed.

Lemma sprite_by_id_remove_asteroid (a s : Sprite.t) (flag : bool) (w : World.t) :
  NoDup (map Sprite.id (World.asteroids w)) ->
  sprite_by_id (Sprite.id a) (remove_asteroid a flag w) = Some s ->
  sprite_by_id (Sprite.id a) w = Some s.
Proof.
  intros Hnd. unfold sprite_by_id, remove_asteroid. simpl.
  destruct (Nat.eqb (Sprite.id a) (Sprite.id (World.ship w)));
    [trivial|].
  rewrite find_remove_sprite by exact Hnd. discriminate.
Qed.

(** ** Damage and death *)

Lemma grant_unfold (self : Sprite.t) (o : option Attachment) (w : World.t) :
  grant self o w
  = World.emit (snd (attachment_setter self o))
      (put_sprite (fst (attachment_setter self o)) w).
Proof. unfold grant. destruct (attachment_setter self o); reflexivity. Qed.

Lemma die_log (self killer : Sprite.t) (w : World.t) :
  exists rest,
    World.log (die self killer w)
    = World.log w ++ EvDie (Sprite.id self) (Sprite.id killer) :: rest.
Proof.
  unfold die. destruct (Sprite.cls self); simpl.
  - exists []. reflexivity.
  - eexists. rewrite <- !app_assoc. simpl. reflexivity.
  - eexists. rewrite <- !app_assoc. simpl. reflexivity.
  - rewrite grant_unfold. simpl. rewrite put_sprite_log. simpl.
    eexists. rewrite <- !app_assoc. simpl. reflexivity.
Qed.

Lemma die_keeps_self (self killer : Sprite.t) (w : World.t) :
  sprite_by_id (Sprite.id self) w = Some self ->
  Sprite.id killer <> Sprite.id self ->
  NoDup (map Sprite.id (World.asteroids w)) ->
  forall s, sprite_by_id (Sprite.id self) (die self killer w) = Some s ->
            s = self.
Proof.
  intros Hlive Hne Hnd s. unfold die. destruct (Sprite.cls self).
  - intros H. change (sprite_by_id (Sprite.id self) w = Some s) in H. congruence.
  - intros H. change (sprite_by_id (Sprite.id self) w = Some s) in H. congruence.
  - intros H. apply sprite_by_id_remove_asteroid in H; [|exact Hnd].
    change (sprite_by_id (Sprite.id self) w = Some s) in H. congruence.
  - intros H. apply sprite_by_id_remove_asteroid in H.
    + rewrite grant_unfold in H.
      match type of H with
      | sprite_by_id ?i (World.emit ?es ?w0) = _ =>
          change (sprite_by_id i w0 = Some s) in H
      end.
      rewrite sprite_by_id_put_other in H
        by (rewrite attachment_setter_id; congruence).
      change (sprite_by_id (Sprite.id self) w = Some s) in H. congruence.
    + rewrite grant_unfold.
      match goal with
      | |- NoDup (map _ (World.asteroids (World.emit ?es ?w0))) =>
          change (NoDup (map Sprite.id (World.asteroids w0)))
      end.
      rewrite put_sprite_asteroid_ids. exact Hnd.
Qed.

(** C3. With [can_damage] set, [hurt] on a sprite whose health is at most
    zero is exactly the death transition: [die] is called and the sprite's
    health keeps its value, no damage being subtracted.  On a sprite whose
    health is positive it stores [health - attacker.damage] and calls
    nothing: the log does not change, so no [die] is recorded. *)
Theorem hurt_dies_or_subtracts (self attacker : Sprite.t) (w : World.t) :
  Sprite.can_damage self = true ->
  (Sprite.health self <= 0 ->
     hurt self attacker w = die self attacker w /\
     (exists rest,
        World.log (hurt self attacker w)
        = World.log w ++ EvDie (Sprite.id self) (Sprite.id attacker) :: rest) /\
     (sprite_by_id (Sprite.id self) w = Some self ->
      Sprite.id attacker <> Sprite.id self ->
      NoDup (map Sprite.id (World.asteroids w)) ->
      forall s, sprite_by_id (Sprite.id self) (hurt self attacker w) = Some s ->
                Sprite.health s = Sprite.health self)) /\
  (0 < Sprite.health self ->
     hurt self attacker w
     = put_sprite
         (Sprite.set_health (Sprite.health self - Sprite.damage attacker) self) w /\
     World.log (hurt self attacker w) = World.log w /\
     (sprite_by_id (Sprite.id self) w = Some self ->
      exists s, sprite_by_id (Sprite.id self) (hurt self attacker w) = Some s /\
                Sprite.health s = Sprite.health self - Sprite.damage attacker)).
Proof.
  intros Hcd. unfold hurt. rewrite Hcd. simpl. split; intros Hh.
  - apply Z.leb_le in Hh. rewrite Hh. split; [reflexivity|]. split.
    + apply die_log.
    + intros Hlive Hne Hnd s Hs.
      apply (die_keeps_self _ _ _ Hlive Hne Hnd) in Hs. subst s. reflexivity.
  - assert (Hh' : (Sprite.health self <=? 0) = false) by (apply Z.leb_gt; lia).
    rewrite Hh'. split; [reflexivity|]. split; [apply put_sprite_log|].
    intros Hlive. eexists. split.
    + apply (sprite_by_id_put
               (Sprite.set_health (Sprite.health self - Sprite.damage attacker)
                  self) self w Hlive).
    + reflexivity.
Qed.

(** ** What damage leaves alone *)

Lemma same_settings_refl (w : World.t) : same_settings w w.
Proof. constructor; reflexivity. Qed.

Lemma same_settings_trans (w1 w2 w3 : World.t) :
  same_settings w1 w2 -> same_settings w2 w3 -> same_settings w1 w3.
Proof.
  intros [a1 a2 a3 a4 a5] [b1 b2 b3 b4 b5].
  constructor; congruence.
Qed.

Lemma same_stage_refl (w : World.t) : same_stage w w.
Proof. constructor; try reflexivity. apply incl_refl. Qed.

Lemma same_stage_trans (w1 w2 w3 : World.t) :
  same_stage w1 w2 -> same_stage w2 w3 -> same_stage w1 w3.
Proof.
  intros [a1 a2 a3] [b1 b2 b3].
  constructor; try congruence. eapply incl_tran; eassumption.
Qed.

Lemma same_stage_distinct (w w' : World.t) :
  same_stage w w' -> distinct_ids w -> distinct_ids w'.
Proof.
  intros [Hid _ Hincl] Hd a' Hin.
  assert (Hi : In (Sprite.id a') (map Sprite.id (World.asteroids w)))
    by (apply Hincl, in_map, Hin).
  apply in_map_iff in Hi. destruct Hi as [a [Ha Hina]].
  rewrite Hid, <- Ha. apply Hd. exact Hina.
Qed.

Lemma distinct_current (a : Sprite.t) (w : World.t) :
  distinct_ids w -> In a (World.asteroids w) -> current a w.
Proof. intros Hd Hin Heq. exfalso. exact (Hd a Hin Heq). Qed.

Lemma current_ship (w : World.t) : current (World.ship w) w.
Proof. intros _. reflexivity. Qed.

Lemma incl_remove_sprite (i : nat) (l : list Sprite.t) :
  incl (map Sprite.id (remove_sprite i l)) (map Sprite.id l).
Proof.
  induction l as [|a l IH]; simpl; [apply incl_refl|].
  destruct (Nat.eqb (Sprite.id a) i); simpl.
  - apply incl_tl, incl_refl.
  - apply incl_cons; [left; reflexivity|apply incl_tl, IH].
Qed.

Lemma put_sprite_outside (s : Sprite.t) (w : World.t) :
  World.controller (put_sprite s w) = World.controller w /\
  World.display_width (put_sprite s w) = World.display_width w /\
  World.display_height (put_sprite s w) = World.display_height w.
Proof.
  unfold put_sprite.
  destruct (Nat.eqb (Sprite.id s) (Sprite.id (World.ship w)));
    repeat split; reflexivity.
Qed.

Lemma put_sprite_same_stage (s : Sprite.t) (w : World.t) :
  (Sprite.id s = Sprite.id (World.ship w) ->
   Sprite.image s = Sprite.image (World.ship w)) ->
  same_stage w (put_sprite s w).
Proof.
  intros Himg. constructor.
  - apply put_sprite_ship_id.
  - unfold put_sprite.
    destruct (Nat.eqb (Sprite.id s) (Sprite.id (World.ship w))) eqn:E;
      [apply Nat.eqb_eq in E; simpl; auto|reflexivity].
  - rewrite put_sprite_asteroid_ids. apply incl_refl.
Qed.

Lemma grant_outside (s : Sprite.t) (o : option Attachment) (w : World.t) :
  World.controller (grant s o w) = World.controller w /\
  World.display_width (grant s o w) = World.display_width w /\
  World.display_height (grant s o w) = World.display_height w.
Proof. rewrite grant_unfold. simpl. apply put_sprite_outside. Qed.

Lemma grant_same_stage (s : Sprite.t) (o : option Attachment) (w : World.t) :
  current s w -> same_stage w (grant s o w).
Proof.
  intros Hc. rewrite grant_unfold.
  destruct (put_sprite_same_stage (fst (attachment_setter s o)) w) as [a1 a2 a3].
  - rewrite attachment_setter_id, attachment_setter_image.
    intros E. rewrite (Hc E). reflexivity.
  - constructor; assumption.
Qed.

Lemma die_outside (self killer : Sprite.t) (w : World.t) :
  World.controller (die self killer w) = World.controller w /\
  World.display_width (die self killer w) = World.display_width w /\
  World.display_height (die self killer w) = World.display_height w.
Proof.
  unfold die. destruct (Sprite.cls self); simpl;
    try (repeat split; reflexivity).
  match goal with
  | |- context [grant ?s ?o ?w0] =>
      destruct (grant_outside s o w0) as [a1 [a2 a3]]
  end.
  rewrite a1, a2, a3. repeat split; reflexivity.
Qed.

Lemma die_same_stage (self killer : Sprite.t) (w : World.t) :
  current killer w -> same_stage w (die self killer w).
Proof.
  intros Hc. unfold die. destruct (Sprite.cls self).
  - constructor; try reflexivity. apply incl_refl.
  - constructor; try reflexivity. apply incl_refl.
  - constructor; try reflexivity. simpl. apply incl_remove_sprite.
  - match goal with
    | |- context [grant ?s ?o ?w0] =>
        destruct (grant_same_stage s o w0 Hc) as [a1 a2 a3]
    end.
    constructor; simpl in *; try assumption.
    eapply incl_tran; [apply incl_remove_sprite|exact a3].
Qed.

Lemma hurt_outside (self attacker : Sprite.t) (w : World.t) :
  World.controller (hurt self attacker w) = World.controller w /\
  World.display_width (hurt self attacker w) = World.display_width w /\
  World.display_height (hurt self attacker w) = World.display_height w.
Proof.
  unfold hurt. destruct (negb (Sprite.can_damage self));
    [repeat split; reflexivity|].
  destruct (Sprite.health self <=? 0);
    [apply die_outside|apply put_sprite_outside].
Qed.

Lemma hurt_same_stage (self attacker : Sprite.t) (w : World.t) :
  current self w -> current attacker w -> same_stage w (hurt self attacker w).
Proof.
  intros Hs Ha. unfold hurt. destruct (negb (Sprite.can_damage self));
    [apply same_stage_refl|].
  destruct (Sprite.health self <=? 0); [apply die_same_stage, Ha|].
  apply put_sprite_same_stage. simpl. intros E. rewrite (Hs E). reflexivity.
Qed.

(** ** What the pass over the projectiles leaves alone *)

Lemma check_projectile_collisions_in_outside (l : list Sprite.t)
  (p : Projectile) (w : World.t) :
  World.controller (snd (check_projectile_collisions_in l p w))
  = World.controller w /\
  World.display_width (snd (check_projectile_collisions_in l p w))
  = World.display_width w /\
  World.display_height (snd (check_projectile_collisions_in l p w))
  = World.display_height w.
Proof.
  induction l as [|a l IH]; simpl; [repeat split; reflexivity|].
  destruct (collide_point (pimage p) (Sprite.image a)); simpl;
    [apply hurt_outside|exact IH].
Qed.

Lemma check_projectile_collisions_in_same_stage (l : list Sprite.t)
  (p : Projectile) (w : World.t) :
  (forall a, In a l -> current a w) ->
  same_stage w (snd (check_projectile_collisions_in l p w)).
Proof.
  induction l as [|a l IH]; simpl; intros Hc; [apply same_stage_refl|].
  destruct (collide_point (pimage p) (Sprite.image a)); simpl.
  - apply hurt_same_stage; [apply Hc; left; reflexivity|apply current_ship].
  - apply IH. intros b Hb. apply Hc. right. exact Hb.
Qed.

Lemma check_projectile_collisions_outside (p : Projectile) (w : World.t) :
  World.controller (snd (check_projectile_collisions p w)) = World.controller w /\
  World.display_width (snd (check_projectile_collisions p w))
  = World.display_width w /\
  World.display_height (snd (check_projectile_collisions p w))
  = World.display_height w.
Proof.
  unfold check_projectile_collisions.
  apply (check_projectile_collisions_in_outside (World.asteroids w) p
           (World.emit [EvCollisionTest (pid p)] w)).
Qed.

Lemma check_projectile_collisions_same_stage (p : Projectile) (w : World.t) :
  distinct_ids w -> same_stage w (snd (check_projectile_collisions p w)).
Proof.
  intros Hd. unfold check_projectile_collisions.
  apply (same_stage_trans w (World.emit [EvCollisionTest (pid p)] w)).
  - constructor; try reflexivity. apply incl_refl.
  - apply check_projectile_collisions_in_same_stage.
    intros a Ha. apply (distinct_current a w Hd Ha).
Qed.

Lemma length_remove_projectile (i : nat) (l : list Projectile) :
  (length (remove_projectile i l) <= length l)%nat.
Proof.
  induction l as [|q l IH]; simpl; [lia|].
  destruct (Nat.eqb (pid q) i); simpl; lia.
Qed.

Lemma length_move_projectile_at (i : nat) (dy : Q) (l : list Projectile) :
  length (move_projectile_at i dy l) = length l.
Proof.
  revert i. induction l as [|q l IH]; intros [|i]; simpl; try reflexivity.
  rewrite IH. reflexivity.
Qed.

Lemma update_projectile_settings (i : nat) (p : Projectile) (w : World.t) :
  same_settings w (update_projectile i p w).
Proof.
  unfold update_projectile.
  destruct (Qle_bool (Image.y (pimage p)) 0);
    [constructor; reflexivity|].
  destruct (check_projectile_collisions p w) as [hit w1] eqn:E.
  destruct (check_projectile_collisions_outside p w) as [a1 [a2 a3]].
  rewrite E in a1, a2, a3. simpl in a1, a2, a3.
  destruct hit; constructor; simpl; rewrite ?a1, ?a2, ?a3; reflexivity.
Qed.

Lemma update_projectile_same_stage (i : nat) (p : Projectile) (w : World.t) :
  distinct_ids w -> same_stage w (update_projectile i p w).
Proof.
  intros Hd. unfold update_projectile.
  destruct (Qle_bool (Image.y (pimage p)) 0);
    [constructor; try reflexivity; apply incl_refl|].
  destruct (check_projectile_collisions p w) as [hit w1] eqn:E.
  destruct (check_projectile_collisions_same_stage p w Hd) as [a1 a2 a3].
  rewrite E in a1, a2, a3. simpl in a1, a2, a3.
  destruct hit; constructor; simpl; assumption.
Qed.

Lemma update_projectile_length (i : nat) (p : Projectile) (w : World.t) :
  (length (projectiles (update_projectile i p w)) <= length (projectiles w))%nat.
Proof.
  unfold update_projectile.
  destruct (Qle_bool (Image.y (pimage p)) 0);
    [apply length_remove_projectile|].
  destruct (check_projectile_collisions p w) as [hit w1] eqn:E.
  destruct (check_projectile_collisions_outside p w) as [a1 _].
  rewrite E in a1. simpl in a1.
  assert (Hp : projectiles w1 = projectiles w)
    by (unfold projectiles; rewrite a1; reflexivity).
  destruct hit.
  - unfold destroy_projectile, projectiles in *. simpl. rewrite Hp.
    apply length_remove_projectile.
  - unfold projectiles in *. simpl. rewrite length_move_projectile_at, Hp. lia.
Qed.

Lemma update_projectiles_from_settings (fuel i : nat) (w : World.t) :
  same_settings w (update_projectiles_from fuel i w).
Proof.
  revert i w. induction fuel as [|fuel IH]; intros i w; simpl;
    [apply same_settings_refl|].
  destruct (nth_error (projectiles w) i) as [p|]; [|apply same_settings_refl].
  eapply same_settings_trans; [apply update_projectile_settings|apply IH].
Qed.

Lemma update_projectiles_from_same_stage (fuel i : nat) (w : World.t) :
  distinct_ids w -> same_stage w (update_projectiles_from fuel i w).
Proof.
  revert i w. induction fuel as [|fuel IH]; intros i w Hd; simpl;
    [apply same_stage_refl|].
  destruct (nth_error (projectiles w) i) as [p|]; [|apply same_stage_refl].
  pose proof (update_projectile_same_stage i p w Hd) as Hs.
  eapply same_stage_trans; [exact Hs|].
  apply IH. eapply same_stage_distinct; eassumption.
Qed.

Lemma update_projectiles_from_length (fuel i : nat) (w : World.t) :
  (length (projectiles (update_projectiles_from fuel i w))
   <= length (projectiles w))%nat.
Proof.
  revert i w. induction fuel as [|fuel IH]; intros i w; simpl; [lia|].
  destruct (nth_error (projectiles w) i) as [p|]; [|lia].
  pose proof (update_projectile_length i p w).
  pose proof (IH (S i) (update_projectile i p w)). lia.
Qed.

(** The fuel of the loop is never what stops it: with the length of the list
    at entry, the loop ends because the index passed the end of the list, and
    more fuel changes nothing. *)
Lemma update_projectiles_from_fuel (fuel i : nat) (w : World.t) :
  (length (projectiles w) - i <= fuel)%nat ->
  update_projectiles_from (S fuel) i w = update_projectiles_from fuel i w.
Proof.
  revert i w. induction fuel as [|fuel IH]; intros i w Hlen.
  - simpl. destruct (nth_error (projectiles w) i) as [p|] eqn:E; [|reflexivity].
    assert (i < length (projectiles w))%nat
      by (apply nth_error_Some; congruence). lia.
  - change (match nth_error (projectiles w) i with
            | Some p => update_projectiles_from (S fuel) (S i)
                          (update_projectile i p w)
            | None => w
            end
            = match nth_error (projectiles w) i with
              | Some p => update_projectiles_from fuel (S i)
                            (update_projectile i p w)
              | None => w
              end).
    destruct (nth_error (projectiles w) i) as [p|] eqn:E; [|reflexivity].
    apply IH. pose proof (update_projectile_length i p w). lia.
Qed.

(** ** What the collision with the player leaves alone *)

Lemma check_player_collisions_in_outside (l : list Sprite.t) (w : World.t) :
  World.controller (check_player_collisions_in l w) = World.controller w /\
  World.display_width (check_player_collisions_in l w) = World.display_width w /\
  World.display_height (check_player_collisions_in l w)
  = World.display_height w.
Proof.
  induction l as [|a l IH]; simpl; [repeat split; reflexivity|].
  destruct (collide_point (Sprite.image a) (Sprite.image (World.ship w)));
    [apply hurt_outside|exact IH].
Qed.

Lemma check_player_collisions_in_same_stage (l : list Sprite.t) (w : World.t) :
  (forall a, In a l -> current a w) ->
  same_stage w (check_player_collisions_in l w).
Proof.
  induction l as [|a l IH]; simpl; intros Hc; [apply same_stage_refl|].
  destruct (collide_point (Sprite.image a) (Sprite.image (World.ship w))).
  - apply hurt_same_stage; [apply current_ship|apply Hc; left; reflexivity].
  - apply IH. intros b Hb. apply Hc. right. exact Hb.
Qed.

(** ** The movement of the ship *)

Lemma Qle_bool_false (a b : Q) : Qle_bool a b = false -> (b < a)%Q.
Proof.
  intros H. destruct (Qlt_le_dec b a) as [Hlt | Hle]; [exact Hlt|].
  apply Qle_bool_iff in Hle. congruence.
Qed.

Lemma guard_true (b : bool) (x y : Q) :
  b && negb (Qle_bool x y) = true -> b = true /\ (y < x)%Q.
Proof.
  intros H. apply andb_true_iff in H. destruct H as [Hb Hn].
  split; [exact Hb|]. apply Qle_bool_false. apply negb_true_iff. exact Hn.
Qed.

Lemma sprite_controller_move_outside (w : World.t) :
  World.controller (sprite_controller_move w) = World.controller w /\
  World.display_width (sprite_controller_move w) = World.display_width w /\
  World.display_height (sprite_controller_move w) = World.display_height w /\
  World.asteroids (sprite_controller_move w) = World.asteroids w /\
  Sprite.id (World.ship (sprite_controller_move w)) = Sprite.id (World.ship w) /\
  Sprite.image (World.ship (sprite_controller_move w))
  = Sprite.image (World.ship w).
Proof.
  unfold sprite_controller_move.
  destruct (Sprite._attachment (World.ship w)) as [a|];
    [destruct (att_image a)|]; repeat split; reflexivity.
Qed.

Lemma backs_up_pre (w : World.t) :
  backs_up (move_distance (sprite_controller_move w)) = backs_up w.
Proof.
  destruct (sprite_controller_move_outside w) as [a1 [a2 [a3 [a4 [a5 a6]]]]].
  unfold backs_up, move_distance, set_current_distance. simpl.
  rewrite a1, a3, a6. reflexivity.
Qed.

Lemma move_vertical_distance (w : World.t) :
  Controller.current_distance (World.controller (move_vertical w))
  = Controller.current_distance (World.controller w)
    - (if backs_up w then Controller.speed (World.controller w) / 2 else 0).
Proof.
  unfold move_vertical, backs_up.
  destruct (Controller.moving_forward (World.controller w)
            && negb (Qle_bool
                       (Image.y (Sprite.image (World.ship w))
                        - inject_Z (Image.height (Sprite.image (World.ship w)) / 2))
                       0)); simpl; [lia|].
  destruct (Controller.moving_backward (World.controller w)
            && negb (Qle_bool (inject_Z (World.display_height w))
                       (Image.y (Sprite.image (World.ship w))
                        + inject_Z (Image.height (Sprite.image (World.ship w)) / 2))));
    simpl; lia.
Qed.

Lemma move_vertical_backs_up (w : World.t) :
  backs_up w = true ->
  Image.y (Sprite.image (World.ship (move_vertical w)))
  = (Image.y (Sprite.image (World.ship w))
     + inject_Z (Controller.speed (World.controller w) / 2))%Q.
Proof.
  unfold move_vertical, backs_up. intros H.
  apply andb_true_iff in H. destruct H as [H1 H2].
  apply negb_true_iff in H1. rewrite H1, H2. reflexivity.
Qed.

Lemma move_vertical_stays (w : World.t) :
  backs_up w = false ->
  Controller.moving_forward (World.controller w) = false ->
  move_vertical w = w.
Proof.
  unfold move_vertical, backs_up. intros H Hf. rewrite Hf in *. simpl in *.
  rewrite H. reflexivity.
Qed.

Lemma move_horizontal_settings (w : World.t) :
  same_settings w (move_horizontal w).
Proof.
  unfold move_horizontal.
  repeat match goal with
         | |- context [if ?b then _ else _] => destruct b
         end; constructor; reflexivity.
Qed.

Lemma move_horizontal_y (w : World.t) :
  Image.y (Sprite.image (World.ship (move_horizontal w)))
  = Image.y (Sprite.image (World.ship w)).
Proof.
  unfold move_horizontal.
  repeat match goal with
         | |- context [if ?b then _ else _] => destruct b
         end; reflexivity.
Qed.

Lemma fire_projectile_settings (w : World.t) :
  same_settings w (fire_projectile w).
Proof.
  unfold fire_projectile.
  destruct (Controller.fire_sound (World.controller w));
    constructor; reflexivity.
Qed.

Lemma fire_projectile_same_stage (w : World.t) :
  same_stage w (fire_projectile w).
Proof.
  unfold fire_projectile.
  destruct (Controller.fire_sound (World.controller w));
    constructor; try reflexivity; apply incl_refl.
Qed.

Lemma move_fire_settings (w : World.t) : same_settings w (move_fire w).
Proof.
  unfold move_fire.
  destruct (Controller.firing (World.controller w)
            && (Z.of_nat (length (Controller.projectiles (World.controller w)))
                <? Controller.maximum_projectiles (World.controller w)));
    [apply fire_projectile_settings|apply same_settings_refl].
Qed.

Lemma move_fire_same_stage (w : World.t) : same_stage w (move_fire w).
Proof.
  unfold move_fire.
  destruct (Controller.firing (World.controller w)
            && (Z.of_nat (length (Controller.projectiles (World.controller w)))
                <? Controller.maximum_projectiles (World.controller w)));
    [apply fire_projectile_same_stage|apply same_stage_refl].
Qed.

Lemma check_player_collisions_settings (w : World.t) :
  same_settings w (check_player_collisions w).
Proof.
  destruct (check_player_collisions_in_outside (World.asteroids w) w)
    as [a1 [a2 a3]].
  unfold check_player_collisions. constructor; rewrite ?a1; auto.
Qed.

Lemma check_player_collisions_same_stage (w : World.t) :
  distinct_ids w -> same_stage w (check_player_collisions w).
Proof.
  intros Hd. apply check_player_collisions_in_same_stage.
  intros a Ha. apply (distinct_current a w Hd Ha).
Qed.

Lemma move_unfold (w : World.t) :
  move w
  = move_rest
      (move_horizontal (move_vertical (move_distance (sprite_controller_move w)))).
Proof. reflexivity. Qed.

Lemma move_rest_settings (w : World.t) : same_settings w (move_rest w).
Proof.
  unfold move_rest.
  eapply same_settings_trans; [apply move_fire_settings|].
  eapply same_settings_trans;
    [apply update_projectiles_from_settings|apply check_player_collisions_settings].
Qed.

Lemma move_rest_same_stage (w : World.t) :
  distinct_ids w -> same_stage w (move_rest w).
Proof.
  intros Hd. unfold move_rest.
  pose proof (move_fire_same_stage w) as H1.
  pose proof (same_stage_distinct _ _ H1 Hd) as Hd1.
  pose proof (update_projectiles_from_same_stage
                (length (projectiles (move_fire w))) 0 (move_fire w) Hd1) as H2.
  pose proof (same_stage_distinct _ _ H2 Hd1) as Hd2.
  eapply same_stage_trans; [exact H1|].
  eapply same_stage_trans; [exact H2|].
  apply check_player_collisions_same_stage. exact Hd2.
Qed.

(** C9, as the code has it.  Every call of [move] adds [speed] to
    [current_distance], whether or not the ship moves on the forward/back
    axis; when the backward branch is taken, [speed / 2] (integer division)
    is taken off again and the ship moves down by that same [speed / 2].  So
    the counter grows by [speed] on a frame with forward motion or with no
    motion at all, and by [speed - speed / 2] on a frame with back motion. *)
Theorem distance_grows_on_every_move (w : World.t) :
  Controller.current_distance (World.controller (move w))
  = Controller.current_distance (World.controller w)
    + Controller.speed (World.controller w)
    - (if backs_up w then Controller.speed (World.controller w) / 2 else 0) /\
  (distinct_ids w -> backs_up w = true ->
   Image.y (Sprite.image (World.ship (move w)))
   = (Image.y (Sprite.image (World.ship w))
      + inject_Z (Controller.speed (World.controller w) / 2))%Q).
Proof.
  destruct (sprite_controller_move_outside w) as [a1 [a2 [a3 [a4 [a5 a6]]]]].
  set (w2 := move_distance (sprite_controller_move w)).
  assert (Hb : backs_up w2 = backs_up w) by apply backs_up_pre.
  assert (Hc : Controller.current_distance (World.controller w2)
               = Controller.current_distance (World.controller w)
                 + Controller.speed (World.controller w))
    by (unfold w2, move_distance; simpl; rewrite a1; reflexivity).
  assert (Hs : Controller.speed (World.controller w2)
               = Controller.speed (World.controller w))
    by (unfold w2, move_distance; simpl; rewrite a1; reflexivity).
  split.
  - rewrite move_unfold. fold w2.
    rewrite (same_distance _ _ (move_rest_settings _)).
    rewrite (same_distance _ _ (move_horizontal_settings _)).
    rewrite move_vertical_distance, Hb, Hc, Hs. reflexivity.
  - intros Hd Hback. rewrite move_unfold. fold w2.
    assert (Hd3 : distinct_ids (move_horizontal (move_vertical w2))).
    { intros a Ha.
      assert (Ea : World.asteroids (move_horizontal (move_vertical w2))
                   = World.asteroids w).
      { rewrite <- a4. unfold move_horizontal, move_vertical, w2.
        repeat match goal with
               | |- context [if ?b then _ else _] => destruct b
               end; reflexivity. }
      assert (Ei : Sprite.id (World.ship (move_horizontal (move_vertical w2)))
                   = Sprite.id (World.ship w)).
      { rewrite <- a5. unfold move_horizontal, move_vertical, w2.
        repeat match goal with
               | |- context [if ?b then _ else _] => destruct b
               end; reflexivity. }
      rewrite Ei. apply Hd. rewrite <- Ea. exact Ha. }
    rewrite (same_ship_image _ _ (move_rest_same_stage _ Hd3)).
    rewrite move_horizontal_y.
    rewrite move_vertical_backs_up by (rewrite Hb; exact Hback).
    rewrite Hs. unfold w2, move_distance. simpl. rewrite a6. reflexivity.
Qed.

(** ** The play area *)

Lemma inject_Z_nonneg (z : Z) : 0 <= z -> (0 <= inject_Z z)%Q.
Proof. intros H. change (inject_Z 0 <= inject_Z z)%Q. rewrite <- Zle_Qle. exact H. Qed.

Lemma within_one_step_ext (w w' : World.t) :
  Controller.speed (World.controller w') = Controller.speed (World.controller w) ->
  World.display_width w' = World.display_width w ->
  World.display_height w' = World.display_height w ->
  Sprite.image (World.ship w') = Sprite.image (World.ship w) ->
  within_one_step w -> within_one_step w'.
Proof.
  intros Hs Hw Hh Hi.
  unfold within_one_step, top_edge, bottom_edge, left_edge, right_edge.
  rewrite Hs, Hw, Hh, Hi. trivial.
Qed.

Lemma move_vertical_within (w : World.t) :
  0 <= Controller.speed (World.controller w) ->
  within_one_step w -> within_one_step (move_vertical w).
Proof.
  intros Hs Hin.
  pose proof (inject_Z_nonneg _ Hs) as Hq.
  pose proof (inject_Z_nonneg _ (Z.div_pos _ 2 Hs ltac:(lia))) as Hq2.
  unfold move_vertical.
  destruct (Controller.moving_forward (World.controller w)
            && negb (Qle_bool
                       (Image.y (Sprite.image (World.ship w))
                        - inject_Z (Image.height (Sprite.image (World.ship w)) / 2))
                       0)) eqn:E1.
  - apply guard_true in E1. destruct E1 as [_ Hlt].
    unfold within_one_step, top_edge, bottom_edge, left_edge, right_edge in *.
    simpl. destruct Hin as [T [B [L R]]]. repeat split; try assumption; lra.
  - destruct (Controller.moving_backward (World.controller w)
              && negb (Qle_bool (inject_Z (World.display_height w))
                         (Image.y (Sprite.image (World.ship w))
                          + inject_Z
                              (Image.height (Sprite.image (World.ship w)) / 2))))
      eqn:E2; [|exact Hin].
    apply guard_true in E2. destruct E2 as [_ Hlt].
    unfold within_one_step, top_edge, bottom_edge, left_edge, right_edge in *.
    simpl. destruct Hin as [T [B [L R]]]. repeat split; try assumption; lra.
Qed.

Lemma move_horizontal_within (w : World.t) :
  0 <= Controller.speed (World.controller w) ->
  within_one_step w -> within_one_step (move_horizontal w).
Proof.
  intros Hs Hin.
  pose proof (inject_Z_nonneg _ Hs) as Hq.
  unfold move_horizontal.
  destruct (Controller.moving_right (World.controller w)
            && negb (Qle_bool (inject_Z (World.display_width w))
                       (Image.x (Sprite.image (World.ship w))
                        + inject_Z
                            (Image.width (Sprite.image (World.ship w)) / 2))))
    eqn:E1.
  - apply guard_true in E1. destruct E1 as [_ Hlt].
    unfold within_one_step, top_edge, bottom_edge, left_edge, right_edge in *.
    simpl. destruct Hin as [T [B [L R]]]. repeat split; try assumption; lra.
  - destruct (Controller.moving_left (World.controller w)
              && negb (Qle_bool
                         (Image.x (Sprite.image (World.ship w))
                          - inject_Z
                              (Image.width (Sprite.image (World.ship w)) / 2))
                         0)) eqn:E2; [|exact Hin].
    apply guard_true in E2. destruct E2 as [_ Hlt].
    unfold within_one_step, top_edge, bottom_edge, left_edge, right_edge in *.
    simpl. destruct Hin as [T [B [L R]]]. repeat split; try assumption; lra.
Qed.

(** The two movement steps of [move], with the bookkeeping before them. *)
Lemma move_motion_outside (w : World.t) :
  let w' := move_horizontal
              (move_vertical (move_distance (sprite_controller_move w))) in
  World.asteroids w' = World.asteroids w /\
  Sprite.id (World.ship w') = Sprite.id (World.ship w) /\
  projectiles w' = projectiles w /\
  Controller.speed (World.controller w') = Controller.speed (World.controller w) /\
  Controller.maximum_projectiles (World.controller w')
  = Controller.maximum_projectiles (World.controller w) /\
  Controller.firing (World.controller w')
  = Controller.firing (World.controller w).
Proof.
  destruct (sprite_controller_move_outside w) as [a1 [a2 [a3 [a4 [a5 a6]]]]].
  simpl. unfold projectiles. rewrite <- a1, <- a4, <- a5.
  generalize (sprite_controller_move w). intros w1.
  unfold move_horizontal, move_vertical, move_distance.
  repeat match goal with
         | |- context [if ?b then _ else _] => destruct b
         end; repeat split; reflexivity.
Qed.

Lemma move_motion_within (w : World.t) :
  0 <= Controller.speed (World.controller w) ->
  within_one_step w ->
  within_one_step
    (move_horizontal (move_vertical (move_distance (sprite_controller_move w)))).
Proof.
  intros Hs Hin.
  destruct (sprite_controller_move_outside w) as [a1 [a2 [a3 [a4 [a5 a6]]]]].
  assert (H2 : within_one_step (move_distance (sprite_controller_move w))).
  { apply (within_one_step_ext w); try assumption.
    unfold move_distance. simpl. rewrite a1. reflexivity. }
  assert (Hs2 : 0 <= Controller.speed
                       (World.controller
                          (move_distance (sprite_controller_move w))))
    by (unfold move_distance; simpl; rewrite a1; exact Hs).
  apply move_horizontal_within.
  - unfold move_vertical.
    repeat match goal with
           | |- context [if ?b then _ else _] => destruct b
           end; exact Hs2.
  - apply move_vertical_within; assumption.
Qed.

Lemma move_within (w : World.t) :
  distinct_ids w ->
  0 <= Controller.speed (World.controller w) ->
  within_one_step w ->
  distinct_ids (move w) /\
  Controller.speed (World.controller (move w))
  = Controller.speed (World.controller w) /\
  within_one_step (move w).
Proof.
  intros Hd Hs Hin. rewrite move_unfold.
  set (w3 := move_horizontal
               (move_vertical (move_distance (sprite_controller_move w)))).
  destruct (move_motion_outside w) as [b1 [b2 [b3 [b4 [b5 b6]]]]].
  fold w3 in b1, b2, b3, b4, b5, b6.
  assert (Hd3 : distinct_ids w3).
  { intros a Ha. rewrite b2. apply Hd. rewrite <- b1. exact Ha. }
  pose proof (move_rest_same_stage w3 Hd3) as St.
  pose proof (move_rest_settings w3) as Se.
  split; [eapply same_stage_distinct; eassumption|].
  split; [rewrite (same_speed _ _ Se); exact b4|].
  apply (within_one_step_ext w3).
  - apply (same_speed _ _ Se).
  - apply (same_width _ _ Se).
  - apply (same_height _ _ Se).
  - apply (same_ship_image _ _ St).
  - apply move_motion_within; assumption.
Qed.

Lemma in_play_area_within (w : World.t) :
  2 <= Controller.speed (World.controller w) ->
  in_play_area w -> within_one_step w.
Proof.
  intros Hs [T [B [L R]]].
  assert (H1 : (0 < inject_Z (Controller.speed (World.controller w)))%Q)
    by (change (inject_Z 0 < inject_Z (Controller.speed (World.controller w)))%Q;
        rewrite <- Zlt_Qlt; lia).
  assert (H2 : (0 < inject_Z (Controller.speed (World.controller w) / 2))%Q).
  { change (inject_Z 0 < inject_Z (Controller.speed (World.controller w) / 2))%Q.
    rewrite <- Zlt_Qlt. apply Z.div_str_pos. lia. }
  unfold within_one_step. repeat split; lra.
Qed.

(** ** Where [move] puts the ship *)

Lemma Qle_bool_lt_false (a b : Q) : (b < a)%Q -> Qle_bool a b = false.
Proof.
  intros H. destruct (Qle_bool a b) eqn:E; [|reflexivity].
  apply Qle_bool_iff in E. exfalso. apply (Qlt_not_le _ _ H E).
Qed.

Lemma Qle_bool_le_true (a b : Q) : (a <= b)%Q -> Qle_bool a b = true.
Proof. intros H. apply Qle_bool_iff. exact H. Qed.

Lemma move_vertical_inputs (w w' : World.t) :
  same_motion_inputs w w' ->
  same_motion_inputs (move_vertical w) (move_vertical w').
Proof.
  intros [a1 a2 a3 a4 a5 a6 a7 a8]. unfold move_vertical.
  rewrite a1, a2, a5, a7, a8.
  repeat match goal with
         | |- context [if ?b then _ else _] => destruct b
         end; constructor; simpl; try assumption; try reflexivity.
Qed.

Lemma move_horizontal_image (w w' : World.t) :
  same_motion_inputs w w' ->
  Sprite.image (World.ship (move_horizontal w'))
  = Sprite.image (World.ship (move_horizontal w)).
Proof.
  intros [a1 a2 a3 a4 a5 a6 a7 a8]. unfold move_horizontal.
  rewrite a3, a4, a5, a6, a8.
  repeat match goal with
         | |- context [if ?b then _ else _] => destruct b
         end; simpl; rewrite ?a8; reflexivity.
Qed.

(** The ship's image after [move] is its image after the two movement
    steps: nothing that follows them touches it. *)
Lemma move_image (w : World.t) :
  distinct_ids w ->
  Sprite.image (World.ship (move w))
  = Sprite.image (World.ship (move_horizontal (move_vertical w))).
Proof.
  intros Hd. rewrite move_unfold.
  set (w2 := move_distance (sprite_controller_move w)).
  destruct (sprite_controller_move_outside w) as [a1 [a2 [a3 [a4 [a5 a6]]]]].
  destruct (move_motion_outside w) as [b1 [b2 _]]. fold w2 in b1, b2.
  assert (Hd3 : distinct_ids (move_horizontal (move_vertical w2))).
  { intros a Ha. rewrite b2. apply Hd. rewrite <- b1. exact Ha. }
  rewrite (same_ship_image _ _ (move_rest_same_stage _ Hd3)).
  apply move_horizontal_image. apply move_vertical_inputs.
  unfold w2, move_distance. constructor; simpl; rewrite ?a1; auto.
Qed.

Lemma move_horizontal_x (w : World.t) :
  Image.y (Sprite.image (World.ship (move_horizontal w)))
  = Image.y (Sprite.image (World.ship w)) /\
  Image.width (Sprite.image (World.ship (move_horizontal w)))
  = Image.width (Sprite.image (World.ship w)) /\
  Image.height (Sprite.image (World.ship (move_horizontal w)))
  = Image.height (Sprite.image (World.ship w)).
Proof.
  unfold move_horizontal.
  repeat match goal with
         | |- context [if ?b then _ else _] => destruct b
         end; repeat split; reflexivity.
Qed.

Lemma move_vertical_same_motion_x (w : World.t) :
  Controller.moving_right (World.controller (move_vertical w))
  = Controller.moving_right (World.controller w) /\
  Controller.moving_left (World.controller (move_vertical w))
  = Controller.moving_left (World.controller w) /\
  Controller.speed (World.controller (move_vertical w))
  = Controller.speed (World.controller w) /\
  World.display_width (move_vertical w) = World.display_width w /\
  Image.x (Sprite.image (World.ship (move_vertical w)))
  = Image.x (Sprite.image (World.ship w)) /\
  Image.width (Sprite.image (World.ship (move_vertical w)))
  = Image.width (Sprite.image (World.ship w)) /\
  Image.height (Sprite.image (World.ship (move_vertical w)))
  = Image.height (Sprite.image (World.ship w)).
Proof.
  unfold move_vertical.
  repeat match goal with
         | |- context [if ?b then _ else _] => destruct b
         end; repeat split; reflexivity.
Qed.

(** C6, as the code has it.  The guards of [move] stop a motion only once
    the edge has reached or passed the bound, so the ship can overshoot, but
    by less than one step: from a start inside the play area, after any
    sequence of key events, calls of [move] and changes of the asteroid list,
    the top and left edges stay above [-speed], the right edge below
    [display width + speed] and the bottom edge below
    [display height + speed / 2].  From such a world the next call of [move]
    puts the ship exactly here: up by [speed] when forward is held and the
    top edge is below the top of the display, otherwise down by [speed / 2]
    when backward is held and the bottom edge is above the bottom, otherwise
    at the same [y]; right by [speed] when right is held and the right edge
    is inside the display, otherwise left by [speed] when left is held and
    the left edge is inside, otherwise at the same [x]. *)
Theorem ship_overshoots_by_less_than_one_step (w0 w : World.t) :
  reachable w0 w ->
  distinct_ids w0 ->
  2 <= Controller.speed (World.controller w0) ->
  in_play_area w0 ->
  within_one_step w /\
  let c := World.controller w in
  let img := Sprite.image (World.ship w) in
  let img' := Sprite.image (World.ship (move w)) in
  Image.y img'
  = (if Controller.moving_forward c && negb (Qle_bool (top_edge w) 0)
     then Image.y img - inject_Z (Controller.speed c)
     else if Controller.moving_backward c
             && negb (Qle_bool (inject_Z (World.display_height w))
                        (bottom_edge w))
          then Image.y img + inject_Z (Controller.speed c / 2)
          else Image.y img)%Q /\
  Image.x img'
  = (if Controller.moving_right c
        && negb (Qle_bool (inject_Z (World.display_width w)) (right_edge w))
     then Image.x img + inject_Z (Controller.speed c)
     else if Controller.moving_left c && negb (Qle_bool (left_edge w) 0)
          then Image.x img - inject_Z (Controller.speed c)
          else Image.x img)%Q.
Proof.
  intros Hr Hd Hs Hin.
  assert (Inv : distinct_ids w /\
                Controller.speed (World.controller w)
                = Controller.speed (World.controller w0) /\
                within_one_step w).
  { induction Hr as [|w w' Hr IH Hstep].
    - split; [exact Hd|]. split; [reflexivity|].
      apply in_play_area_within; assumption.
    - destruct IH as [Hd1 [Hs1 Hw1]].
      destruct Hstep as [e w|w|l w Hl].
      + split; [exact Hd1|]. split.
        * rewrite <- Hs1. destruct e as [[] | []]; reflexivity.
        * apply (within_one_step_ext w); try reflexivity; try exact Hw1.
          destruct e as [[] | []]; reflexivity.
      + destruct (move_within w Hd1) as [c1 [c2 c3]];
          [rewrite Hs1; lia|exact Hw1|].
        split; [exact c1|]. split; [congruence|exact c3].
      + split; [exact Hl|]. split; [exact Hs1|exact Hw1]. }
  destruct Inv as [Hdw [_ Hw]]. split; [exact Hw|]. cbv zeta.
  rewrite (move_image w Hdw). split.
  - rewrite (proj1 (move_horizontal_x (move_vertical w))).
    unfold move_vertical, top_edge, bottom_edge.
    destruct (Controller.moving_forward (World.controller w)
              && negb (Qle_bool
                         (Image.y (Sprite.image (World.ship w))
                          - inject_Z (Image.height (Sprite.image (World.ship w)) / 2))
                         0)); [reflexivity|].
    destruct (Controller.moving_backward (World.controller w)
              && negb (Qle_bool (inject_Z (World.display_height w))
                         (Image.y (Sprite.image (World.ship w))
                          + inject_Z
                              (Image.height (Sprite.image (World.ship w)) / 2))));
      reflexivity.
  - destruct (move_vertical_same_motion_x w) as [e1 [e2 [e3 [e4 [e5 [e6 _]]]]]].
    unfold move_horizontal, right_edge, left_edge. rewrite e1, e2, e3, e4, e5, e6.
    destruct (Controller.moving_right (World.controller w)
              && negb (Qle_bool (inject_Z (World.display_width w))
                         (Image.x (Sprite.image (World.ship w))
                          + inject_Z
                              (Image.width (Sprite.image (World.ship w)) / 2))));
      [reflexivity|].
    destruct (Controller.moving_left (World.controller w)
              && negb (Qle_bool
                         (Image.x (Sprite.image (World.ship w))
                          - inject_Z (Image.width (Sprite.image (World.ship w)) / 2))
                         0)); [reflexivity|exact e5].
Qed.

(** ** The cap on the projectiles *)

Lemma move_fire_at_cap (w : World.t) :
  Controller.maximum_projectiles (World.controller w)
  <= Z.of_nat (length (projectiles w)) ->
  move_fire w = w.
Proof.
  intros H. unfold move_fire.
  assert (E : (Z.of_nat (length (Controller.projectiles (World.controller w)))
               <? Controller.maximum_projectiles (World.controller w)) = false)
    by (apply Z.ltb_ge; exact H).
  rewrite E, andb_false_r. reflexivity.
Qed.

Lemma move_fire_length (w : World.t) :
  Z.of_nat (length (projectiles w))
  <= Controller.maximum_projectiles (World.controller w) + 1 ->
  Z.of_nat (length (projectiles (move_fire w)))
  <= Controller.maximum_projectiles (World.controller w) + 1.
Proof.
  intros H. unfold move_fire.
  destruct (Controller.firing (World.controller w)
            && (Z.of_nat (length (Controller.projectiles (World.controller w)))
                <? Controller.maximum_projectiles (World.controller w))) eqn:E;
    [|exact H].
  apply andb_true_iff in E. destruct E as [_ E]. apply Z.ltb_lt in E.
  rewrite fire_projectile_projectiles, length_app. simpl.
  unfold projectiles. lia.
Qed.

Lemma move_length (w : World.t) :
  Z.of_nat (length (projectiles w))
  <= Controller.maximum_projectiles (World.controller w) + 1 ->
  Controller.maximum_projectiles (World.controller (move w))
  = Controller.maximum_projectiles (World.controller w) /\
  Z.of_nat (length (projectiles (move w)))
  <= Controller.maximum_projectiles (World.controller w) + 1.
Proof.
  intros H. rewrite move_unfold.
  set (w3 := move_horizontal
               (move_vertical (move_distance (sprite_controller_move w)))).
  destruct (move_motion_outside w) as [b1 [b2 [b3 [b4 [b5 b6]]]]].
  fold w3 in b1, b2, b3, b4, b5, b6.
  split.
  - rewrite (same_maximum _ _ (move_rest_settings w3)). exact b5.
  - unfold move_rest.
    destruct (check_player_collisions_in_outside
                (World.asteroids (update_projectiles (move_fire w3)))
                (update_projectiles (move_fire w3))) as [c1 _].
    unfold check_player_collisions, projectiles at 1. rewrite c1.
    fold (projectiles (update_projectiles (move_fire w3))).
    pose proof (update_projectiles_from_length
                  (length (projectiles (move_fire w3))) 0 (move_fire w3)) as L1.
    fold (update_projectiles (move_fire w3)) in L1.
    pose proof (move_fire_length w3) as L2.
    rewrite b3, b5 in L2. specialize (L2 H). lia.
Qed.

(** C1, as the code has it.  The guard of [move] compares the count with
    [maximum_projectiles] before a call that adds two projectiles, so the
    count is bounded by the maximum plus one (16 for the maximum of 15), in
    every world reached by key events, calls of [move] and changes of the
    asteroid list; and with the count at or above the maximum the firing step
    of [move] changes nothing. *)
Theorem projectiles_bounded_by_maximum_plus_one (w0 w : World.t) :
  reachable w0 w ->
  Z.of_nat (length (projectiles w0))
  <= Controller.maximum_projectiles (World.controller w0) + 1 ->
  Controller.maximum_projectiles (World.controller w)
  = Controller.maximum_projectiles (World.controller w0) /\
  Z.of_nat (length (projectiles w))
  <= Controller.maximum_projectiles (World.controller w0) + 1 /\
  (Controller.maximum_projectiles (World.controller w0)
   <= Z.of_nat (length (projectiles w)) ->
   move_fire w = w).
Proof.
  intros Hr H0.
  assert (Inv : Controller.maximum_projectiles (World.controller w)
                = Controller.maximum_projectiles (World.controller w0) /\
                Z.of_nat (length (projectiles w))
                <= Controller.maximum_projectiles (World.controller w0) + 1).
  { induction Hr as [|w w' Hr IH Hstep]; [split; [reflexivity|exact H0]|].
    destruct IH as [Hm Hl]. destruct Hstep as [e w|w|l w Hl'].
    - split; [rewrite <- Hm|]; destruct e as [[] | []]; try reflexivity; exact Hl.
    - destruct (move_length w) as [c1 c2]; [rewrite Hm; exact Hl|].
      split; [congruence|rewrite <- Hm; exact c2].
    - split; [exact Hm|exact Hl]. }
  destruct Inv as [Hm Hl]. split; [exact Hm|]. split; [exact Hl|].
  intros Hcap. apply move_fire_at_cap. rewrite Hm. exact Hcap.
Qed.

(** ** Collisions with the player *)

Local Opaque Z.sub.

Lemma check_player_collisions_in_first (pre post : list Sprite.t)
  (a : Sprite.t) (w : World.t) :
  (forall b, In b pre ->
             collide_point (Sprite.image b) (Sprite.image (World.ship w)) = false) ->
  collide_point (Sprite.image a) (Sprite.image (World.ship w)) = true ->
  check_player_collisions_in (pre ++ a :: post) w = hurt (World.ship w) a w.
Proof.
  intros Hpre Ha. induction pre as [|b pre IH]; simpl.
  - rewrite Ha. reflexivity.
  - rewrite (Hpre b) by (left; reflexivity).
    apply IH. intros c Hc. apply Hpre. right. exact Hc.
Qed.

(** C4, as the code has it.  [hurt] tests the health before it subtracts, so
    the collision that finds the player at health 1 only brings the health
    to [1 - damage], which is at most zero: nothing is logged and the round
    goes on.  The death transition fires at the next collision test that
    still finds an asteroid on the player: the explosion at the player's
    position and the end of the round, the health staying what it was. *)
Theorem death_fires_on_the_next_collision
  (w : World.t) (pre post : list Sprite.t) (a : Sprite.t) :
  World.asteroids w = pre ++ a :: post ->
  (forall b, In b pre ->
             collide_point (Sprite.image b) (Sprite.image (World.ship w)) = false) ->
  collide_point (Sprite.image a) (Sprite.image (World.ship w)) = true ->
  Sprite.cls (World.ship w) = ClsShip ->
  Sprite.can_damage (World.ship w) = true ->
  Sprite.health (World.ship w) = 1 ->
  1 <= Sprite.damage a ->
  let w1 := check_player_collisions w in
  let w2 := check_player_collisions w1 in
  (Sprite.health (World.ship w1) = 1 - Sprite.damage a /\
   Sprite.health (World.ship w1) <= 0 /\
   World.log w1 = World.log w /\
   World.ended w1 = World.ended w) /\
  (World.log w2
   = World.log w
     ++ [EvDie (Sprite.id (World.ship w)) (Sprite.id a);
         EvExplode (Image.x (Sprite.image (World.ship w)))
           (Image.y (Sprite.image (World.ship w)));
         EvEnd] /\
   World.ended w2 = true /\
   Sprite.health (World.ship w2) = 1 - Sprite.damage a).
Proof.
  intros Hl Hpre Ha Hcls Hcd Hh Hdmg w1 w2.
  assert (E1 : w1 = World.set_ship
                      (Sprite.set_health (1 - Sprite.damage a) (World.ship w)) w).
  { unfold w1, check_player_collisions. rewrite Hl.
    rewrite (check_player_collisions_in_first pre post a w Hpre Ha).
    unfold hurt. rewrite Hcd, Hh. simpl.
    unfold put_sprite. simpl. rewrite Nat.eqb_refl. reflexivity. }
  split.
  - rewrite E1. simpl. repeat split; try reflexivity. lia.
  - assert (E2 : w2 = hurt (World.ship w1) a w1).
    { unfold w2, check_player_collisions.
      assert (Hl1 : World.asteroids w1 = pre ++ a :: post)
        by (rewrite E1; exact Hl).
      rewrite Hl1. apply check_player_collisions_in_first.
      - intros b Hb. rewrite E1. simpl. apply Hpre. exact Hb.
      - rewrite E1. simpl. exact Ha. }
    rewrite E2, E1. unfold hurt. simpl. rewrite Hcd. simpl.
    assert (Hle : (1 - Sprite.damage a <=? 0) = true) by (apply Z.leb_le; lia).
    rewrite Hle. unfold die. simpl. rewrite Hcls. simpl.
    rewrite <- !app_assoc. simpl. repeat split; reflexivity.
Qed.

(** ** Collisions with the projectiles *)

Lemma check_projectile_collisions_in_first (pre post : list Sprite.t)
  (a : Sprite.t) (p : Projectile) (w : World.t) :
  (forall b, In b pre -> collide_point (pimage p) (Sprite.image b) = false) ->
  collide_point (pimage p) (Sprite.image a) = true ->
  check_projectile_collisions_in (pre ++ a :: post) p w
  = (true, hurt a (World.ship w) w).
Proof.
  intros Hpre Ha. induction pre as [|b pre IH]; simpl.
  - rewrite Ha. reflexivity.
  - rewrite (Hpre b) by (left; reflexivity).
    apply IH. intros c Hc. apply Hpre. right. exact Hc.
Qed.

Lemma remove_sprite_middle (pre post : list Sprite.t) (a : Sprite.t) :
  NoDup (map Sprite.id (pre ++ a :: post)) ->
  remove_sprite (Sprite.id a) (pre ++ a :: post) = pre ++ post.
Proof.
  induction pre as [|b pre IH]; simpl; intros Hnd.
  - rewrite Nat.eqb_refl. reflexivity.
  - inversion Hnd as [|? ? Hnin Hnd']; subst.
    destruct (Nat.eqb (Sprite.id b) (Sprite.id a)) eqn:E.
    + apply Nat.eqb_eq in E. exfalso. apply Hnin. rewrite E.
      rewrite map_app. apply in_or_app. right. left. reflexivity.
    + rewrite IH by exact Hnd'. reflexivity.
Qed.

(** C2, as the code has it.  The carrier's [die] is reached through its own
    [hurt], which only a projectile hit calls: when a projectile of the
    player hits a power-up carrier (health 0) and the player holds no
    attachment, the attachment class of the carrier is instantiated and
    becomes the player's attachment, its [setup] runs, and the carrier leaves
    the asteroid list with [remove_asteroid(self, False)] and no explosion. *)
Theorem carrier_hit_by_projectile_grants_attachment
  (w : World.t) (p : Projectile) (pre post : list Sprite.t) (a : Sprite.t)
  (k : AttachmentKind) :
  World.asteroids w = pre ++ a :: post ->
  NoDup (map Sprite.id (World.asteroids w)) ->
  (forall b, In b pre -> collide_point (pimage p) (Sprite.image b) = false) ->
  collide_point (pimage p) (Sprite.image a) = true ->
  Sprite.cls a = ClsMechanismAsteroid k ->
  Sprite.can_damage a = true ->
  Sprite.health a <= 0 ->
  Sprite._attachment (World.ship w) = None ->
  let r := check_projectile_collisions p w in
  let granted := mkAttachment (World.next_id w) k (mechanism_image k) in
  fst r = true /\
  Sprite._attachment (World.ship (snd r)) = Some granted /\
  World.asteroids (snd r) = pre ++ post /\
  World.log (snd r)
  = World.log w
    ++ [EvCollisionTest (pid p);
        EvDie (Sprite.id a) (Sprite.id (World.ship w));
        EvSetup granted]
    ++ (if playing (Sprite.attachment_sound (World.ship w))
        then [EvStop AttachmentSound] else [])
    ++ [EvPlay AttachmentSound; EvRemoveAsteroid (Sprite.id a) false] /\
  (forall ex ey,
      In (EvExplode ex ey) (World.log (snd r)) -> In (EvExplode ex ey) (World.log w)).
Proof.
  intros Hl Hnd Hpre Ha Hcls Hcd Hh Hnone r granted.
  assert (Er : r = (true,
                    hurt a (World.ship w)
                      (World.emit [EvCollisionTest (pid p)] w))).
  { unfold r, check_projectile_collisions. rewrite Hl.
    apply (check_projectile_collisions_in_first pre post a p
             (World.emit [EvCollisionTest (pid p)] w) Hpre Ha). }
  assert (Hlog : World.log (snd r)
                 = World.log w
                   ++ [EvCollisionTest (pid p);
                       EvDie (Sprite.id a) (Sprite.id (World.ship w));
                       EvSetup granted]
                   ++ (if playing (Sprite.attachment_sound (World.ship w))
                       then [EvStop AttachmentSound] else [])
                   ++ [EvPlay AttachmentSound;
                       EvRemoveAsteroid (Sprite.id a) false]
                 /\ Sprite._attachment (World.ship (snd r)) = Some granted
                 /\ World.asteroids (snd r) = pre ++ post).
  { rewrite Er. simpl. unfold hurt. rewrite Hcd. simpl.
    apply Z.leb_le in Hh. rewrite Hh. unfold die. rewrite Hcls. simpl.
    unfold grant, attachment_setter. simpl. rewrite Hnone. simpl.
    unfold restart, put_sprite. simpl.
    destruct (playing (Sprite.attachment_sound (World.ship w))); simpl;
      rewrite Nat.eqb_refl; simpl; rewrite <- !app_assoc; simpl;
      (split; [reflexivity|]); (split; [reflexivity|]);
      rewrite Hl; apply remove_sprite_middle; rewrite <- Hl; exact Hnd. }
  destruct Hlog as [Hlog [Hatt Hast]].
  split; [rewrite Er; reflexivity|].
  split; [exact Hatt|]. split; [exact Hast|]. split; [exact Hlog|].
  intros ex ey Hin. rewrite Hlog in Hin.
  apply in_app_or in Hin. destruct Hin as [Hin | Hin]; [exact Hin|].
  exfalso. simpl in Hin.
  destruct (playing (Sprite.attachment_sound (World.ship w))); simpl in Hin;
    repeat (destruct Hin as [Hin | Hin]; try discriminate Hin); contradiction.
Qed.

(** ** The log of the pass over the projectiles *)

Lemma appends_quietly_refl (w : World.t) : appends_quietly w w.
Proof. exists []. split; [rewrite app_nil_r; reflexivity|constructor]. Qed.

Lemma appends_quietly_trans (w1 w2 w3 : World.t) :
  appends_quietly w1 w2 -> appends_quietly w2 w3 -> appends_quietly w1 w3.
Proof.
  intros [e1 [H1 Q1]] [e2 [H2 Q2]]. exists (e1 ++ e2). split.
  - rewrite H2, H1, app_assoc. reflexivity.
  - apply Forall_app. split; assumption.
Qed.

Lemma appends_quietly_log (w w' : World.t) :
  World.log w' = World.log w -> appends_quietly w w'.
Proof.
  intros H. exists []. split; [rewrite app_nil_r; exact H|constructor].
Qed.

Lemma appends_quietly_emit (es : list Event) (w w' : World.t) :
  Forall quiet es -> World.log w' = World.log w ++ es -> appends_quietly w w'.
Proof. intros Hq H. exists es. split; assumption. Qed.

Ltac quiet_event :=
  let p := fresh "p" in
  let H := fresh "H" in
  intros p H; destruct H as [H | [H | [? H]]]; discriminate H.

Lemma restart_quiet (s : Sound) (a : AudioSound) :
  Forall quiet (snd (restart s a)).
Proof.
  rewrite restart_events. destruct (playing a); simpl;
    repeat constructor; quiet_event.
Qed.

Lemma attachment_setter_quiet (self : Sprite.t) (o : option Attachment) :
  Forall quiet (snd (attachment_setter self o)).
Proof.
  unfold attachment_setter.
  destruct (truthy (Sprite._attachment self) || is_ o (Sprite._attachment self)).
  - pose proof (restart_quiet AttachmentDenySound
                  (Sprite.attachment_deny_sound self)) as H.
    destruct (restart AttachmentDenySound (Sprite.attachment_deny_sound self)).
    exact H.
  - pose proof (restart_quiet AttachmentSound
                  (Sprite.attachment_sound (Sprite.set_attachment o self))) as H.
    destruct (restart AttachmentSound
                (Sprite.attachment_sound (Sprite.set_attachment o self))).
    simpl in *. apply Forall_app. split; [|exact H].
    destruct o; repeat constructor; quiet_event.
Qed.

Lemma grant_quietly (s : Sprite.t) (o : option Attachment) (w : World.t) :
  appends_quietly w (grant s o w).
Proof.
  rewrite grant_unfold.
  apply (appends_quietly_emit (snd (attachment_setter s o)));
    [apply attachment_setter_quiet|].
  simpl. rewrite put_sprite_log. reflexivity.
Qed.

Lemma die_quietly (self killer : Sprite.t) (w : World.t) :
  appends_quietly w (die self killer w).
Proof.
  unfold die. destruct (Sprite.cls self).
  - eapply appends_quietly_emit; [|reflexivity]. repeat constructor; quiet_event.
  - apply (appends_quietly_emit
             [EvDie (Sprite.id self) (Sprite.id killer);
              EvExplode (Image.x (Sprite.image self)) (Image.y (Sprite.image self));
              EvEnd]);
      [repeat constructor; quiet_event|].
    simpl. rewrite <- !app_assoc. reflexivity.
  - apply (appends_quietly_emit
             [EvDie (Sprite.id self) (Sprite.id killer);
              EvExplode (Image.x (Sprite.image self)) (Image.y (Sprite.image self));
              EvRemoveAsteroid (Sprite.id self) true]);
      [repeat constructor; quiet_event|].
    simpl. rewrite <- !app_assoc. reflexivity.
  - match goal with
    | |- appends_quietly _ (remove_asteroid _ _ (grant ?s ?o ?w0)) =>
        apply (appends_quietly_trans w w0);
          [eapply appends_quietly_emit; [|reflexivity];
           repeat constructor; quiet_event|];
        apply (appends_quietly_trans w0 (grant s o w0));
          [apply grant_quietly|]
    end.
    eapply appends_quietly_emit; [|reflexivity]. repeat constructor; quiet_event.
Qed.

Lemma hurt_quietly (self attacker : Sprite.t) (w : World.t) :
  appends_quietly w (hurt self attacker w).
Proof.
  unfold hurt. destruct (negb (Sprite.can_damage self));
    [apply appends_quietly_refl|].
  destruct (Sprite.health self <=? 0); [apply die_quietly|].
  apply appends_quietly_log, put_sprite_log.
Qed.

Lemma check_projectile_collisions_in_quietly (l : list Sprite.t)
  (p : Projectile) (w : World.t) :
  appends_quietly w (snd (check_projectile_collisions_in l p w)).
Proof.
  induction l as [|a l IH]; simpl; [apply appends_quietly_refl|].
  destruct (collide_point (pimage p) (Sprite.image a)); simpl;
    [apply hurt_quietly|exact IH].
Qed.

(** ** Lists with one index removed *)

Lemma skipn_nth_error_cons (A : Type) (l : list A) (i : nat) (a : A) :
  nth_error l i = Some a -> skipn i l = a :: skipn (S i) l.
Proof.
  revert i. induction l as [|b l IH]; intros [|i] H; simpl in *;
    try discriminate.
  - inversion H. reflexivity.
  - apply IH. exact H.
Qed.

Lemma in_skipn_index (l : list nat) (k a : nat) :
  In a (skipn k l) -> exists j, (k <= j)%nat /\ nth_error l j = Some a.
Proof.
  intros H. apply In_nth_error in H. destruct H as [m Hm].
  rewrite nth_error_skipn in Hm. exists (k + m)%nat. split; [lia|exact Hm].
Qed.

Lemma nodup_index (l : list nat) (i j a : nat) :
  NoDup l -> nth_error l i = Some a -> nth_error l j = Some a -> i = j.
Proof.
  intros Hnd Hi Hj. apply (proj1 (NoDup_nth_error l) Hnd).
  - apply nth_error_Some. congruence.
  - congruence.
Qed.

Lemma nth_error_without (l : list nat) (i j : nat) :
  (i < length l)%nat -> (i <= j)%nat ->
  nth_error (firstn i l ++ skipn (S i) l) j = nth_error l (S j).
Proof.
  intros Hi Hj.
  assert (Hlen : length (firstn i l) = i) by (rewrite length_firstn; lia).
  rewrite nth_error_app2 by lia. rewrite Hlen, nth_error_skipn.
  f_equal. lia.
Qed.

Lemma nth_error_without_before (l : list nat) (i j : nat) :
  (i < length l)%nat -> (j < i)%nat ->
  nth_error (firstn i l ++ skipn (S i) l) j = nth_error l j.
Proof.
  intros Hi Hj.
  assert (Hlen : length (firstn i l) = i) by (rewrite length_firstn; lia).
  rewrite nth_error_app1 by lia. rewrite nth_error_firstn.
  assert (E : (j <? i)%nat = true) by (apply Nat.ltb_lt; exact Hj).
  rewrite E. reflexivity.
Qed.

Lemma skipn_without (l : list nat) (i : nat) :
  (i < length l)%nat ->
  skipn (S i) (firstn i l ++ skipn (S i) l) = skipn (S (S i)) l.
Proof.
  intros Hi.
  assert (Hlen : length (firstn i l) = i) by (rewrite length_firstn; lia).
  rewrite skipn_app, Hlen.
  rewrite (skipn_all2 (firstn i l)) by lia.
  replace (S i - i)%nat with 1%nat by lia.
  rewrite skipn_skipn. reflexivity.
Qed.

Lemma nodup_without (l : list nat) (i : nat) :
  NoDup l -> NoDup (firstn i l ++ skipn (S i) l).
Proof.
  intros Hnd. destruct (nth_error l i) as [a|] eqn:E.
  - apply (NoDup_remove_1 _ _ a).
    rewrite <- (skipn_nth_error_cons _ l i a E), firstn_skipn. exact Hnd.
  - apply nth_error_None in E.
    rewrite (skipn_all2 l) by lia. rewrite firstn_all2 by exact E.
    rewrite app_nil_r. exact Hnd.
Qed.

Lemma pids_remove_projectile (l : list Projectile) (i : nat) (p : Projectile) :
  NoDup (map pid l) ->
  nth_error l i = Some p ->
  map pid (remove_projectile (pid p) l)
  = firstn i (map pid l) ++ skipn (S i) (map pid l).
Proof.
  revert i. induction l as [|q l IH]; intros [|i] Hnd H; simpl in *;
    try discriminate.
  - inversion H. subst q. rewrite Nat.eqb_refl. reflexivity.
  - inversion Hnd as [|? ? Hnin Hnd']; subst.
    destruct (Nat.eqb (pid q) (pid p)) eqn:E.
    + apply Nat.eqb_eq in E. exfalso. apply Hnin. rewrite E.
      apply in_map. eapply nth_error_In. exact H.
    + simpl. rewrite (IH i Hnd' H). reflexivity.
Qed.

Lemma pids_move_projectile_at (i : nat) (dy : Q) (l : list Projectile) :
  map pid (move_projectile_at i dy l) = map pid l.
Proof.
  revert i. induction l as [|q l IH]; intros [|i]; simpl; try reflexivity.
  rewrite IH. reflexivity.
Qed.

Lemma visits_inv (r : nat) (e : Event) :
  visits r e ->
  match e with
  | EvDestroy p | EvCollisionTest p | EvMoved p _ => r = p
  | _ => False
  end.
Proof.
  intros [H | [H | [dy H]]]; subst e; reflexivity.
Qed.

Lemma quiet_not_destroy (es : list Event) (p : nat) :
  Forall quiet es -> ~ In (EvDestroy p) es.
Proof.
  intros Hq Hin. apply (proj1 (Forall_forall _ _) Hq _ Hin p).
  left. reflexivity.
Qed.

(** ** One turn of the loop over the projectiles *)

Lemma check_projectile_collisions_log (p : Projectile) (w : World.t) :
  exists es,
    World.log (snd (check_projectile_collisions p w))
    = World.log w ++ EvCollisionTest (pid p) :: es /\
    Forall quiet es.
Proof.
  unfold check_projectile_collisions.
  destruct (check_projectile_collisions_in_quietly (World.asteroids w) p
              (World.emit [EvCollisionTest (pid p)] w)) as [es [H Hq]].
  exists es. split; [|exact Hq]. rewrite H. simpl.
  rewrite <- app_assoc. reflexivity.
Qed.

Lemma in_remove_projectile_other (q : Projectile) (i : nat) (l : list Projectile) :
  In q l -> pid q <> i -> In q (remove_projectile i l).
Proof.
  induction l as [|x l IH]; simpl; intros Hin Hne; [contradiction|].
  destruct (Nat.eqb (pid x) i) eqn:E.
  - apply Nat.eqb_eq in E. destruct Hin as [Hin | Hin]; [subst x; contradiction|].
    exact Hin.
  - destruct Hin as [Hin | Hin]; [left; exact Hin|right; apply IH; assumption].
Qed.

Lemma in_move_projectile_at_other (q p : Projectile) (i : nat) (dy : Q)
  (l : list Projectile) :
  nth_error l i = Some p -> In q l -> pid q <> pid p ->
  In q (move_projectile_at i dy l).
Proof.
  revert i. induction l as [|x l IH]; intros [|i] Hn Hin Hne; simpl in *;
    try contradiction.
  - inversion Hn. subst x. destruct Hin as [Hin | Hin];
      [subst q; contradiction|right; exact Hin].
  - destruct Hin as [Hin | Hin]; [left; exact Hin|right].
    apply IH; assumption.
Qed.

(** What one turn on the projectile [p] at index [i] does: its events concern
    [p] only, at least one of them does, every other projectile stays as it
    is, and either [p] leaves the list or it is not destroyed and the list
    keeps its identities. *)
Lemma update_projectile_effect (i : nat) (p : Projectile) (w : World.t) :
  nth_error (projectiles w) i = Some p ->
  NoDup (pids w) ->
  exists T,
    World.log (update_projectile i p w) = World.log w ++ T /\
    (forall e r, In e T -> visits r e -> r = pid p) /\
    (exists e, In e T /\ visits (pid p) e) /\
    (forall q, In q (projectiles w) -> pid q <> pid p ->
               In q (projectiles (update_projectile i p w))) /\
    (pids (update_projectile i p w) = firstn i (pids w) ++ skipn (S i) (pids w) \/
     (~ In (EvDestroy (pid p)) T /\ pids (update_projectile i p w) = pids w)).
Proof.
  intros Hn Hnd. unfold update_projectile.
  destruct (Qle_bool (Image.y (pimage p)) 0).
  - exists [EvDestroy (pid p)]. split; [reflexivity|]. split.
    { intros e r [He | []] Hv. subst e. apply (visits_inv r _ Hv). }
    split; [exists (EvDestroy (pid p)); split; [left|left]; reflexivity|].
    split.
    { intros q Hq Hne. apply in_remove_projectile_other; assumption. }
    left. apply (pids_remove_projectile (projectiles w) i p Hnd Hn).
  - destruct (check_projectile_collisions_log p w) as [es [Hlog Hq]].
    destruct (check_projectile_collisions_outside p w) as [Hc _].
    destruct (check_projectile_collisions p w) as [hit w1]. simpl in Hlog, Hc.
    assert (Hp : projectiles w1 = projectiles w)
      by (unfold projectiles; rewrite Hc; reflexivity).
    destruct hit.
    + exists (EvCollisionTest (pid p) :: es ++ [EvDestroy (pid p)]).
      split.
      { unfold destroy_projectile. simpl. rewrite Hlog.
        rewrite <- app_assoc. reflexivity. }
      split.
      { intros e r Hin Hv. destruct Hin as [He | Hin];
          [subst e; apply (visits_inv r _ Hv)|].
        apply in_app_or in Hin. destruct Hin as [Hin | [He | []]].
        - exfalso. exact (proj1 (Forall_forall _ _) Hq e Hin r Hv).
        - subst e. apply (visits_inv r _ Hv). }
      split;
        [exists (EvCollisionTest (pid p));
         split; [left; reflexivity|right; left; reflexivity]|].
      split.
      { intros q Hin Hne. unfold destroy_projectile, projectiles in *. simpl.
        rewrite Hc. apply in_remove_projectile_other; assumption. }
      left. unfold pids, destroy_projectile, projectiles in *. simpl.
      rewrite Hc. apply (pids_remove_projectile _ i p Hnd Hn).
    + eexists (EvCollisionTest (pid p) :: es ++ [EvMoved (pid p) _]).
      split.
      { simpl. rewrite Hlog. rewrite <- app_assoc. reflexivity. }
      split.
      { intros e r Hin Hv. destruct Hin as [He | Hin];
          [subst e; apply (visits_inv r _ Hv)|].
        apply in_app_or in Hin. destruct Hin as [Hin | [He | []]].
        - exfalso. exact (proj1 (Forall_forall _ _) Hq e Hin r Hv).
        - subst e. apply (visits_inv r _ Hv). }
      split;
        [exists (EvCollisionTest (pid p));
         split; [left; reflexivity|right; left; reflexivity]|].
      split.
      { intros q Hin Hne. unfold projectiles in *. simpl. rewrite Hc.
        apply (in_move_projectile_at_other q p); assumption. }
      right. split.
      * intros [He | Hin]; [discriminate He|].
        apply in_app_or in Hin. destruct Hin as [Hin | [He | []]];
          [exact (quiet_not_destroy es (pid p) Hq Hin)|discriminate He].
      * unfold pids, projectiles in *. simpl.
        rewrite pids_move_projectile_at, Hc. reflexivity.
Qed.

(** ** The whole pass *)

Lemma nth_error_pids (w : World.t) (i : nat) (p : Projectile) :
  nth_error (projectiles w) i = Some p -> nth_error (pids w) i = Some (pid p).
Proof. intros H. unfold pids. rewrite nth_error_map, H. reflexivity. Qed.

(** The pass from index [i] on: every projectile event concerns a projectile
    that sat at an index from [i] on; when the projectile at an index [j] is
    destroyed, no event concerns the one that followed it; and a projectile
    no event concerns is still in the list, as it was. *)
Lemma update_projectiles_from_log (fuel : nat) :
  forall (i : nat) (w : World.t),
    NoDup (pids w) ->
    exists T,
      World.log (update_projectiles_from fuel i w) = World.log w ++ T /\
      (forall e r, In e T -> visits r e ->
                   exists j, (i <= j)%nat /\ nth_error (pids w) j = Some r) /\
      (forall j a b, (i <= j)%nat ->
                     nth_error (pids w) j = Some a ->
                     nth_error (pids w) (S j) = Some b ->
                     In (EvDestroy a) T ->
                     forall e, In e T -> ~ visits b e) /\
      (forall q, In q (projectiles w) ->
                 (forall e, In e T -> ~ visits (pid q) e) ->
                 In q (projectiles (update_projectiles_from fuel i w))).
Proof.
  induction fuel as [|fuel IH]; intros i w Hnd.
  - exists []. simpl. rewrite app_nil_r. repeat split; try contradiction.
    intros q Hq _. exact Hq.
  - cbn [update_projectiles_from].
    destruct (nth_error (projectiles w) i) as [p0|] eqn:E.
    2:{ exists []. rewrite app_nil_r. repeat split; try contradiction.
        intros q Hq _. exact Hq. }
    destruct (update_projectile_effect i p0 w E Hnd)
      as [T0 [HL0 [HV0 [[e0 [He0 Hv0]] [Hkeep Hcase]]]]].
    pose proof (nth_error_pids w i p0 E) as Hi.
    assert (Hlt : (i < length (pids w))%nat)
      by (apply nth_error_Some; congruence).
    set (w' := update_projectile i p0 w) in *.
    assert (Hnd' : NoDup (pids w')).
    { destruct Hcase as [Hrem | [_ Hsame]].
      - rewrite Hrem. apply nodup_without. exact Hnd.
      - rewrite Hsame. exact Hnd. }
    destruct (IH (S i) w' Hnd') as [T' [HL' [HA' [HB' HC']]]].
    (* an index of [w'] from [S i] on, read back in [w] *)
    assert (Hback : forall j' r, (S i <= j')%nat ->
                      nth_error (pids w') j' = Some r ->
                      exists j, (S i <= j)%nat /\ (j' <= j)%nat /\
                                nth_error (pids w) j = Some r /\
                                nth_error (pids w') (S j')
                                = nth_error (pids w) (S j)).
    { intros j' r Hj' Hr. destruct Hcase as [Hrem | [_ Hsame]].
      - exists (S j'). rewrite Hrem in Hr |- *.
        rewrite nth_error_without in Hr by lia.
        rewrite nth_error_without by lia.
        repeat split; try lia. exact Hr.
      - exists j'. rewrite Hsame in Hr |- *. repeat split; try lia. exact Hr. }
    exists (T0 ++ T'). split; [rewrite HL', HL0, app_assoc; reflexivity|].
    split; [|split].
    + intros e r Hin Hv. apply in_app_or in Hin. destruct Hin as [Hin | Hin].
      * exists i. split; [lia|]. rewrite (HV0 e r Hin Hv). exact Hi.
      * destruct (HA' e r Hin Hv) as [j' [Hj' Hr]].
        destruct (Hback j' r Hj' Hr) as [j [Hj [_ [Hjr _]]]].
        exists j. split; [lia|exact Hjr].
    + intros j a b Hj Ha Hb Hd e Hin Hv.
      apply in_app_or in Hin. destruct Hin as [Hin | Hin].
      * pose proof (HV0 e b Hin Hv) as Eb. subst b.
        pose proof (nodup_index _ _ _ _ Hnd Hi Hb). lia.
      * destruct (HA' e b Hin Hv) as [jb [Hjb Hrb]].
        destruct (Hback jb b Hjb Hrb) as [jb0 [Hjb0 [_ [Hjb0r _]]]].
        pose proof (nodup_index _ _ _ _ Hnd Hb Hjb0r) as Ejb. 
        apply in_app_or in Hd. destruct Hd as [Hd | Hd].
        -- assert (Ea : a = pid p0)
             by (apply (HV0 _ a Hd); left; reflexivity).
           subst a. destruct Hcase as [Hrem | [Hno _]].
           ++ pose proof (nodup_index _ _ _ _ Hnd Hi Ha).
              rewrite Hrem in Hrb. rewrite nth_error_without in Hrb by lia.
              pose proof (nodup_index _ _ _ _ Hnd Hb Hrb). lia.
           ++ exact (Hno Hd).
        -- assert (Hva : visits a (EvDestroy a)) by (left; reflexivity).
           destruct (HA' _ a Hd Hva) as [ja [Hja Hra]].
           destruct (Hback ja a Hja Hra) as [ja0 [Hja0 [Hle [Hja0r Hnext]]]].
           pose proof (nodup_index _ _ _ _ Hnd Ha Hja0r) as Eja. subst ja0.
           apply (HB' ja a b Hja Hra) with (e := e); try assumption.
           rewrite Hnext. exact Hb.
    + intros q Hq Hquiet. apply HC'.
      * apply Hkeep; [exact Hq|]. intros Epid.
        apply (Hquiet e0); [apply in_or_app; left; exact He0|].
        rewrite Epid. exact Hv0.
      * intros e Hin. apply Hquiet. apply in_or_app. right. exact Hin.
Qed.

(** C10. [update_projectiles] removes from the list it is walking.  In a
    pass that destroys the projectile at index [i] of the collection, for
    leaving through the top or for hitting an asteroid, the projectile that
    was at index [i + 1] is not visited: it is not tested for collisions, not
    moved and not destroyed, and it is still in the collection, unchanged,
    when the pass ends. *)
Theorem projectile_after_a_destroyed_one_is_skipped
  (w : World.t) (i : nat) (p q : Projectile) (T : list Event) :
  NoDup (pids w) ->
  nth_error (projectiles w) i = Some p ->
  nth_error (projectiles w) (S i) = Some q ->
  World.log (update_projectiles w) = World.log w ++ T ->
  In (EvDestroy (pid p)) T ->
  ~ In (EvCollisionTest (pid q)) T /\
  (forall dy, ~ In (EvMoved (pid q) dy) T) /\
  ~ In (EvDestroy (pid q)) T /\
  In q (projectiles (update_projectiles w)).
Proof.
  intros Hnd Hp Hq HT Hd. unfold update_projectiles in *.
  destruct (update_projectiles_from_log (length (projectiles w)) 0 w Hnd)
    as [T1 [HL [_ [HB HC]]]].
  assert (ET : T1 = T) by (rewrite HL in HT; apply app_inv_head in HT; exact HT).
  subst T1.
  assert (Hskip : forall e, In e T -> ~ visits (pid q) e).
  { apply (HB i (pid p) (pid q)); try assumption; try lia.
    - apply nth_error_pids. exact Hp.
    - apply nth_error_pids. exact Hq. }
  split; [|split; [|split]].
  - intros Hin. apply (Hskip _ Hin). right. left. reflexivity.
  - intros dy Hin. apply (Hskip _ Hin). right. right. exists dy. reflexivity.
  - intros Hin. apply (Hskip _ Hin). left. reflexivity.
  - apply HC; [eapply nth_error_In; exact Hq|exact Hskip].
Qed.

(** ** Destroying the controller *)

Lemma remove_projectile_at (l : list Projectile) (i : nat) (p : Projectile) :
  NoDup (map pid l) ->
  nth_error l i = Some p ->
  remove_projectile (pid p) l = firstn i l ++ skipn (S i) l.
Proof.
  revert i. induction l as [|q l IH]; intros [|i] Hnd H; simpl in *;
    try discriminate.
  - inversion H. subst q. rewrite Nat.eqb_refl. reflexivity.
  - inversion Hnd as [|? ? Hnin Hnd']; subst.
    destruct (Nat.eqb (pid q) (pid p)) eqn:E.
    + apply Nat.eqb_eq in E. exfalso. apply Hnin. rewrite E.
      apply in_map. eapply nth_error_In. exact H.
    + rewrite (IH i Hnd' H). reflexivity.
Qed.

Lemma in_skipn_weaken (l : list nat) (i k r : nat) :
  (i <= k)%nat -> In r (skipn k l) -> In r (skipn i l).
Proof.
  intros Hik H. apply in_skipn_index in H. destruct H as [j [Hj Hr]].
  assert (Hs : nth_error (skipn i l) (j - i) = Some r).
  { rewrite nth_error_skipn. replace (i + (j - i))%nat with j by lia. exact Hr. }
  eapply nth_error_In. exact Hs.
Qed.

Lemma destroy_projectiles_from_S (fuel i : nat) (w : World.t) :
  destroy_projectiles_from (S fuel) i w
  = match nth_error (projectiles w) i with
    | Some p => destroy_projectiles_from fuel (S i) (destroy_projectile p w)
    | None => w
    end.
Proof. reflexivity. Qed.

(** The loop of [destroy_projectiles] from index [i] on: it destroys only
    projectiles that sat at an index from [i] on, and leaves the first [i]
    projectiles of the list where they are. *)
Lemma destroy_projectiles_from_keeps (fuel : nat) :
  forall (i : nat) (w : World.t),
    NoDup (pids w) ->
    (i <= length (projectiles w))%nat ->
    exists T,
      World.log (destroy_projectiles_from fuel i w) = World.log w ++ T /\
      (forall e, In e T -> exists r, e = EvDestroy r /\ In r (skipn i (pids w))) /\
      firstn i (projectiles (destroy_projectiles_from fuel i w))
      = firstn i (projectiles w).
Proof.
  induction fuel as [|fuel IH]; intros i w Hnd Hlen.
  - exists []. simpl. rewrite app_nil_r. repeat split. contradiction.
  - cbn [destroy_projectiles_from].
    destruct (nth_error (projectiles w) i) as [p|] eqn:E.
    2:{ exists []. rewrite app_nil_r. repeat split. contradiction. }
    set (w' := destroy_projectile p w).
    assert (Hlt : (i < length (projectiles w))%nat)
      by (apply nth_error_Some; congruence).
    assert (Hp' : projectiles w'
                  = firstn i (projectiles w) ++ skipn (S i) (projectiles w))
      by (apply (remove_projectile_at (projectiles w) i p Hnd E)).
    assert (Hpids' : pids w' = firstn i (pids w) ++ skipn (S i) (pids w))
      by (apply (pids_remove_projectile (projectiles w) i p Hnd E)).
    assert (Hnd' : NoDup (pids w'))
      by (rewrite Hpids'; apply nodup_without; exact Hnd).
    assert (Hf : firstn i (projectiles w') = firstn i (projectiles w)).
    { rewrite Hp'. rewrite firstn_app, length_firstn.
      replace (i - Nat.min i (length (projectiles w)))%nat with 0%nat by lia.
      simpl. rewrite app_nil_r. rewrite firstn_firstn.
      replace (Nat.min i i) with i by lia. reflexivity. }
    destruct (Nat.le_gt_cases (S i) (length (projectiles w'))) as [Hle | Hgt].
    + destruct (IH (S i) w' Hnd' Hle) as [T' [HL' [HA' HF']]].
      exists (EvDestroy (pid p) :: T'). split; [|split].
      * rewrite HL'. unfold w', destroy_projectile. simpl.
        rewrite <- app_assoc. reflexivity.
      * intros e [He | Hin].
        -- exists (pid p). split; [symmetry; exact He|].
           apply (nth_error_In _ 0). rewrite nth_error_skipn.
           replace (i + 0)%nat with i by lia. apply nth_error_pids. exact E.
        -- destruct (HA' e Hin) as [r [He Hr]]. exists r. split; [exact He|].
           rewrite Hpids' in Hr.
           assert (Hl2 : (i < length (pids w))%nat)
             by (unfold pids; rewrite length_map; exact Hlt).
           rewrite (skipn_without (pids w) i Hl2) in Hr.
           apply (in_skipn_weaken _ i (S (S i))); [lia|exact Hr].
      * assert (Hm : forall l : list Projectile,
                   firstn i l = firstn i (firstn (S i) l)).
        { intros l. rewrite firstn_firstn.
          replace (Nat.min i (S i)) with i by lia. reflexivity. }
        rewrite (Hm (projectiles (destroy_projectiles_from fuel (S i) w'))).
        rewrite HF', <- Hm. exact Hf.
    + (* the list of [w'] ends before index [S i]: the loop stops *)
      assert (Estop : destroy_projectiles_from fuel (S i) w' = w').
      { destruct fuel as [|fuel']; [reflexivity|].
        cbn [destroy_projectiles_from].
        assert (En : nth_error (projectiles w') (S i) = None)
          by (apply nth_error_None; lia).
        rewrite En. reflexivity. }
      rewrite Estop. exists [EvDestroy (pid p)]. split; [reflexivity|].
      split; [|exact Hf].
      intros e [He | []]. exists (pid p). split; [symmetry; exact He|].
      apply (nth_error_In _ 0). rewrite nth_error_skipn.
      replace (i + 0)%nat with i by lia. apply nth_error_pids. exact E.
Qed.

(** As for [update_projectiles], the fuel is never what stops the loop of
    [destroy_projectiles]: it ends because the index passed the end of the
    list, and more fuel changes nothing. *)
Lemma destroy_projectiles_from_fuel (fuel i : nat) (w : World.t) :
  (length (projectiles w) - i <= fuel)%nat ->
  destroy_projectiles_from (S fuel) i w = destroy_projectiles_from fuel i w.
Proof.
  revert i w. induction fuel as [|fuel IH]; intros i w Hlen.
  - rewrite destroy_projectiles_from_S.
    destruct (nth_error (projectiles w) i) as [p|] eqn:E; [|reflexivity].
    assert (i < length (projectiles w))%nat
      by (apply nth_error_Some; congruence). lia.
  - rewrite (destroy_projectiles_from_S (S fuel)).
    rewrite (destroy_projectiles_from_S fuel).
    destruct (nth_error (projectiles w) i) as [p|] eqn:E; [|reflexivity].
    apply IH.
    assert (Hl : (length (projectiles (destroy_projectile p w))
                  <= length (projectiles w))%nat)
      by (apply length_remove_projectile).
    lia.
Qed.

(** C7 fails on the code: [destroy_projectiles] removes from the list it is
    walking, so the projectile after each destroyed one is passed over.  With
    two projectiles or more in flight, after [ShipController.destroy] the
    second one is still the head of the collection and [destroy()] has not
    been called on it. *)
Theorem destroy_leaves_the_second_projectile
  (w : World.t) (p0 p1 : Projectile) (rest : list Projectile) :
  projectiles w = p0 :: p1 :: rest ->
  NoDup (pids w) ->
  ~ In (EvDestroy (pid p1)) (World.log w) ->
  (exists tail, projectiles (destroy w) = p1 :: tail) /\
  ~ In (EvDestroy (pid p1)) (World.log (destroy w)).
Proof.
  intros Hl Hnd Hlog. unfold destroy.
  set (w4 := World.emit [EvDestroyGameController]
               (World.emit unbind_all
                  (World.set_controller
                     (Controller.set_fire_sound false
                        (World.controller (World.emit [EvDestroyMusic] w)))
                     (World.emit [EvDestroyMusic] w)))).
  assert (Hl4 : projectiles w4 = p0 :: p1 :: rest) by exact Hl.
  assert (Hlog4 : ~ In (EvDestroy (pid p1)) (World.log w4)).
  { unfold w4. simpl. intros Hin.
    rewrite <- !app_assoc in Hin. apply in_app_or in Hin.
    destruct Hin as [Hin | Hin]; [exact (Hlog Hin)|].
    simpl in Hin.
    repeat (destruct Hin as [Hin | Hin]; try discriminate Hin). exact Hin. }
  clearbody w4.
  assert (Hnd4 : NoDup (pid p0 :: pid p1 :: map pid rest)).
  { unfold pids in Hnd. rewrite Hl in Hnd. exact Hnd. }
  set (w5 := destroy_projectile p0 w4).
  assert (Hl5 : projectiles w5 = p1 :: rest).
  { unfold w5, destroy_projectile, projectiles in *. simpl. rewrite Hl4.
    simpl. rewrite Nat.eqb_refl. reflexivity. }
  assert (Hnd5 : NoDup (pids w5)).
  { unfold pids. rewrite Hl5. inversion Hnd4. assumption. }
  assert (Estep : destroy_projectiles w4
                  = destroy_projectiles_from (S (length rest)) 1 w5).
  { unfold destroy_projectiles. rewrite Hl4.
    change (length (p0 :: p1 :: rest)) with (S (S (length rest))).
    rewrite destroy_projectiles_from_S, Hl4. reflexivity. }
  rewrite Estep.
  destruct (destroy_projectiles_from_keeps (S (length rest)) 1 w5 Hnd5)
    as [T [HL [HA HF]]]; [rewrite Hl5; simpl; lia|].
  set (w6 := destroy_projectiles_from (S (length rest)) 1 w5) in *.
  change (projectiles (World.set_controller
                         (set_speed 0 (World.controller w6)) w6))
    with (projectiles w6).
  change (World.log (World.set_controller
                       (set_speed 0 (World.controller w6)) w6))
    with (World.log w6).
  clearbody w6.
  split.
  - rewrite Hl5 in HF.
    destruct (projectiles w6) as [|x tail]; [discriminate HF|].
    cbn [firstn] in HF. inversion HF. exists tail. reflexivity.
  - rewrite HL. intros Hin. apply in_app_or in Hin.
    destruct Hin as [Hin | Hin].
    + unfold w5, destroy_projectile in Hin. simpl in Hin.
      apply in_app_or in Hin. destruct Hin as [Hin | [Hin | []]];
        [exact (Hlog4 Hin)|].
      inversion Hin as [Epid]. inversion Hnd4 as [|? ? Hnin _]. subst.
      apply Hnin. rewrite Epid. left. reflexivity.
    + destruct (HA _ Hin) as [r [He Hr]]. inversion He. subst r.
      unfold pids in Hr. rewrite Hl5 in Hr. simpl in Hr.
      inversion Hnd4 as [|? ? _ Hnd']. inversion Hnd' as [|? ? Hnin _].
      exact (Hnin Hr).
Qed.

(** * Further properties of the code *)

(** ** The attachment slot over several offers *)

(** X1. The first attachment wins: once an attachment object has been
    accepted by a sprite that held none, every later offer, of the same
    object, of another one or of [None], leaves it in place, runs no [setup]
    and plays the deny sound. *)
Theorem first_attachment_wins
  (self : Sprite.t) (a : Attachment) (later : option Attachment) :
  Sprite._attachment self = None ->
  let held := fst (attachment_setter self (Some a)) in
  Sprite._attachment (fst (attachment_setter held later)) = Some a /\
  snd (attachment_setter held later)
  = (if playing (Sprite.attachment_deny_sound self)
     then [EvStop AttachmentDenySound] else [])
    ++ [EvPlay AttachmentDenySound] /\
  (forall b, ~ In (EvSetup b) (snd (attachment_setter held later))).
Proof.
  intros Hnone held.
  assert (Hheld : Sprite._attachment held = Some a /\
                  Sprite.attachment_deny_sound held
                  = Sprite.attachment_deny_sound self).
  { unfold held, attachment_setter. rewrite Hnone. simpl. unfold restart.
    destruct (playing (Sprite.attachment_sound self)); split; reflexivity. }
  destruct Hheld as [Hheld Hd]. clearbody held.
  unfold attachment_setter. rewrite Hheld. simpl. unfold restart. rewrite Hd.
  destruct (playing (Sprite.attachment_deny_sound self)); simpl;
    (split; [exact Hheld|]); (split; [reflexivity|]);
    intros b H; repeat (destruct H as [H | H]; try discriminate H);
    contradiction.
Qed.

(** X2. Assigning [None] never clears the slot: whatever the sprite holds,
    [sprite.attachment = None] takes the rejecting branch (a held attachment
    is true, and [None is None] when nothing is held), so the slot keeps its
    content and the deny sound is played. *)
Theorem assigning_none_is_denied (self : Sprite.t) :
  Sprite._attachment (fst (attachment_setter self None))
  = Sprite._attachment self /\
  snd (attachment_setter self None)
  = (if playing (Sprite.attachment_deny_sound self)
     then [EvStop AttachmentDenySound] else [])
    ++ [EvPlay AttachmentDenySound] /\
  Sprite.attachment_sound (fst (attachment_setter self None))
  = Sprite.attachment_sound self.
Proof.
  unfold attachment_setter.
  destruct (Sprite._attachment self) as [cur|] eqn:E; simpl;
    unfold restart;
    destruct (playing (Sprite.attachment_deny_sound self)); simpl;
    rewrite ?E; repeat split; reflexivity.
Qed.

(** ** Key handlers *)

(** X3. A key handler writes its own intent flag and nothing else: the
    ship, the asteroids, the projectiles, the score, the log and the other
    four flags stay as they are; and whatever was pressed before, releasing a
    key leaves the same world as the release alone. *)
Theorem key_handlers_write_one_flag (e : KeyEvent) (k : Key) (w : World.t) :
  World.ship (handle_key e w) = World.ship w /\
  World.asteroids (handle_key e w) = World.asteroids w /\
  World.log (handle_key e w) = World.log w /\
  projectiles (handle_key e w) = projectiles w /\
  Controller.current_distance (World.controller (handle_key e w))
  = Controller.current_distance (World.controller w) /\
  (key_of e <> Up ->
   Controller.moving_forward (World.controller (handle_key e w))
   = Controller.moving_forward (World.controller w)) /\
  (key_of e <> Down ->
   Controller.moving_backward (World.controller (handle_key e w))
   = Controller.moving_backward (World.controller w)) /\
  (key_of e <> Right ->
   Controller.moving_right (World.controller (handle_key e w))
   = Controller.moving_right (World.controller w)) /\
  (key_of e <> Left ->
   Controller.moving_left (World.controller (handle_key e w))
   = Controller.moving_left (World.controller w)) /\
  (key_of e <> Space ->
   Controller.firing (World.controller (handle_key e w))
   = Controller.firing (World.controller w)) /\
  handle_key (Release k) (handle_key (Press k) w) = handle_key (Release k) w.
Proof.
  repeat split;
    try (destruct e as [[] | []]; simpl; intros; try reflexivity; congruence).
  destruct k; reflexivity.
Qed.

(** ** Opposite keys and edges *)

(** X4. When opposite directions are held together, forward wins over
    backward and right wins over left: with Up held and the top edge still
    inside, the ship goes up by [speed] whether or not Down is held, and with
    Right held and the right edge still inside it goes right by [speed]
    whether or not Left is held. *)
Theorem forward_and_right_take_precedence (w : World.t) :
  distinct_ids w ->
  (Controller.moving_forward (World.controller w) = true ->
   (0 < top_edge w)%Q ->
   Image.y (Sprite.image (World.ship (move w)))
   = (Image.y (Sprite.image (World.ship w))
      - inject_Z (Controller.speed (World.controller w)))%Q) /\
  (Controller.moving_right (World.controller w) = true ->
   (right_edge w < inject_Z (World.display_width w))%Q ->
   Image.x (Sprite.image (World.ship (move w)))
   = (Image.x (Sprite.image (World.ship w))
      + inject_Z (Controller.speed (World.controller w)))%Q).
Proof.
  intros Hd. rewrite (move_image w Hd). split.
  - intros Hf Htop. destruct (move_horizontal_x (move_vertical w)) as [Hy _].
    rewrite Hy. unfold move_vertical, top_edge in *.
    rewrite Hf, (Qle_bool_lt_false _ _ Htop). reflexivity.
  - intros Hr Hright.
    destruct (move_vertical_same_motion_x w) as [c1 [c2 [c3 [c4 [c5 [c6 c7]]]]]].
    unfold move_horizontal. rewrite c1, c3, c4.
    assert (Hg : Qle_bool (inject_Z (World.display_width w))
                   (Image.x (Sprite.image (World.ship (move_vertical w)))
                    + inject_Z
                        (Image.width
                           (Sprite.image (World.ship (move_vertical w))) / 2))
                 = false).
    { apply Qle_bool_lt_false. rewrite c5, c6. exact Hright. }
    rewrite Hr, Hg. simpl. rewrite c5. reflexivity.
Qed.

(** X5. A forward motion stopped by the top edge does not end the vertical
    step: the [elif] is still tried, so with Up and Down both held and the
    ship at the top, the ship moves down by [speed / 2]. *)
Theorem blocked_forward_falls_through_to_backward (w : World.t) :
  distinct_ids w ->
  Controller.moving_forward (World.controller w) = true ->
  Controller.moving_backward (World.controller w) = true ->
  (top_edge w <= 0)%Q ->
  (bottom_edge w < inject_Z (World.display_height w))%Q ->
  Image.y (Sprite.image (World.ship (move w)))
  = (Image.y (Sprite.image (World.ship w))
     + inject_Z (Controller.speed (World.controller w) / 2))%Q.
Proof.
  intros Hd Hf Hb Htop Hbot. rewrite (move_image w Hd).
  destruct (move_horizontal_x (move_vertical w)) as [Hy _]. rewrite Hy.
  unfold move_vertical, top_edge, bottom_edge in *.
  rewrite Hf, Hb, (Qle_bool_le_true _ _ Htop), (Qle_bool_lt_false _ _ Hbot).
  reflexivity.
Qed.

Lemma move_vertical_edges (w : World.t) :
  0 <= Controller.speed (World.controller w) ->
  ((top_edge w <= 0)%Q -> (top_edge w <= top_edge (move_vertical w))%Q) /\
  ((inject_Z (World.display_height w) <= bottom_edge w)%Q ->
   (bottom_edge (move_vertical w) <= bottom_edge w)%Q) /\
  left_edge (move_vertical w) = left_edge w /\
  right_edge (move_vertical w) = right_edge w.
Proof.
  intros Hs.
  pose proof (inject_Z_nonneg _ Hs) as Hq.
  pose proof (inject_Z_nonneg _ (Z.div_pos _ 2 Hs ltac:(lia))) as Hq2.
  unfold move_vertical.
  destruct (Controller.moving_forward (World.controller w)
            && negb (Qle_bool
                       (Image.y (Sprite.image (World.ship w))
                        - inject_Z (Image.height (Sprite.image (World.ship w)) / 2))
                       0)) eqn:E1.
  - apply guard_true in E1. destruct E1 as [_ Hlt].
    unfold top_edge, bottom_edge, left_edge, right_edge. simpl.
    repeat split; try reflexivity; intros; lra.
  - destruct (Controller.moving_backward (World.controller w)
              && negb (Qle_bool (inject_Z (World.display_height w))
                         (Image.y (Sprite.image (World.ship w))
                          + inject_Z
                              (Image.height (Sprite.image (World.ship w)) / 2))))
      eqn:E2.
    + apply guard_true in E2. destruct E2 as [_ Hlt].
      unfold top_edge, bottom_edge, left_edge, right_edge. simpl.
      repeat split; try reflexivity; intros; lra.
    + repeat split; try reflexivity; intros; apply Qle_refl.
Qed.

Lemma move_horizontal_edges (w : World.t) :
  0 <= Controller.speed (World.controller w) ->
  ((left_edge w <= 0)%Q -> (left_edge w <= left_edge (move_horizontal w))%Q) /\
  ((inject_Z (World.display_width w) <= right_edge w)%Q ->
   (right_edge (move_horizontal w) <= right_edge w)%Q) /\
  top_edge (move_horizontal w) = top_edge w /\
  bottom_edge (move_horizontal w) = bottom_edge w.
Proof.
  intros Hs.
  pose proof (inject_Z_nonneg _ Hs) as Hq.
  unfold move_horizontal.
  destruct (Controller.moving_right (World.controller w)
            && negb (Qle_bool (inject_Z (World.display_width w))
                       (Image.x (Sprite.image (World.ship w))
                        + inject_Z
                            (Image.width (Sprite.image (World.ship w)) / 2))))
    eqn:E1.
  - apply guard_true in E1. destruct E1 as [_ Hlt].
    unfold top_edge, bottom_edge, left_edge, right_edge. simpl.
    repeat split; try reflexivity; intros; lra.
  - destruct (Controller.moving_left (World.controller w)
              && negb (Qle_bool
                         (Image.x (Sprite.image (World.ship w))
                          - inject_Z
                              (Image.width (Sprite.image (World.ship w)) / 2))
                         0)) eqn:E2.
    + apply guard_true in E2. destruct E2 as [_ Hlt].
      unfold top_edge, bottom_edge, left_edge, right_edge. simpl.
      repeat split; try reflexivity; intros; lra.
    + repeat split; try reflexivity; intros; apply Qle_refl.
Qed.

(** X6. An edge that has reached its bound is never pushed further out:
    when the top edge of the ship is at or above the top of the play area,
    [move] does not raise it, whatever keys are held; the same holds for the
    bottom edge at the display height, the left edge at zero and the right
    edge at the display width. *)
Theorem reached_edge_is_not_pushed_further (w : World.t) :
  distinct_ids w ->
  0 <= Controller.speed (World.controller w) ->
  ((top_edge w <= 0)%Q -> (top_edge w <= top_edge (move w))%Q) /\
  ((inject_Z (World.display_height w) <= bottom_edge w)%Q ->
   (bottom_edge (move w) <= bottom_edge w)%Q) /\
  ((left_edge w <= 0)%Q -> (left_edge w <= left_edge (move w))%Q) /\
  ((inject_Z (World.display_width w) <= right_edge w)%Q ->
   (right_edge (move w) <= right_edge w)%Q).
Proof.
  intros Hd Hs.
  assert (Et : top_edge (move w) = top_edge (move_horizontal (move_vertical w)))
    by (unfold top_edge; rewrite (move_image w Hd); reflexivity).
  assert (Eb : bottom_edge (move w)
               = bottom_edge (move_horizontal (move_vertical w)))
    by (unfold bottom_edge; rewrite (move_image w Hd); reflexivity).
  assert (El : left_edge (move w) = left_edge (move_horizontal (move_vertical w)))
    by (unfold left_edge; rewrite (move_image w Hd); reflexivity).
  assert (Er : right_edge (move w)
               = right_edge (move_horizontal (move_vertical w)))
    by (unfold right_edge; rewrite (move_image w Hd); reflexivity).
  rewrite Et, Eb, El, Er.
  destruct (move_vertical_edges w Hs) as [v1 [v2 [v3 v4]]].
  destruct (move_vertical_same_motion_x w) as [_ [_ [c3 [c4 _]]]].
  assert (Hs' : 0 <= Controller.speed (World.controller (move_vertical w)))
    by (rewrite c3; exact Hs).
  destruct (move_horizontal_edges (move_vertical w) Hs') as [h1 [h2 [h3 h4]]].
  rewrite h3, h4. rewrite v3 in h1. rewrite v4, c4 in h2.
  repeat split; assumption.
Qed.

(** X7. Without the fire key no projectile appears: a call of [move] with
    [firing] unset never leaves more projectiles in flight than it found. *)
Theorem no_fire_key_no_new_projectile (w : World.t) :
  Controller.firing (World.controller w) = false ->
  (length (projectiles (move w)) <= length (projectiles w))%nat.
Proof.
  intros Hf. rewrite move_unfold.
  set (w3 := move_horizontal
               (move_vertical (move_distance (sprite_controller_move w)))).
  destruct (move_motion_outside w) as [b1 [b2 [b3 [b4 [b5 b6]]]]].
  fold w3 in b1, b2, b3, b4, b5, b6.
  assert (Ef : move_fire w3 = w3).
  { unfold move_fire. rewrite b6, Hf. reflexivity. }
  unfold move_rest. rewrite Ef.
  destruct (check_player_collisions_in_outside
              (World.asteroids (update_projectiles w3))
              (update_projectiles w3)) as [c1 _].
  unfold check_player_collisions, projectiles at 1. rewrite c1.
  fold (projectiles (update_projectiles w3)).
  pose proof (update_projectiles_from_length (length (projectiles w3)) 0 w3)
    as L1.
  fold (update_projectiles w3) in L1. rewrite b3 in L1. exact L1.
Qed.

(** ** One collision per frame *)

Lemma set_health_same (s : Sprite.t) : Sprite.set_health (Sprite.health s) s = s.
Proof. destruct s. reflexivity. Qed.

Lemma set_ship_same (w : World.t) : World.set_ship (World.ship w) w = w.
Proof. destruct w. reflexivity. Qed.

(** X8. The player is hurt by one asteroid per frame at most, the first in
    the parent's list that overlaps the ship: with the player alive and
    damageable, [check_player_collisions] takes that asteroid's damage off the
    health and changes nothing else, however many asteroids further down the
    list overlap the ship as well. *)
Theorem player_hurt_by_first_overlap_only
  (w : World.t) (pre post : list Sprite.t) (a : Sprite.t) :
  World.asteroids w = pre ++ a :: post ->
  (forall b, In b pre ->
             collide_point (Sprite.image b) (Sprite.image (World.ship w)) = false) ->
  collide_point (Sprite.image a) (Sprite.image (World.ship w)) = true ->
  Sprite.can_damage (World.ship w) = true ->
  0 < Sprite.health (World.ship w) ->
  check_player_collisions w
  = World.set_ship
      (Sprite.set_health (Sprite.health (World.ship w) - Sprite.damage a)
         (World.ship w)) w.
Proof.
  intros Hl Hpre Ha Hcd Hh. unfold check_player_collisions. rewrite Hl.
  rewrite (check_player_collisions_in_first pre post a w Hpre Ha).
  unfold hurt. rewrite Hcd. simpl.
  assert (E : (Sprite.health (World.ship w) <=? 0) = false)
    by (apply Z.leb_gt; exact Hh).
  rewrite E. unfold put_sprite. simpl. rewrite Nat.eqb_refl. reflexivity.
Qed.

Lemma check_player_collisions_in_none (l : list Sprite.t) (w : World.t) :
  (forall a, In a l ->
             collide_point (Sprite.image a) (Sprite.image (World.ship w)) = false) ->
  check_player_collisions_in l w = w.
Proof.
  induction l as [|a l IH]; simpl; intros H; [reflexivity|].
  rewrite (H a) by (left; reflexivity).
  apply IH. intros b Hb. apply H. right. exact Hb.
Qed.

Lemma check_player_collisions_in_immune (l : list Sprite.t) (w : World.t) :
  Sprite.can_damage (World.ship w) = false ->
  check_player_collisions_in l w = w.
Proof.
  intros Hcd. induction l as [|a l IH]; simpl; [reflexivity|].
  destruct (collide_point (Sprite.image a) (Sprite.image (World.ship w)));
    [|exact IH].
  unfold hurt. rewrite Hcd. reflexivity.
Qed.

(** X9. [check_player_collisions] leaves the whole world as it is when no
    asteroid of the list overlaps the ship, and also when the ship has
    [can_damage] unset, whatever overlaps it: an immune player loses no
    health and cannot die. *)
Theorem no_overlap_or_immunity_changes_nothing (w : World.t) :
  (forall a, In a (World.asteroids w) ->
             collide_point (Sprite.image a) (Sprite.image (World.ship w)) = false)
  \/ Sprite.can_damage (World.ship w) = false ->
  check_player_collisions w = w.
Proof.
  intros [H | H]; unfold check_player_collisions.
  - apply check_player_collisions_in_none. exact H.
  - apply check_player_collisions_in_immune. exact H.
Qed.

(** X10. An asteroid of damage zero, as every power-up carrier is, does
    nothing to a living player it overlaps: when the first overlapping
    asteroid has damage 0 and the player's health is positive,
    [check_player_collisions] leaves the whole world as it is; the carrier is
    neither collected nor removed. *)
Theorem harmless_overlap_changes_nothing
  (w : World.t) (pre post : list Sprite.t) (a : Sprite.t) :
  World.asteroids w = pre ++ a :: post ->
  (forall b, In b pre ->
             collide_point (Sprite.image b) (Sprite.image (World.ship w)) = false) ->
  collide_point (Sprite.image a) (Sprite.image (World.ship w)) = true ->
  Sprite.damage a = 0 ->
  0 < Sprite.health (World.ship w) ->
  check_player_collisions w = w.
Proof.
  intros Hl Hpre Ha Hd Hh. unfold check_player_collisions. rewrite Hl.
  rewrite (check_player_collisions_in_first pre post a w Hpre Ha).
  unfold hurt. destruct (negb (Sprite.can_damage (World.ship w)));
    [reflexivity|].
  assert (E : (Sprite.health (World.ship w) <=? 0) = false)
    by (apply Z.leb_gt; exact Hh).
  rewrite E, Hd, Z.sub_0_r, set_health_same.
  unfold put_sprite. rewrite Nat.eqb_refl. apply set_ship_same.
Qed.

(** X11. A carrier shot while the player already holds an attachment is
    used up for nothing: the projectile hit still runs the carrier's [die],
    the offer is rejected with the deny sound, the attachment held stays, no
    [setup] runs, and the carrier leaves the asteroid list all the same. *)
Theorem carrier_shot_while_holding_is_wasted
  (w : World.t) (p : Projectile) (pre post : list Sprite.t) (a : Sprite.t)
  (k : AttachmentKind) (cur : Attachment) :
  World.asteroids w = pre ++ a :: post ->
  NoDup (map Sprite.id (World.asteroids w)) ->
  (forall b, In b pre -> collide_point (pimage p) (Sprite.image b) = false) ->
  collide_point (pimage p) (Sprite.image a) = true ->
  Sprite.cls a = ClsMechanismAsteroid k ->
  Sprite.can_damage a = true ->
  Sprite.health a <= 0 ->
  Sprite._attachment (World.ship w) = Some cur ->
  let r := check_projectile_collisions p w in
  fst r = true /\
  Sprite._attachment (World.ship (snd r)) = Some cur /\
  World.asteroids (snd r) = pre ++ post /\
  World.log (snd r)
  = World.log w
    ++ [EvCollisionTest (pid p);
        EvDie (Sprite.id a) (Sprite.id (World.ship w))]
    ++ (if playing (Sprite.attachment_deny_sound (World.ship w))
        then [EvStop AttachmentDenySound] else [])
    ++ [EvPlay AttachmentDenySound; EvRemoveAsteroid (Sprite.id a) false].
Proof.
  intros Hl Hnd Hpre Ha Hcls Hcd Hh Hcur r.
  assert (Er : r = (true,
                    hurt a (World.ship w)
                      (World.emit [EvCollisionTest (pid p)] w))).
  { unfold r, check_projectile_collisions. rewrite Hl.
    apply (check_projectile_collisions_in_first pre post a p
             (World.emit [EvCollisionTest (pid p)] w) Hpre Ha). }
  rewrite Er. simpl. unfold hurt. rewrite Hcd. simpl.
  apply Z.leb_le in Hh. rewrite Hh. unfold die. rewrite Hcls. simpl.
  unfold grant, attachment_setter. simpl. rewrite Hcur. simpl.
  unfold restart, put_sprite. simpl.
  destruct (playing (Sprite.attachment_deny_sound (World.ship w))); simpl;
    rewrite Nat.eqb_refl; simpl; rewrite <- !app_assoc; simpl;
    (split; [reflexivity|]); (split; [exact Hcur|]);
    (split; [|reflexivity]);
    rewrite Hl; apply remove_sprite_middle; rewrite <- Hl; exact Hnd.
Qed.

(** ** How many hits an asteroid takes *)

Lemma set_health_twice (v v' : Z) (s : Sprite.t) :
  Sprite.set_health v (Sprite.set_health v' s) = Sprite.set_health v s.
Proof. destruct s. reflexivity. Qed.

Lemma strike_none (n i : nat) (w : World.t) :
  find (fun a => Nat.eqb (Sprite.id a) i) (World.asteroids w) = None ->
  strike n i w = w.
Proof. intros H. destruct n; simpl; [reflexivity|rewrite H; reflexivity]. Qed.

Lemma strike_app (n m i : nat) (w : World.t) :
  strike (n + m) i w = strike m i (strike n i w).
Proof.
  revert w. induction n as [|n IH]; intros w; [reflexivity|].
  simpl.
  destruct (find (fun a => Nat.eqb (Sprite.id a) i) (World.asteroids w)) eqn:E.
  - apply IH.
  - symmetry. apply strike_none. exact E.
Qed.

(** Hits that find the asteroid with positive health only subtract. *)
Lemma strike_survived (n : nat) :
  forall (a : Sprite.t) (w : World.t),
    find (fun x => Nat.eqb (Sprite.id x) (Sprite.id a)) (World.asteroids w)
    = Some a ->
    Sprite.can_damage a = true ->
    Sprite.id a <> Sprite.id (World.ship w) ->
    0 <= Sprite.damage (World.ship w) ->
    (Z.of_nat n - 1) * Sprite.damage (World.ship w) < Sprite.health a ->
    World.ship (strike n (Sprite.id a) w) = World.ship w /\
    World.log (strike n (Sprite.id a) w) = World.log w /\
    map Sprite.id (World.asteroids (strike n (Sprite.id a) w))
    = map Sprite.id (World.asteroids w) /\
    find (fun x => Nat.eqb (Sprite.id x) (Sprite.id a))
      (World.asteroids (strike n (Sprite.id a) w))
    = Some (Sprite.set_health
              (Sprite.health a - Z.of_nat n * Sprite.damage (World.ship w)) a).
Proof.
  induction n as [|n IH]; intros a w Hfind Hcd Hne Hd Hlt.
  - cbn [strike]. repeat split; try reflexivity.
    rewrite Hfind. f_equal. rewrite <- (set_health_same a) at 1.
    f_equal. lia.
  - cbn [strike]. rewrite Hfind.
    assert (Hpos : 0 < Sprite.health a) by nia.
    assert (Eh : hurt a (World.ship w) w
                 = World.set_asteroids
                     (replace_sprite
                        (Sprite.set_health
                           (Sprite.health a - Sprite.damage (World.ship w)) a)
                        (World.asteroids w)) w).
    { unfold hurt. rewrite Hcd. simpl.
      assert (E : (Sprite.health a <=? 0) = false) by (apply Z.leb_gt; lia).
      rewrite E. unfold put_sprite. simpl.
      assert (E2 : Nat.eqb (Sprite.id a) (Sprite.id (World.ship w)) = false)
        by (apply Nat.eqb_neq; exact Hne).
      rewrite E2. reflexivity. }
    rewrite Eh.
    set (a' := Sprite.set_health
                 (Sprite.health a - Sprite.damage (World.ship w)) a).
    set (w' := World.set_asteroids (replace_sprite a' (World.asteroids w)) w).
    assert (Hfind' : find (fun x => Nat.eqb (Sprite.id x) (Sprite.id a'))
                       (World.asteroids w') = Some a')
      by (apply (find_replace_sprite a' a); exact Hfind).
    destruct (IH a' w' Hfind' Hcd Hne Hd) as [I1 [I2 [I3 I4]]].
    { change (Sprite.health a')
        with (Sprite.health a - Sprite.damage (World.ship w)).
      change (World.ship w') with (World.ship w). nia. }
    change (Sprite.id a') with (Sprite.id a) in *.
    split; [exact I1|]. split; [exact I2|]. split.
    + rewrite I3. apply map_id_replace_sprite.
    + rewrite I4. f_equal. unfold a'. rewrite set_health_twice.
      f_equal. change (World.ship w') with (World.ship w).
      change (Sprite.health
                (Sprite.set_health
                   (Sprite.health a - Sprite.damage (World.ship w)) a))
        with (Sprite.health a - Sprite.damage (World.ship w)).
      lia.
Qed.

(** X12. Death comes one hit after the health is used up.  For a plain
    asteroid of health [h] shot by a ship of damage [d > 0], let [k] be the
    number of hits that brings the health to zero or below
    ([(k - 1) * d < h <= k * d]).  After those [k] hits the asteroid is still
    in the list, with health [h - k * d], and nothing has been logged; it is
    hit number [k + 1] that explodes it and removes it. *)
Theorem asteroid_dies_one_hit_late (w : World.t) (a : Sprite.t) (k : nat) :
  find (fun x => Nat.eqb (Sprite.id x) (Sprite.id a)) (World.asteroids w)
  = Some a ->
  Sprite.cls a = ClsAsteroid ->
  Sprite.can_damage a = true ->
  Sprite.id a <> Sprite.id (World.ship w) ->
  NoDup (map Sprite.id (World.asteroids w)) ->
  0 < Sprite.damage (World.ship w) ->
  (Z.of_nat k - 1) * Sprite.damage (World.ship w) < Sprite.health a ->
  Sprite.health a <= Z.of_nat k * Sprite.damage (World.ship w) ->
  (find (fun x => Nat.eqb (Sprite.id x) (Sprite.id a))
     (World.asteroids (strike k (Sprite.id a) w))
   = Some (Sprite.set_health
             (Sprite.health a - Z.of_nat k * Sprite.damage (World.ship w)) a) /\
   World.log (strike k (Sprite.id a) w) = World.log w) /\
  (find (fun x => Nat.eqb (Sprite.id x) (Sprite.id a))
     (World.asteroids (strike (S k) (Sprite.id a) w))
   = None /\
   World.log (strike (S k) (Sprite.id a) w)
   = World.log w
     ++ [EvDie (Sprite.id a) (Sprite.id (World.ship w));
         EvExplode (Image.x (Sprite.image a)) (Image.y (Sprite.image a));
         EvRemoveAsteroid (Sprite.id a) true]).
Proof.
  intros Hfind Hcls Hcd Hne Hnd Hd Hlo Hhi.
  destruct (strike_survived k a w Hfind Hcd Hne ltac:(lia) Hlo)
    as [I1 [I2 [I3 I4]]].
  split; [split; [exact I4|exact I2]|].
  replace (S k) with (k + 1)%nat by lia. rewrite strike_app.
  set (wk := strike k (Sprite.id a) w) in *.
  set (ak := Sprite.set_health
               (Sprite.health a - Z.of_nat k * Sprite.damage (World.ship w)) a)
    in *.
  cbn [strike]. rewrite I4.
  assert (Eh : hurt ak (World.ship wk) wk
               = remove_asteroid ak true
                   (explode (Image.x (Sprite.image ak)) (Image.y (Sprite.image ak))
                      (World.emit
                         [EvDie (Sprite.id ak) (Sprite.id (World.ship wk))] wk))).
  { unfold hurt. change (Sprite.can_damage ak) with (Sprite.can_damage a).
    rewrite Hcd. cbn [negb].
    assert (E : (Sprite.health ak <=? 0) = true).
    { apply Z.leb_le. unfold ak. simpl. lia. }
    rewrite E. unfold die. change (Sprite.cls ak) with (Sprite.cls a).
    rewrite Hcls. reflexivity. }
  rewrite Eh. split.
  - simpl. change (Sprite.id ak) with (Sprite.id a).
    apply find_remove_sprite. rewrite I3. exact Hnd.
  - simpl. rewrite I2, I1. rewrite <- !app_assoc. reflexivity.
Qed.

(** ** What a pass over the projectiles destroys *)

Lemma destroyed_in_app (es es' : list Event) :
  destroyed_in (es ++ es') = destroyed_in es ++ destroyed_in es'.
Proof.
  induction es as [|e es IH]; simpl; [reflexivity|].
  destruct e; simpl; rewrite IH; reflexivity.
Qed.

Lemma destroyed_in_quiet (es : list Event) :
  Forall quiet es -> destroyed_in es = [].
Proof.
  induction 1 as [|e es He _ IH]; simpl; [reflexivity|].
  destruct e; try exact IH.
  exfalso. apply (He p). left. reflexivity.
Qed.

Lemma destroyed_in_iff (es : list Event) (r : nat) :
  In r (destroyed_in es) <-> In (EvDestroy r) es.
Proof.
  induction es as [|e es IH]; simpl; [split; intros []|].
  destruct e; simpl; rewrite IH; split; intros H;
    try (right; exact H);
    try (destruct H as [H | H]; [discriminate H|exact H]).
  - destruct H as [H | H]; [left; congruence|right; exact H].
  - destruct H as [H | H]; [left; congruence|right; exact H].
Qed.

Lemma without_split (l : list nat) (i a : nat) :
  nth_error l i = Some a -> l = firstn i l ++ a :: skipn (S i) l.
Proof.
  intros H. rewrite <- (skipn_nth_error_cons _ l i a H).
  symmetry. apply firstn_skipn.
Qed.

Lemma without_incl (l : list nat) (i : nat) :
  incl (firstn i l ++ skipn (S i) l) l.
Proof.
  intros r H. apply in_app_or in H. destruct H as [H | H].
  - rewrite <- (firstn_skipn i l). apply in_or_app. left. exact H.
  - apply (in_skipn_weaken l 0 (S i)); [lia|exact H].
Qed.

Lemma without_not_in (l : list nat) (i a : nat) :
  NoDup l -> nth_error l i = Some a -> ~ In a (firstn i l ++ skipn (S i) l).
Proof.
  intros Hnd H. rewrite (without_split l i a H) in Hnd.
  apply NoDup_remove_2 in Hnd. exact Hnd.
Qed.

Lemma without_in_other (l : list nat) (i a r : nat) :
  nth_error l i = Some a -> In r l -> r <> a ->
  In r (firstn i l ++ skipn (S i) l).
Proof.
  intros H Hin Hne. rewrite (without_split l i a H) in Hin.
  apply in_app_or in Hin. apply in_or_app.
  destruct Hin as [Hin | [Hin | Hin]];
    [left; exact Hin|exfalso; apply Hne; symmetry; exact Hin|right; exact Hin].
Qed.

(** One turn either destroys the projectile it visits, once, and takes it out
    of the list, or destroys nothing and keeps the identities of the list. *)
Lemma update_projectile_destroys (i : nat) (p : Projectile) (w : World.t) :
  nth_error (projectiles w) i = Some p ->
  NoDup (pids w) ->
  exists T,
    World.log (update_projectile i p w) = World.log w ++ T /\
    ((destroyed_in T = [pid p] /\
      pids (update_projectile i p w) = firstn i (pids w) ++ skipn (S i) (pids w))
     \/ (destroyed_in T = [] /\ pids (update_projectile i p w) = pids w)).
Proof.
  intros Hn Hnd. unfold update_projectile.
  destruct (Qle_bool (Image.y (pimage p)) 0).
  - exists [EvDestroy (pid p)]. split; [reflexivity|]. left.
    split; [reflexivity|].
    apply (pids_remove_projectile (projectiles w) i p Hnd Hn).
  - destruct (check_projectile_collisions_log p w) as [es [Hlog Hq]].
    destruct (check_projectile_collisions_outside p w) as [Hc _].
    destruct (check_projectile_collisions p w) as [hit w1]. simpl in Hlog, Hc.
    destruct hit.
    + exists (EvCollisionTest (pid p) :: es ++ [EvDestroy (pid p)]). split.
      { unfold destroy_projectile. simpl. rewrite Hlog.
        rewrite <- app_assoc. reflexivity. }
      left. split.
      * simpl. rewrite destroyed_in_app, (destroyed_in_quiet es Hq).
        reflexivity.
      * unfold pids, destroy_projectile, projectiles in *. simpl.
        rewrite Hc. apply (pids_remove_projectile _ i p Hnd Hn).
    + eexists (EvCollisionTest (pid p) :: es ++ [EvMoved (pid p) _]). split.
      { simpl. rewrite Hlog. rewrite <- app_assoc. reflexivity. }
      right. split.
      * simpl. rewrite destroyed_in_app, (destroyed_in_quiet es Hq).
        reflexivity.
      * unfold pids, projectiles in *. simpl.
        rewrite pids_move_projectile_at, Hc. reflexivity.
Qed.

Lemma update_projectiles_from_destroyed (fuel : nat) :
  forall (i : nat) (w : World.t),
    NoDup (pids w) ->
    exists T,
      World.log (update_projectiles_from fuel i w) = World.log w ++ T /\
      NoDup (destroyed_in T) /\
      (forall r, In r (destroyed_in T) ->
                 In r (pids w) /\
                 ~ In r (pids (update_projectiles_from fuel i w))) /\
      (forall r, In r (pids w) -> ~ In r (destroyed_in T) ->
                 In r (pids (update_projectiles_from fuel i w))) /\
      NoDup (pids (update_projectiles_from fuel i w)) /\
      incl (pids (update_projectiles_from fuel i w)) (pids w).
Proof.
  induction fuel as [|fuel IH]; intros i w Hnd.
  - exists []. cbn [update_projectiles_from]. rewrite app_nil_r.
    split; [reflexivity|]. split; [constructor|].
    split; [intros r []|]. split; [intros r Hr _; exact Hr|].
    split; [exact Hnd|apply incl_refl].
  - cbn [update_projectiles_from].
    destruct (nth_error (projectiles w) i) as [p0|] eqn:E.
    2:{ exists []. rewrite app_nil_r.
        split; [reflexivity|]. split; [constructor|].
        split; [intros r []|]. split; [intros r Hr _; exact Hr|].
        split; [exact Hnd|apply incl_refl]. }
    destruct (update_projectile_destroys i p0 w E Hnd) as [T0 [HL0 Hcase]].
    pose proof (nth_error_pids w i p0 E) as Hi.
    set (w' := update_projectile i p0 w) in *.
    destruct Hcase as [[HD0 Hrem] | [HD0 Hsame]].
    + assert (Hnd' : NoDup (pids w'))
        by (rewrite Hrem; apply nodup_without; exact Hnd).
      destruct (IH (S i) w' Hnd') as [T' [HL' [P1 [P2 [P3 [P4 P5]]]]]].
      assert (Hgone : ~ In (pid p0) (pids w'))
        by (rewrite Hrem; apply (without_not_in _ _ _ Hnd Hi)).
      assert (Hsub : incl (pids w') (pids w))
        by (rewrite Hrem; apply without_incl).
      exists (T0 ++ T'). split; [rewrite HL', HL0, app_assoc; reflexivity|].
      rewrite destroyed_in_app, HD0. cbn [app].
      split; [|split; [|split; [|split]]].
      * constructor; [|exact P1].
        intros Hin. apply Hgone. apply (P2 _ Hin).
      * intros r [Hr | Hr].
        -- subst r. split; [eapply nth_error_In; exact Hi|].
           intros Hin. apply Hgone. apply P5. exact Hin.
        -- destruct (P2 r Hr) as [Q1 Q2]. split; [apply Hsub; exact Q1|exact Q2].
      * intros r Hr Hnot. apply P3.
        -- rewrite Hrem. apply (without_in_other _ i (pid p0)); try assumption.
           intros Er. apply Hnot. left. symmetry. exact Er.
        -- intros Hin. apply Hnot. right. exact Hin.
      * exact P4.
      * eapply incl_tran; eassumption.
    + assert (Hnd' : NoDup (pids w')) by (rewrite Hsame; exact Hnd).
      destruct (IH (S i) w' Hnd') as [T' [HL' [P1 [P2 [P3 [P4 P5]]]]]].
      exists (T0 ++ T'). split; [rewrite HL', HL0, app_assoc; reflexivity|].
      rewrite destroyed_in_app, HD0. cbn [app]. rewrite Hsame in P2, P3, P5.
      repeat split; try assumption; try apply (P2 r); assumption.
Qed.

(** X13. In one pass of [update_projectiles] a projectile is destroyed at
    most once, for leaving through the top or for a hit, never both; the
    destroyed projectiles are exactly the ones of the collection that are no
    longer in it after the pass, and the pass adds none. *)
Theorem projectile_destroyed_at_most_once (w : World.t) (T : list Event) :
  NoDup (pids w) ->
  World.log (update_projectiles w) = World.log w ++ T ->
  NoDup (destroyed_in T) /\
  (forall r, In r (destroyed_in T) ->
             In r (pids w) /\ ~ In r (pids (update_projectiles w))) /\
  (forall r, In r (pids w) -> ~ In r (destroyed_in T) ->
             In r (pids (update_projectiles w))) /\
  NoDup (pids (update_projectiles w)) /\
  incl (pids (update_projectiles w)) (pids w).
Proof.
  intros Hnd HT. unfold update_projectiles in *.
  destruct (update_projectiles_from_destroyed (length (projectiles w)) 0 w Hnd)
    as [T1 [HL H]].
  assert (ET : T1 = T) by (rewrite HL in HT; apply app_inv_head in HT; exact HT).
  subst T1. exact H.
Qed.

(** ** Where a pass leaves the projectiles *)

Lemma risen_refl (l : list Projectile) : risen l l.
Proof.
  intros q Hq. exists q. repeat split; try assumption; try reflexivity.
  apply Qle_refl.
Qed.

Lemma risen_trans (l1 l2 l3 : list Projectile) :
  risen l1 l2 -> risen l2 l3 -> risen l1 l3.
Proof.
  intros H12 H23 q3 Hq3.
  destruct (H23 q3 Hq3) as [q2 [Hq2 [a1 [a2 [a3 [a4 a5]]]]]].
  destruct (H12 q2 Hq2) as [q1 [Hq1 [b1 [b2 [b3 [b4 b5]]]]]].
  exists q1. repeat split; try congruence; try assumption.
  eapply Qle_trans; eassumption.
Qed.

Lemma in_remove_projectile (q : Projectile) (i : nat) (l : list Projectile) :
  In q (remove_projectile i l) -> In q l.
Proof.
  induction l as [|x l IH]; simpl; [trivial|].
  destruct (Nat.eqb (pid x) i); [intros H; right; exact H|].
  intros [H | H]; [left; exact H|right; apply IH; exact H].
Qed.

Lemma risen_remove_projectile (i : nat) (l : list Projectile) :
  risen l (remove_projectile i l).
Proof.
  intros q Hq. exists q. split; [eapply in_remove_projectile; exact Hq|].
  repeat split; try reflexivity. apply Qle_refl.
Qed.

Lemma risen_move_projectile_at (i : nat) (dy : Q) (l : list Projectile) :
  (0 <= dy)%Q -> risen l (move_projectile_at i dy l).
Proof.
  intros Hdy. revert i. induction l as [|x l IH]; intros [|i] q Hq;
    simpl in Hq; try contradiction.
  - destruct Hq as [Hq | Hq].
    + exists x. split; [left; reflexivity|]. subst q. simpl.
      repeat split; try reflexivity. lra.
    + exists q. split; [right; exact Hq|].
      repeat split; try reflexivity. apply Qle_refl.
  - destruct Hq as [Hq | Hq].
    + exists q. split; [left; exact Hq|].
      repeat split; try reflexivity. apply Qle_refl.
    + destruct (IH i q Hq) as [q0 [Hq0 H]].
      exists q0. split; [right; exact Hq0|exact H].
Qed.

Lemma update_projectile_projectile_speed (i : nat) (p : Projectile)
  (w : World.t) :
  Controller.projectile_speed (World.controller (update_projectile i p w))
  = Controller.projectile_speed (World.controller w).
Proof.
  unfold update_projectile.
  destruct (Qle_bool (Image.y (pimage p)) 0); [reflexivity|].
  destruct (check_projectile_collisions_outside p w) as [Hc _].
  destruct (check_projectile_collisions p w) as [hit w1]. simpl in Hc.
  destruct hit; simpl; rewrite Hc; reflexivity.
Qed.

Lemma update_projectile_risen (i : nat) (p : Projectile) (w : World.t) :
  (forall n, 0 <= random n)%Q ->
  0 <= Controller.projectile_speed (World.controller w) ->
  risen (projectiles w) (projectiles (update_projectile i p w)).
Proof.
  intros Hr Hs. unfold update_projectile.
  destruct (Qle_bool (Image.y (pimage p)) 0);
    [apply risen_remove_projectile|].
  destruct (check_projectile_collisions_outside p w) as [Hc _].
  destruct (check_projectile_collisions p w) as [hit w1]. simpl in Hc.
  assert (Hp : projectiles w1 = projectiles w)
    by (unfold projectiles; rewrite Hc; reflexivity).
  destruct hit.
  - unfold destroy_projectile, projectiles in *. simpl. rewrite Hp.
    apply risen_remove_projectile.
  - unfold projectiles in *. simpl. rewrite Hp, Hc.
    apply risen_move_projectile_at.
    apply Qmult_le_0_compat; [|lra].
    apply Qmult_le_0_compat; [apply Hr|apply inject_Z_nonneg; exact Hs].
Qed.

(** X14. Projectiles only go up.  When the generator returns non-negative
    numbers and the projectile speed is not negative, every projectile left
    in the collection by [update_projectiles] was in it before the pass, with
    the same horizontal position and size, and it is not lower than it was. *)
Theorem projectiles_only_go_up (w : World.t) :
  (forall n, 0 <= random n)%Q ->
  0 <= Controller.projectile_speed (World.controller w) ->
  risen (projectiles w) (projectiles (update_projectiles w)).
Proof.
  intros Hr Hs. unfold update_projectiles.
  generalize (length (projectiles w)) at 1. intros fuel.
  generalize 0%nat. revert w Hs.
  induction fuel as [|fuel IH]; intros w Hs i; cbn [update_projectiles_from];
    [apply risen_refl|].
  destruct (nth_error (projectiles w) i) as [p|]; [|apply risen_refl].
  eapply risen_trans; [apply (update_projectile_risen i p w Hr Hs)|].
  apply IH. rewrite update_projectile_projectile_speed. exact Hs.
Qed.

(** ** Projectiles are distinct objects *)

Lemma grant_next_id (s : Sprite.t) (o : option Attachment) (w : World.t) :
  World.next_id (grant s o w) = World.next_id w.
Proof.
  rewrite grant_unfold. simpl. unfold put_sprite.
  destruct (Nat.eqb (Sprite.id (fst (attachment_setter s o)))
              (Sprite.id (World.ship w))); reflexivity.
Qed.

Lemma hurt_next_id (self attacker : Sprite.t) (w : World.t) :
  (World.next_id w <= World.next_id (hurt self attacker w))%nat.
Proof.
  unfold hurt. destruct (negb (Sprite.can_damage self)); [lia|].
  destruct (Sprite.health self <=? 0).
  - unfold die. destruct (Sprite.cls self); simpl; try lia.
    rewrite grant_next_id. simpl. lia.
  - unfold put_sprite.
    destruct (Nat.eqb
                (Sprite.id
                   (Sprite.set_health
                      (Sprite.health self - Sprite.damage attacker) self))
                (Sprite.id (World.ship w))); simpl; lia.
Qed.

Lemma check_projectile_collisions_next_id (p : Projectile) (w : World.t) :
  (World.next_id w <= World.next_id (snd (check_projectile_collisions p w)))%nat.
Proof.
  unfold check_projectile_collisions.
  assert (H : forall l w1,
             (World.next_id w1
              <= World.next_id (snd (check_projectile_collisions_in l p w1)))%nat).
  { induction l as [|a l IH]; intros w1; simpl; [lia|].
    destruct (collide_point (pimage p) (Sprite.image a)); simpl;
      [apply hurt_next_id|apply IH]. }
  apply (H (World.asteroids w) (World.emit [EvCollisionTest (pid p)] w)).
Qed.

Lemma check_player_collisions_next_id (w : World.t) :
  (World.next_id w <= World.next_id (check_player_collisions w))%nat.
Proof.
  unfold check_player_collisions. generalize (World.asteroids w).
  induction l as [|a l IH]; simpl; [lia|].
  destruct (collide_point (Sprite.image a) (Sprite.image (World.ship w)));
    [apply hurt_next_id|exact IH].
Qed.

Lemma update_projectile_next_id (i : nat) (p : Projectile) (w : World.t) :
  (World.next_id w <= World.next_id (update_projectile i p w))%nat.
Proof.
  unfold update_projectile.
  destruct (Qle_bool (Image.y (pimage p)) 0); [simpl; lia|].
  pose proof (check_projectile_collisions_next_id p w) as H.
  destruct (check_projectile_collisions p w) as [hit w1]. simpl in H.
  destruct hit; simpl; exact H.
Qed.

Lemma update_projectile_distinct (i : nat) (p : Projectile) (w : World.t) :
  nth_error (projectiles w) i = Some p ->
  distinct_projectiles w ->
  distinct_projectiles (update_projectile i p w).
Proof.
  intros Hn [Hnd Hlt].
  pose proof (update_projectile_next_id i p w) as Hid.
  destruct (update_projectile_destroys i p w Hn Hnd) as [T [_ Hcase]].
  destruct Hcase as [[_ Hrem] | [_ Hsame]].
  - split.
    + rewrite Hrem. apply nodup_without. exact Hnd.
    + intros r Hr. rewrite Hrem in Hr. apply without_incl in Hr.
      specialize (Hlt r Hr). lia.
  - split.
    + rewrite Hsame. exact Hnd.
    + intros r Hr. rewrite Hsame in Hr. specialize (Hlt r Hr). lia.
Qed.

Lemma update_projectiles_from_distinct (fuel i : nat) (w : World.t) :
  distinct_projectiles w ->
  distinct_projectiles (update_projectiles_from fuel i w).
Proof.
  revert i w. induction fuel as [|fuel IH]; intros i w H;
    cbn [update_projectiles_from]; [exact H|].
  destruct (nth_error (projectiles w) i) as [p|] eqn:E; [|exact H].
  apply IH. apply update_projectile_distinct; assumption.
Qed.

Lemma fire_projectile_next_id (w : World.t) :
  World.next_id (fire_projectile w) = S (S (World.next_id w)).
Proof.
  unfold fire_projectile.
  destruct (Controller.fire_sound (World.controller w)); reflexivity.
Qed.

Lemma fire_projectile_distinct (w : World.t) :
  distinct_projectiles w -> distinct_projectiles (fire_projectile w).
Proof.
  intros [Hnd Hlt]. unfold distinct_projectiles, pids.
  rewrite fire_projectile_projectiles, fire_projectile_next_id, map_app.
  cbn [map pid]. fold (pids w). split.
  - apply NoDup_app; [exact Hnd| |].
    + constructor; [|constructor; [intros []|constructor]].
      intros [H | []]. lia.
    + intros r Hr [H | [H | []]]; specialize (Hlt r Hr); lia.
  - intros r Hr. apply in_app_or in Hr.
    destruct Hr as [Hr | [Hr | [Hr | []]]];
      [specialize (Hlt r Hr)|..]; lia.
Qed.

Lemma move_motion_next_id (w : World.t) :
  World.next_id
    (move_horizontal (move_vertical (move_distance (sprite_controller_move w))))
  = World.next_id w.
Proof.
  assert (E : World.next_id (sprite_controller_move w) = World.next_id w).
  { unfold sprite_controller_move.
    destruct (Sprite._attachment (World.ship w)) as [a|];
      [destruct (att_image a)|]; reflexivity. }
  rewrite <- E. generalize (sprite_controller_move w). intros w1.
  unfold move_horizontal, move_vertical, move_distance.
  repeat match goal with
         | |- context [if ?b then _ else _] => destruct b
         end; reflexivity.
Qed.

Lemma move_distinct (w : World.t) :
  distinct_projectiles w -> distinct_projectiles (move w).
Proof.
  intros H. rewrite move_unfold.
  set (w3 := move_horizontal
               (move_vertical (move_distance (sprite_controller_move w)))).
  destruct (move_motion_outside w) as [_ [_ [b3 _]]]. fold w3 in b3.
  pose proof (move_motion_next_id w) as b7. fold w3 in b7.
  assert (H3 : distinct_projectiles w3).
  { unfold distinct_projectiles, pids. rewrite b3, b7. exact H. }
  assert (H4 : distinct_projectiles (move_fire w3)).
  { unfold move_fire.
    destruct (Controller.firing (World.controller w3)
              && (Z.of_nat (length (Controller.projectiles (World.controller w3)))
                  <? Controller.maximum_projectiles (World.controller w3)));
      [apply fire_projectile_distinct|]; exact H3. }
  pose proof (update_projectiles_from_distinct
                (length (projectiles (move_fire w3))) 0 (move_fire w3) H4) as H5.
  fold (update_projectiles (move_fire w3)) in H5.
  unfold move_rest.
  destruct (check_player_collisions_in_outside
              (World.asteroids (update_projectiles (move_fire w3)))
              (update_projectiles (move_fire w3))) as [c1 _].
  pose proof (check_player_collisions_next_id
                (update_projectiles (move_fire w3))) as c2.
  destruct H5 as [N5 L5]. unfold distinct_projectiles, pids, projectiles.
  unfold check_player_collisions in *. rewrite c1. split; [exact N5|].
  intros r Hr. specialize (L5 r Hr). lia.
Qed.

(** X15. The collection never holds a projectile twice.  From a world whose
    projectiles are distinct and older than the next identity (an empty
    collection in particular), every world reached by key events, calls of
    [move] and changes of the asteroid list has distinct projectiles: [move]
    only appends projectiles it has just created and only removes. *)
Theorem projectiles_stay_distinct (w0 w : World.t) :
  reachable w0 w ->
  distinct_projectiles w0 ->
  distinct_projectiles w.
Proof.
  intros Hr H0. induction Hr as [|w w' Hr IH Hstep]; [exact H0|].
  destruct Hstep as [e w|w|l w Hl].
  - destruct e as [[] | []]; exact IH.
  - apply move_distinct. exact IH.
  - exact IH.
Qed.

(** ** The attachment follows the ship *)

Lemma put_sprite_attachment (s : Sprite.t) (w : World.t) :
  (Sprite.id s = Sprite.id (World.ship w) ->
   Sprite._attachment s = Sprite._attachment (World.ship w)) ->
  Sprite._attachment (World.ship (put_sprite s w))
  = Sprite._attachment (World.ship w).
Proof.
  intros H. unfold put_sprite.
  destruct (Nat.eqb (Sprite.id s) (Sprite.id (World.ship w))) eqn:E;
    [apply Nat.eqb_eq in E; simpl; auto|reflexivity].
Qed.

Lemma grant_held (s : Sprite.t) (o : option Attachment) (w : World.t)
  (a : Attachment) :
  current s w ->
  Sprite._attachment (World.ship w) = Some a ->
  Sprite._attachment (World.ship (grant s o w)) = Some a.
Proof.
  intros Hc Ha. rewrite grant_unfold. simpl. rewrite put_sprite_attachment;
    [exact Ha|].
  rewrite attachment_setter_id. intros E. rewrite (Hc E).
  unfold attachment_setter. rewrite Ha. simpl.
  destruct (restart AttachmentDenySound
              (Sprite.attachment_deny_sound (World.ship w))).
  simpl. congruence.
Qed.

Lemma hurt_held (self attacker : Sprite.t) (w : World.t) (a : Attachment) :
  current self w -> current attacker w ->
  Sprite._attachment (World.ship w) = Some a ->
  Sprite._attachment (World.ship (hurt self attacker w)) = Some a.
Proof.
  intros Hs Hk Ha. unfold hurt.
  destruct (negb (Sprite.can_damage self)); [exact Ha|].
  destruct (Sprite.health self <=? 0).
  - unfold die. destruct (Sprite.cls self); simpl; try exact Ha.
    apply grant_held; [exact Hk|exact Ha].
  - rewrite put_sprite_attachment; [exact Ha|].
    simpl. intros E. rewrite (Hs E). reflexivity.
Qed.

Lemma check_projectile_collisions_held (p : Projectile) (w : World.t)
  (a : Attachment) :
  distinct_ids w ->
  Sprite._attachment (World.ship w) = Some a ->
  Sprite._attachment (World.ship (snd (check_projectile_collisions p w)))
  = Some a.
Proof.
  intros Hd Ha. unfold check_projectile_collisions.
  assert (H : forall l w1,
             (forall b, In b l -> current b w1) ->
             Sprite._attachment (World.ship w1) = Some a ->
             Sprite._attachment
               (World.ship (snd (check_projectile_collisions_in l p w1)))
             = Some a).
  { induction l as [|b l IH]; intros w1 Hc H1; simpl; [exact H1|].
    destruct (collide_point (pimage p) (Sprite.image b)); simpl.
    - apply hurt_held; [apply Hc; left; reflexivity|apply current_ship|exact H1].
    - apply IH; [|exact H1]. intros c Hin. apply Hc. right. exact Hin. }
  apply H; [|exact Ha].
  intros b Hb. apply (distinct_current b w Hd Hb).
Qed.

Lemma update_projectile_held (i : nat) (p : Projectile) (w : World.t)
  (a : Attachment) :
  distinct_ids w ->
  Sprite._attachment (World.ship w) = Some a ->
  Sprite._attachment (World.ship (update_projectile i p w)) = Some a.
Proof.
  intros Hd Ha. unfold update_projectile.
  destruct (Qle_bool (Image.y (pimage p)) 0); [exact Ha|].
  pose proof (check_projectile_collisions_held p w a Hd Ha) as H.
  destruct (check_projectile_collisions p w) as [hit w1]. simpl in H.
  destruct hit; exact H.
Qed.

Lemma update_projectiles_from_held (fuel i : nat) (w : World.t)
  (a : Attachment) :
  distinct_ids w ->
  Sprite._attachment (World.ship w) = Some a ->
  Sprite._attachment (World.ship (update_projectiles_from fuel i w)) = Some a.
Proof.
  revert i w. induction fuel as [|fuel IH]; intros i w Hd Ha;
    cbn [update_projectiles_from]; [exact Ha|].
  destruct (nth_error (projectiles w) i) as [p|]; [|exact Ha].
  apply IH.
  - eapply same_stage_distinct; [apply update_projectile_same_stage|]; exact Hd.
  - apply update_projectile_held; assumption.
Qed.

Lemma move_rest_held (w : World.t) (a : Attachment) :
  distinct_ids w ->
  Sprite._attachment (World.ship w) = Some a ->
  Sprite._attachment (World.ship (move_rest w)) = Some a.
Proof.
  intros Hd Ha. unfold move_rest.
  pose proof (move_fire_same_stage w) as H1.
  pose proof (same_stage_distinct _ _ H1 Hd) as Hd1.
  assert (Ha1 : Sprite._attachment (World.ship (move_fire w)) = Some a).
  { unfold move_fire.
    destruct (Controller.firing (World.controller w)
              && (Z.of_nat (length (Controller.projectiles (World.controller w)))
                  <? Controller.maximum_projectiles (World.controller w)));
      [|exact Ha].
    unfold fire_projectile.
    destruct (Controller.fire_sound (World.controller w)); exact Ha. }
  pose proof (update_projectiles_from_same_stage
                (length (projectiles (move_fire w))) 0 (move_fire w) Hd1) as H2.
  pose proof (same_stage_distinct _ _ H2 Hd1) as Hd2.
  pose proof (update_projectiles_from_held
                (length (projectiles (move_fire w))) 0 (move_fire w) a Hd1 Ha1)
    as Ha2.
  fold (update_projectiles (move_fire w)) in Hd2, Ha2.
  unfold check_player_collisions.
  generalize (fun b (Hb : In b (World.asteroids
                                  (update_projectiles (move_fire w)))) =>
                distinct_current b _ Hd2 Hb).
  generalize (World.asteroids (update_projectiles (move_fire w))).
  induction l as [|b l IH]; intros Hc; simpl; [exact Ha2|].
  destruct (collide_point (Sprite.image b)
              (Sprite.image (World.ship (update_projectiles (move_fire w))))).
  - apply hurt_held; [apply current_ship|apply Hc; left; reflexivity|exact Ha2].
  - apply IH. intros c Hin. apply Hc. right. exact Hin.
Qed.

Lemma move_motion_attachment (w : World.t) :
  Sprite._attachment
    (World.ship (move_horizontal (move_vertical (move_distance w))))
  = Sprite._attachment (World.ship w).
Proof.
  unfold move_horizontal, move_vertical, move_distance.
  repeat match goal with
         | |- context [if ?b then _ else _] => destruct b
         end; reflexivity.
Qed.

(** X16. The held attachment's image is placed before the ship moves:
    [ShipController.move] calls the inherited [move] first, which copies the
    ship's position to the image, and only then changes the ship's position.
    After one call of [move] the image of the attachment stands where the
    ship stood before the call, whatever the keys, projectiles and
    collisions of that call did; the ship still holds the same attachment. *)
Theorem attachment_image_trails_the_ship (w : World.t) (a : Attachment)
  (i : Image.t) :
  distinct_ids w ->
  Sprite._attachment (World.ship w) = Some a ->
  att_image a = Some i ->
  Sprite._attachment (World.ship (move w))
  = Some (mkAttachment (att_id a) (att_kind a)
            (Some (Image.set_position (Image.x (Sprite.image (World.ship w)))
                     (Image.y (Sprite.image (World.ship w))) i))).
Proof.
  intros Hd Ha Hi. rewrite move_unfold.
  set (w3 := move_horizontal
               (move_vertical (move_distance (sprite_controller_move w)))).
  destruct (move_motion_outside w) as [b1 [b2 _]]. fold w3 in b1, b2.
  apply move_rest_held.
  - intros b Hb. rewrite b1 in Hb. rewrite b2. exact (Hd b Hb).
  - unfold w3. rewrite move_motion_attachment.
    unfold sprite_controller_move. rewrite Ha, Hi. reflexivity.
Qed.

(** ** Falling asteroids *)








(** ** The game controller *)

Lemma Qfloor_unique (q : Q) (n : Z) :
  (inject_Z n <= q)%Q -> (q < inject_Z (n + 1))%Q -> Qfloor q = n.
Proof.
  intros Hlo Hhi.
  pose proof (Qfloor_le q) as H1. pose proof (Qlt_floor q) as H2.
  assert (A : (inject_Z n < inject_Z (Qfloor q + 1))%Q)
    by (eapply Qle_lt_trans; eassumption).
  assert (B : (inject_Z (Qfloor q) < inject_Z (n + 1))%Q)
    by (eapply Qle_lt_trans; eassumption).
  rewrite <- Zlt_Qlt in A, B. lia.
Qed.

Lemma py_round_right (q : Q) :
  (1 # 2 <= q)%Q -> (q < 3 # 2)%Q -> py_round q = 1.
Proof.
  intros Hlo Hhi. unfold py_round.
  rewrite (Qle_bool_le_true 0 q) by lra.
  apply Qfloor_unique;
    [change (inject_Z 1) with 1%Q|change (inject_Z (1 + 1)) with 2%Q]; lra.
Qed.

Lemma py_round_left (q : Q) :
  (- (3 # 2) < q)%Q -> (q <= - (1 # 2))%Q -> py_round q = -1.
Proof.
  intros Hlo Hhi. unfold py_round.
  rewrite (Qle_bool_lt_false 0 q) by lra.
  rewrite (Qfloor_unique (- q + (1 # 2)) 1);
    [reflexivity|change (inject_Z 1) with 1%Q
    |change (inject_Z (1 + 1)) with 2%Q]; lra.
Qed.

Lemma py_round_centre (q : Q) :
  (- (1 # 2) < q)%Q -> (q < 1 # 2)%Q -> py_round q = 0.
Proof.
  intros Hlo Hhi. unfold py_round.
  destruct (Qle_bool 0 q) eqn:E.
  - apply Qle_bool_iff in E.
    apply Qfloor_unique;
      [change (inject_Z 0) with 0%Q|change (inject_Z (0 + 1)) with 1%Q]; lra.
  - apply Qle_bool_false in E.
    rewrite (Qfloor_unique (- q + (1 # 2)) 0);
      [reflexivity|change (inject_Z 0) with 0%Q
      |change (inject_Z (0 + 1)) with 1%Q]; lra.
Qed.

Lemma axis_motion_firing (axis0 axis1 : Q) (w : World.t) :
  Controller.firing (World.controller (axis_motion axis0 axis1 w))
  = Controller.firing (World.controller w).
Proof.
  unfold axis_motion, send, handle_key.
  repeat match goal with
         | |- context [if ?b then _ else _] => destruct b
         end; reflexivity.
Qed.

Lemma controller_update_app (axis0 axis1 : Q) (l l' : list JoyEvent)
  (w : World.t) :
  controller_update axis0 axis1 (l ++ l') w
  = controller_update axis0 axis1 l' (controller_update axis0 axis1 l w).
Proof. unfold controller_update. apply fold_left_app. Qed.

Lemma controller_update_firing (axis0 axis1 : Q) (l : list JoyEvent)
  (w : World.t) :
  (forall e b, In e l -> e = JoyButtonDown b \/ e = JoyButtonUp b ->
               b <> JOYBUTTON_LT /\ b <> JOYBUTTON_RT) ->
  Controller.firing (World.controller (controller_update axis0 axis1 l w))
  = Controller.firing (World.controller w).
Proof.
  revert w. induction l as [|e l IH]; intros w H; [reflexivity|].
  change (controller_update axis0 axis1 (e :: l) w)
    with (controller_update axis0 axis1 l
            (controller_update axis0 axis1 [e] w)).
  rewrite IH by (intros e' b Hin; apply H; right; exact Hin).
  destruct e as [b|b| |]; cbn [controller_update fold_left].
  - destruct (H (JoyButtonDown b) b (or_introl eq_refl) (or_introl eq_refl))
      as [n1 n2].
    unfold button_down. apply Z.eqb_neq in n1, n2. rewrite n1, n2. reflexivity.
  - destruct (H (JoyButtonUp b) b (or_introl eq_refl) (or_intror eq_refl))
      as [n1 n2].
    unfold button_up. apply Z.eqb_neq in n1, n2. rewrite n1, n2. reflexivity.
  - apply axis_motion_firing.
  - reflexivity.
Qed.

(** X20. The ship fires according to the last trigger event alone.  After
    [Controller.update] has gone through the pending device events, the
    firing flag is set when the last event of a trigger (left or right) was
    a press and cleared when it was a release, whatever came before it and
    whatever other buttons and axis movements came after it: letting go of
    one trigger stops the fire while the other is still held. *)
Theorem fire_follows_the_last_trigger_event (axis0 axis1 : Q)
  (pre post : list JoyEvent) (b : Z) (w : World.t) :
  b = JOYBUTTON_LT \/ b = JOYBUTTON_RT ->
  (forall e b', In e post -> e = JoyButtonDown b' \/ e = JoyButtonUp b' ->
                b' <> JOYBUTTON_LT /\ b' <> JOYBUTTON_RT) ->
  Controller.firing
    (World.controller
       (controller_update axis0 axis1 (pre ++ JoyButtonDown b :: post) w))
  = true /\
  Controller.firing
    (World.controller
       (controller_update axis0 axis1 (pre ++ JoyButtonUp b :: post) w))
  = false.
Proof.
  intros Hb Hpost.
  assert (T : (b =? JOYBUTTON_LT) || (b =? JOYBUTTON_RT) = true)
    by (destruct Hb as [-> | ->]; reflexivity).
  split; rewrite controller_update_app;
    match goal with
    | |- context [controller_update _ _ (?e :: post) ?w0] =>
        change (controller_update axis0 axis1 (e :: post) w0)
          with (controller_update axis0 axis1 post
                  (controller_update axis0 axis1 [e] w0))
    end;
    rewrite (controller_update_firing axis0 axis1 post _ Hpost);
    cbn [controller_update fold_left]; unfold button_down, button_up;
    rewrite T; reflexivity.
Qed.

(** X21. What one axis event does to the four movement flags, in terms of
    the stick itself.  [round] sends a deflection of a half or more to the
    full direction, so: pushed right by at least a half the ship moves
    right and the left flag is left alone; pushed left by at least a half
    the left flag is set and the right flag is left alone; nearer the centre
    the right flag is cleared, and the left flag is cleared only when the
    right flag was not set.  The vertical axis does the same with up in the
    place of right and down in the place of left, and firing is untouched. *)
Theorem axis_event_sets_the_flags (axis0 axis1 : Q) (w : World.t) :
  (- (3 # 2) < axis0)%Q -> (axis0 < 3 # 2)%Q ->
  (- (3 # 2) < axis1)%Q -> (axis1 < 3 # 2)%Q ->
  let c := World.controller w in
  let c' := World.controller (axis_motion axis0 axis1 w) in
  Controller.moving_right c'
  = (if Qle_bool (1 # 2) axis0 then true
     else if Qle_bool axis0 (- (1 # 2)) then Controller.moving_right c
          else false) /\
  Controller.moving_left c'
  = (if Qle_bool (1 # 2) axis0 then Controller.moving_left c
     else if Qle_bool axis0 (- (1 # 2)) then true
          else Controller.moving_right c && Controller.moving_left c) /\
  Controller.moving_forward c'
  = (if Qle_bool axis1 (- (1 # 2)) then true
     else if Qle_bool (1 # 2) axis1 then Controller.moving_forward c
          else false) /\
  Controller.moving_backward c'
  = (if Qle_bool axis1 (- (1 # 2)) then Controller.moving_backward c
     else if Qle_bool (1 # 2) axis1 then true
          else Controller.moving_forward c && Controller.moving_backward c) /\
  Controller.firing c' = Controller.firing c.
Proof.
  intros x1 x2 y1 y2. cbv zeta.
  assert (X : (py_round axis0 = 1 /\ Qle_bool (1 # 2) axis0 = true)
              \/ (py_round axis0 = -1 /\ Qle_bool (1 # 2) axis0 = false
                  /\ Qle_bool axis0 (- (1 # 2)) = true)
              \/ (py_round axis0 = 0 /\ Qle_bool (1 # 2) axis0 = false
                  /\ Qle_bool axis0 (- (1 # 2)) = false)).
  { destruct (Qlt_le_dec axis0 (1 # 2)) as [A | A].
    - destruct (Qlt_le_dec (- (1 # 2)) axis0) as [B | B].
      + right. right. repeat split;
          [apply py_round_centre|apply Qle_bool_lt_false
          |apply Qle_bool_lt_false]; assumption.
      + right. left. repeat split;
          [apply py_round_left|apply Qle_bool_lt_false|apply Qle_bool_le_true];
          assumption.
    - left. split; [apply py_round_right|apply Qle_bool_le_true]; assumption. }
  assert (Y : (py_round axis1 = -1 /\ Qle_bool axis1 (- (1 # 2)) = true)
              \/ (py_round axis1 = 1 /\ Qle_bool axis1 (- (1 # 2)) = false
                  /\ Qle_bool (1 # 2) axis1 = true)
              \/ (py_round axis1 = 0 /\ Qle_bool axis1 (- (1 # 2)) = false
                  /\ Qle_bool (1 # 2) axis1 = false)).
  { destruct (Qlt_le_dec (- (1 # 2)) axis1) as [A | A].
    - destruct (Qlt_le_dec axis1 (1 # 2)) as [B | B].
      + right. right. repeat split;
          [apply py_round_centre|apply Qle_bool_lt_false
          |apply Qle_bool_lt_false]; assumption.
      + right. left. repeat split;
          [apply py_round_right|apply Qle_bool_lt_false; lra
          |apply Qle_bool_le_true]; assumption.
    - left. split; [apply py_round_left|apply Qle_bool_le_true]; assumption. }
  unfold axis_motion, send, handle_key.
  destruct X as [[-> ->] | [[-> [-> ->]] | [-> [-> ->]]]];
    destruct Y as [[-> ->] | [[-> [-> ->]] | [-> [-> ->]]]];
    cbn [Z.eqb Pos.eqb];
    destruct (Controller.moving_right (World.controller w)) eqn:R;
    destruct (Controller.moving_left (World.controller w)) eqn:L;
    destruct (Controller.moving_forward (World.controller w)) eqn:F;
    destruct (Controller.moving_backward (World.controller w)) eqn:B;
    cbn; rewrite ?R, ?L, ?F, ?B; cbn; rewrite ?R, ?L, ?F, ?B;
    repeat split.
Qed.

(** X22. A stick swept from left to right and let go leaves the ship moving
    left.  The sweep sets both flags (a press on one side does not release
    the other), and an axis event near the centre releases one direction
    only, the right one first; the left flag is cleared by the axis event
    after that. *)
Theorem swept_stick_keeps_moving_left (l r c c' y0 y1 y2 y3 : Q)
  (w : World.t) :
  (- (3 # 2) < l)%Q -> (l <= - (1 # 2))%Q ->
  (1 # 2 <= r)%Q -> (r < 3 # 2)%Q ->
  (- (1 # 2) < c)%Q -> (c < 1 # 2)%Q ->
  (- (1 # 2) < c')%Q -> (c' < 1 # 2)%Q ->
  let w3 := axis_motion c y2 (axis_motion r y1 (axis_motion l y0 w)) in
  Controller.moving_right (World.controller w3) = false /\
  Controller.moving_left (World.controller w3) = true /\
  Controller.moving_left (World.controller (axis_motion c' y3 w3)) = false.
Proof.
  intros l1 l2 r1 r2 c1 c2 d1 d2. cbv zeta.
  assert (A : forall x y v,
             Controller.moving_right
               (World.controller (axis_motion x y v))
             = (if py_round x =? 1 then true
                else if py_round x =? -1
                     then Controller.moving_right (World.controller v)
                     else false) /\
             Controller.moving_left
               (World.controller (axis_motion x y v))
             = (if py_round x =? 1
                then Controller.moving_left (World.controller v)
                else if py_round x =? -1 then true
                     else Controller.moving_right (World.controller v)
                          && Controller.moving_left (World.controller v))).
  { intros x y v. unfold axis_motion, send, handle_key.
    destruct (py_round x =? 1); [|destruct (py_round x =? -1)];
      destruct (py_round y =? -1); try destruct (py_round y =? 1);
      destruct (Controller.moving_right (World.controller v)) eqn:R;
      destruct (Controller.moving_left (World.controller v)) eqn:L;
      destruct (Controller.moving_forward (World.controller v)) eqn:F;
      destruct (Controller.moving_backward (World.controller v)) eqn:B;
      cbn; rewrite ?R, ?L, ?F, ?B; cbn; rewrite ?R, ?L, ?F, ?B;
      split; reflexivity. }
  destruct (A c' y3 (axis_motion c y2 (axis_motion r y1 (axis_motion l y0 w))))
    as [_ e4].
  destruct (A c y2 (axis_motion r y1 (axis_motion l y0 w))) as [e3 f3].
  destruct (A r y1 (axis_motion l y0 w)) as [e2 f2].
  destruct (A l y0 w) as [_ f1].
  rewrite (py_round_centre c' d1 d2) in e4.
  rewrite (py_round_centre c c1 c2) in e3, f3.
  rewrite (py_round_right r r1 r2) in e2, f2.
  rewrite (py_round_left l l1 l2) in f1.
  cbn [Z.eqb Pos.eqb] in *.
  rewrite e4, e3, f3, e2, f2, f1. repeat split.
Qed.

End Engine.

(** ** Concrete runs *)

(** The two cases of C5 at concrete sprites: a ship holding a shield that is
    offered a full-health attachment, and a bare ship offered a shield. *)
Lemma attachment_offer_rejected_or_accepted_witness :
  let held := mkAttachment 7 ShieldMechanism None in
  let offer := mkAttachment 8 FullHealthMechanism None in
  let bare := new_ship 0 (Image.mk 400 500 64 64) in
  let armed := Sprite.set_attachment (Some held) bare in
  Sprite._attachment (fst (attachment_setter armed (Some offer))) = Some held /\
  Sprite._attachment (fst (attachment_setter bare (Some held))) = Some held.
Proof.
  intros held offer bare armed. split.
  - exact (proj1 (proj1 (attachment_offer_rejected_or_accepted armed (Some offer))
                    held eq_refl)).
  - exact (proj1 (proj2 (attachment_offer_rejected_or_accepted bare (Some held))
                    held eq_refl eq_refl)).
Defined.

(** C1 as stated fails: holding fire from the start of a round, the eighth
    frame finds 14 projectiles, passes the guard and leaves 16 in flight. *)
Lemma sixteen_projectiles_in_flight :
  ~ (length
       (projectiles
          (idle half_random point_in_bounds 8 16 no_image 7
             (frame half_random point_in_bounds 8 16 no_image [Press Space]
                start)))
     <= 15)%nat.
Proof. intros H. vm_compute in H. lia. Qed.

Lemma projectiles_bounded_by_maximum_plus_one_witness :
  Controller.maximum_projectiles
    (World.controller
       (move half_random point_in_bounds 8 16 no_image
          (handle_key (Press Space) start)))
  = 15 /\
  Z.of_nat
    (length
       (projectiles
          (move half_random point_in_bounds 8 16 no_image
             (handle_key (Press Space) start))))
  <= 16 /\
  (15
   <= Z.of_nat
        (length
           (projectiles
              (move half_random point_in_bounds 8 16 no_image
                 (handle_key (Press Space) start)))) ->
   move_fire 8 16
     (move half_random point_in_bounds 8 16 no_image
        (handle_key (Press Space) start))
   = move half_random point_in_bounds 8 16 no_image
       (handle_key (Press Space) start)).
Proof.
  apply (projectiles_bounded_by_maximum_plus_one half_random point_in_bounds
           8 16 no_image start
           (move half_random point_in_bounds 8 16 no_image
              (handle_key (Press Space) start))).
  - eapply reach_step; [eapply reach_step; [apply reach_start|apply step_key]|].
    apply step_move.
  - simpl. lia.
Defined.

(** C2 as stated fails: a carrier overlapping a player who holds no
    attachment grants nothing and stays in the asteroid list; the player is
    only hurt by the carrier's damage, which is zero. *)
Lemma carrier_on_the_player_grants_nothing :
  point_in_bounds (Sprite.image carrier) (Sprite.image (World.ship bonus)) = true /\
  Sprite._attachment (World.ship bonus) = None /\
  Sprite._attachment
    (World.ship (frame half_random point_in_bounds 8 16 no_image [] bonus))
  = None /\
  World.asteroids (frame half_random point_in_bounds 8 16 no_image [] bonus)
  = [carrier] /\
  World.log (frame half_random point_in_bounds 8 16 no_image [] bonus) = [].
Proof. repeat split; vm_compute; reflexivity. Qed.

Lemma carrier_hit_by_projectile_grants_attachment_witness :
  fst (check_projectile_collisions point_in_bounds no_image shot hunt) = true /\
  Sprite._attachment
    (World.ship (snd (check_projectile_collisions point_in_bounds no_image shot hunt)))
  = Some (mkAttachment 1 ShieldMechanism None) /\
  World.asteroids (snd (check_projectile_collisions point_in_bounds no_image shot hunt))
  = [].
Proof.
  destruct (carrier_hit_by_projectile_grants_attachment point_in_bounds no_image
              hunt shot [] [] far_carrier ShieldMechanism)
    as [H1 [H2 [H3 _]]].
  - reflexivity.
  - simpl. constructor; [intros []|constructor].
  - intros b [].
  - reflexivity.
  - reflexivity.
  - reflexivity.
  - simpl. lia.
  - reflexivity.
  - split; [exact H1|]. split; [exact H2|exact H3].
Defined.

Lemma hurt_dies_or_subtracts_witness :
  (exists rest,
      World.log (hurt no_image carrier (World.ship bonus) bonus)
      = World.log bonus ++ EvDie 1 0 :: rest) /\
  (exists s,
      sprite_by_id 1 (hurt no_image rock (World.ship crowded) crowded) = Some s /\
      Sprite.health s = 5).
Proof.
  split.
  - apply (hurt_dies_or_subtracts no_image carrier (World.ship bonus) bonus
             eq_refl).
    simpl. lia.
  - apply (hurt_dies_or_subtracts no_image rock (World.ship crowded) crowded
             eq_refl).
    + reflexivity.
    + reflexivity.
Defined.

(** C4 as stated fails: the collision that finds the player at health 1
    brings the health to 0 and nothing else; no explosion is logged and the
    round goes on. *)
Lemma last_point_of_health_is_not_death :
  Sprite.health (World.ship frail) = 1 /\
  1 <= Sprite.damage rock /\
  point_in_bounds (Sprite.image rock) (Sprite.image (World.ship frail)) = true /\
  World.ended (frame half_random point_in_bounds 8 16 no_image [] frail) = false /\
  World.log (frame half_random point_in_bounds 8 16 no_image [] frail) = [] /\
  Sprite.health
    (World.ship (frame half_random point_in_bounds 8 16 no_image [] frail))
  = 0.
Proof. repeat split; vm_compute; try reflexivity. discriminate. Qed.

Lemma death_fires_on_the_next_collision_witness :
  World.ended (check_player_collisions point_in_bounds no_image frail) = false /\
  World.ended
    (check_player_collisions point_in_bounds no_image
       (check_player_collisions point_in_bounds no_image frail))
  = true /\
  World.log
    (check_player_collisions point_in_bounds no_image
       (check_player_collisions point_in_bounds no_image frail))
  = [EvDie 0 1; EvExplode 400 536; EvEnd].
Proof.
  destruct (death_fires_on_the_next_collision point_in_bounds no_image
              frail [] [] rock)
    as [[_ [_ [_ H1]]] [H2 [H3 _]]].
  - reflexivity.
  - intros b [].
  - reflexivity.
  - reflexivity.
  - reflexivity.
  - reflexivity.
  - simpl. lia.
  - split; [exact H1|]. split; [exact H3|exact H2].
Defined.

(** C6 as stated fails: holding Up from the start, the ship climbs 15 a
    frame; frame 33 leaves its top edge at 9, which still passes the guard,
    and frame 34 puts the top edge at -6, above the play area. *)
Lemma ship_leaves_the_play_area :
  in_play_area start /\
  ~ in_play_area
      (idle half_random point_in_bounds 8 16 no_image 33
         (frame half_random point_in_bounds 8 16 no_image [Press Up] start)).
Proof.
  split.
  - unfold in_play_area. repeat split; vm_compute; discriminate.
  - intros [H _]. vm_compute in H. apply H. reflexivity.
Qed.

Lemma ship_overshoots_by_less_than_one_step_witness :
  within_one_step
    (move half_random point_in_bounds 8 16 no_image
       (handle_key (Press Up) start)) /\
  Image.x
    (Sprite.image
       (World.ship
          (move half_random point_in_bounds 8 16 no_image
             (handle_key (Press Left) start))))
  = (400 - inject_Z 15)%Q /\
  Image.y
    (Sprite.image
       (World.ship
          (move half_random point_in_bounds 8 16 no_image
             (handle_key (Press Left) start))))
  = 536%Q.
Proof.
  split.
  - apply (ship_overshoots_by_less_than_one_step half_random point_in_bounds
             8 16 no_image start).
    + eapply reach_step; [eapply reach_step; [apply reach_start|apply step_key]|].
      apply step_move.
    + intros a [].
    + simpl. lia.
    + unfold in_play_area. repeat split; vm_compute; discriminate.
  - destruct (ship_overshoots_by_less_than_one_step half_random point_in_bounds
                8 16 no_image start (handle_key (Press Left) start))
      as [_ [Hy Hx]].
    + eapply reach_step; [apply reach_start|apply step_key].
    + intros a [].
    + simpl. lia.
    + unfold in_play_area. repeat split; vm_compute; discriminate.
    + split; [exact Hx|exact Hy].
Defined.

(** C9 as stated fails: on a frame with no key held the ship does not move
    and [current_distance] still grows by the speed; on a frame of back
    motion it grows as well, by 15 - 7. *)
Lemma distance_grows_without_motion :
  Sprite.image
    (World.ship (frame half_random point_in_bounds 8 16 no_image [] start))
  = Sprite.image (World.ship start) /\
  Controller.current_distance (World.controller start) = 0 /\
  Controller.current_distance
    (World.controller (frame half_random point_in_bounds 8 16 no_image [] start))
  = 15 /\
  Controller.current_distance
    (World.controller
       (frame half_random point_in_bounds 8 16 no_image [Press Down] start))
  = 8.
Proof. repeat split; vm_compute; reflexivity. Qed.

Lemma distance_grows_on_every_move_witness :
  Controller.current_distance
    (World.controller
       (move half_random point_in_bounds 8 16 no_image
          (handle_key (Press Down) start)))
  = 0 + 15 - 7 /\
  Image.y
    (Sprite.image
       (World.ship
          (move half_random point_in_bounds 8 16 no_image
             (handle_key (Press Down) start))))
  = (536 + inject_Z 7)%Q.
Proof.
  destruct (distance_grows_on_every_move half_random point_in_bounds 8 16
              no_image (handle_key (Press Down) start)) as [H1 H2].
  split; [exact H1|]. apply H2.
  - intros a [].
  - reflexivity.
Defined.

Lemma projectile_after_a_destroyed_one_is_skipped_witness :
  ~ In (EvCollisionTest 2) [EvDestroy 1] /\
  (forall dy, ~ In (EvMoved 2 dy) [EvDestroy 1]) /\
  ~ In (EvDestroy 2) [EvDestroy 1] /\
  In shot1
    (projectiles (update_projectiles half_random point_in_bounds no_image two_shots)).
Proof.
  apply (projectile_after_a_destroyed_one_is_skipped half_random
           point_in_bounds no_image two_shots 0 shot0 shot1 [EvDestroy 1]).
  - simpl. constructor.
    + intros [H | []]. discriminate H.
    + constructor; [intros []|constructor].
  - reflexivity.
  - reflexivity.
  - reflexivity.
  - left. reflexivity.
Defined.

(** The failing input of C7: two projectiles in flight.  [destroy] destroys
    the first, and leaves the second in the collection, not destroyed. *)
Lemma destroy_leaves_the_second_projectile_witness :
  (exists tail, projectiles (destroy two_shots) = shot1 :: tail) /\
  ~ In (EvDestroy 2) (World.log (destroy two_shots)).
Proof.
  apply (destroy_leaves_the_second_projectile two_shots shot0 shot1 []).
  - reflexivity.
  - simpl. constructor.
    + intros [H | []]. discriminate H.
    + constructor; [intros []|constructor].
  - intros [].
Defined.

Lemma destroy_of_two_shots :
  projectiles (destroy two_shots) = [shot1] /\
  World.log (destroy two_shots)
  = [EvDestroyMusic] ++ unbind_all ++ [EvDestroyGameController; EvDestroy 1].
Proof. split; reflexivity. Qed.

(** Firing at the cap: with 16 projectiles in flight and fire still held,
    the next frame adds none (the pass over the projectiles only moves them). *)
Lemma fire_at_the_cap_adds_nothing :
  length
    (projectiles
       (idle half_random point_in_bounds 8 16 no_image 8
          (frame half_random point_in_bounds 8 16 no_image [Press Space] start)))
  = 16%nat.
Proof. vm_compute. reflexivity. Qed.

(** ** Concrete runs of the further properties *)

Lemma first_attachment_wins_witness :
  let bare := new_ship 0 (Image.mk 400 500 64 64) in
  let held := fst (attachment_setter bare (Some shield)) in
  let offer := Some (mkAttachment 8 FullHealthMechanism None) in
  Sprite._attachment (fst (attachment_setter held offer)) = Some shield /\
  snd (attachment_setter held offer) = [EvPlay AttachmentDenySound].
Proof.
  intros bare held offer.
  destruct (first_attachment_wins bare shield offer eq_refl) as [H1 [H2 _]].
  split; [exact H1|exact H2].
Defined.

Lemma key_handlers_write_one_flag_witness :
  Controller.firing (World.controller (handle_key (Press Up) all_keys))
  = Controller.firing (World.controller all_keys) /\
  Controller.moving_left (World.controller (handle_key (Release Right) all_keys))
  = Controller.moving_left (World.controller all_keys).
Proof.
  split.
  - destruct (key_handlers_write_one_flag (Press Up) Space all_keys)
      as [_ [_ [_ [_ [_ [_ [_ [_ [_ [H _]]]]]]]]]].
    apply H. discriminate.
  - destruct (key_handlers_write_one_flag (Release Right) Space all_keys)
      as [_ [_ [_ [_ [_ [_ [_ [_ [H _]]]]]]]]].
    apply H. discriminate.
Defined.

Lemma forward_and_right_take_precedence_witness :
  Image.y
    (Sprite.image
       (World.ship (move half_random point_in_bounds 8 16 no_image all_keys)))
  = (536 - inject_Z 15)%Q /\
  Image.x
    (Sprite.image
       (World.ship (move half_random point_in_bounds 8 16 no_image all_keys)))
  = (400 + inject_Z 15)%Q.
Proof.
  destruct (forward_and_right_take_precedence half_random point_in_bounds 8 16
              no_image all_keys) as [H1 H2].
  - intros a [].
  - split; [apply H1|apply H2]; reflexivity.
Defined.

Lemma blocked_forward_falls_through_to_backward_witness :
  Image.y
    (Sprite.image
       (World.ship (move half_random point_in_bounds 8 16 no_image cornered)))
  = (32 + inject_Z (15 / 2))%Q.
Proof.
  apply (blocked_forward_falls_through_to_backward half_random point_in_bounds
           8 16 no_image cornered).
  - intros a [].
  - reflexivity.
  - reflexivity.
  - vm_compute. discriminate.
  - reflexivity.
Defined.

Lemma reached_edge_is_not_pushed_further_witness :
  (top_edge boxed
   <= top_edge (move half_random point_in_bounds 8 16 no_image boxed))%Q /\
  (bottom_edge (move half_random point_in_bounds 8 16 no_image boxed)
   <= bottom_edge boxed)%Q /\
  (left_edge boxed
   <= left_edge (move half_random point_in_bounds 8 16 no_image boxed))%Q /\
  (right_edge (move half_random point_in_bounds 8 16 no_image boxed)
   <= right_edge boxed)%Q.
Proof.
  destruct (reached_edge_is_not_pushed_further half_random point_in_bounds 8 16
              no_image boxed) as [H1 [H2 [H3 H4]]].
  - intros a [].
  - simpl. lia.
  - repeat split; [apply H1|apply H2|apply H3|apply H4];
      vm_compute; discriminate.
Defined.

Lemma no_fire_key_no_new_projectile_witness :
  (length (projectiles (move half_random point_in_bounds 8 16 no_image two_shots))
   <= length (projectiles two_shots))%nat.
Proof.
  apply (no_fire_key_no_new_projectile half_random point_in_bounds 8 16 no_image
           two_shots).
  reflexivity.
Defined.

Lemma player_hurt_by_first_overlap_only_witness :
  check_player_collisions point_in_bounds no_image crowded
  = World.set_ship (Sprite.set_health (100 - 1) (World.ship crowded)) crowded.
Proof.
  apply (player_hurt_by_first_overlap_only point_in_bounds no_image crowded
           [] [] rock).
  - reflexivity.
  - intros b [].
  - reflexivity.
  - reflexivity.
  - simpl. lia.
Defined.

Lemma no_overlap_or_immunity_changes_nothing_witness :
  check_player_collisions point_in_bounds no_image hunt = hunt.
Proof.
  apply (no_overlap_or_immunity_changes_nothing point_in_bounds no_image hunt).
  left. intros a [<- | []]. reflexivity.
Defined.

Lemma harmless_overlap_changes_nothing_witness :
  check_player_collisions point_in_bounds no_image bonus = bonus.
Proof.
  apply (harmless_overlap_changes_nothing point_in_bounds no_image bonus
           [] [] carrier).
  - reflexivity.
  - intros b [].
  - reflexivity.
  - reflexivity.
  - simpl. lia.
Defined.

Lemma carrier_shot_while_holding_is_wasted_witness :
  fst (check_projectile_collisions point_in_bounds no_image shot armed_hunt)
  = true /\
  Sprite._attachment
    (World.ship
       (snd (check_projectile_collisions point_in_bounds no_image shot
               armed_hunt)))
  = Some shield /\
  World.asteroids
    (snd (check_projectile_collisions point_in_bounds no_image shot armed_hunt))
  = [] /\
  World.log
    (snd (check_projectile_collisions point_in_bounds no_image shot armed_hunt))
  = [EvCollisionTest 7; EvDie 1 0; EvPlay AttachmentDenySound;
     EvRemoveAsteroid 1 false].
Proof.
  apply (carrier_shot_while_holding_is_wasted point_in_bounds no_image
           armed_hunt shot [] [] far_carrier ShieldMechanism shield).
  - reflexivity.
  - simpl. constructor; [intros []|constructor].
  - intros b [].
  - reflexivity.
  - reflexivity.
  - reflexivity.
  - simpl. lia.
  - reflexivity.
Defined.

Lemma asteroid_dies_one_hit_late_witness :
  (find (fun x => Nat.eqb (Sprite.id x) 1)
     (World.asteroids (strike no_image 2 1 crowded))
   = Some (Sprite.set_health (10 - 2 * 5) rock) /\
   World.log (strike no_image 2 1 crowded) = []) /\
  (find (fun x => Nat.eqb (Sprite.id x) 1)
     (World.asteroids (strike no_image 3 1 crowded))
   = None /\
   World.log (strike no_image 3 1 crowded)
   = [EvDie 1 0; EvExplode 400 536; EvRemoveAsteroid 1 true]).
Proof.
  apply (asteroid_dies_one_hit_late no_image crowded rock 2).
  - reflexivity.
  - reflexivity.
  - reflexivity.
  - simpl. discriminate.
  - simpl. constructor; [intros []|constructor].
  - simpl. lia.
  - simpl. lia.
  - simpl. lia.
Defined.

Lemma projectile_destroyed_at_most_once_witness :
  NoDup (destroyed_in [EvDestroy 1]) /\
  (forall r, In r (destroyed_in [EvDestroy 1]) ->
             In r (pids two_shots) /\
             ~ In r (pids (update_projectiles half_random point_in_bounds
                             no_image two_shots))) /\
  (forall r, In r (pids two_shots) -> ~ In r (destroyed_in [EvDestroy 1]) ->
             In r (pids (update_projectiles half_random point_in_bounds
                           no_image two_shots))) /\
  NoDup (pids (update_projectiles half_random point_in_bounds no_image
                 two_shots)) /\
  incl (pids (update_projectiles half_random point_in_bounds no_image two_shots))
    (pids two_shots).
Proof.
  apply (projectile_destroyed_at_most_once half_random point_in_bounds no_image
           two_shots [EvDestroy 1]).
  - simpl. constructor.
    + intros [H | []]. discriminate H.
    + constructor; [intros []|constructor].
  - reflexivity.
Defined.

Lemma projectiles_only_go_up_witness :
  risen (projectiles two_shots)
    (projectiles (update_projectiles half_random point_in_bounds no_image
                    two_shots)).
Proof.
  apply (projectiles_only_go_up half_random point_in_bounds no_image two_shots).
  - intros n. vm_compute. discriminate.
  - simpl. lia.
Defined.

Lemma projectiles_stay_distinct_witness :
  distinct_projectiles
    (move half_random point_in_bounds 8 16 no_image
       (handle_key (Press Space) start)).
Proof.
  apply (projectiles_stay_distinct half_random point_in_bounds 8 16 no_image
           start).
  - eapply reach_step; [eapply reach_step; [apply reach_start|apply step_key]|].
    apply step_move.
  - split; [constructor|intros r []].
Defined.

Lemma attachment_image_trails_the_ship_witness :
  Sprite._attachment
    (World.ship
       (move half_random point_in_bounds 8 16 no_image
          (handle_key (Press Up) armed)))
  = Some (mkAttachment 9 ShieldMechanism (Some (Image.mk 400 536 48 48))) /\
  Image.y
    (Sprite.image
       (World.ship
          (move half_random point_in_bounds 8 16 no_image
             (handle_key (Press Up) armed))))
  = (536 - inject_Z 15)%Q.
Proof.
  split.
  - apply (attachment_image_trails_the_ship half_random point_in_bounds 8 16
             no_image (handle_key (Press Up) armed) shield
             (Image.mk 0 0 48 48)).
    + intros a [].
    + reflexivity.
    + reflexivity.
  - reflexivity.
Defined.


Lemma fire_follows_the_last_trigger_event_witness :
  Controller.firing
    (World.controller
       (controller_update 0 0
          ([JoyButtonUp JOYBUTTON_LT]
           ++ JoyButtonDown JOYBUTTON_RT :: [JoyButtonUp JOYBUTTON_A; JoyAxisMotion])
          start))
  = true /\
  Controller.firing
    (World.controller
       (controller_update 0 0
          ([JoyButtonDown JOYBUTTON_LT; JoyButtonDown JOYBUTTON_RT]
           ++ JoyButtonUp JOYBUTTON_RT :: [JoyButtonDown JOYBUTTON_A; JoyAxisMotion])
          start))
  = false.
Proof.
  split.
  - apply (fire_follows_the_last_trigger_event 0 0 [JoyButtonUp JOYBUTTON_LT]
             [JoyButtonUp JOYBUTTON_A; JoyAxisMotion] JOYBUTTON_RT start).
    + right. reflexivity.
    + intros e b' [<- | [<- | []]] [H | H]; try discriminate H.
      injection H as <-. split; discriminate.
  - apply (fire_follows_the_last_trigger_event 0 0
             [JoyButtonDown JOYBUTTON_LT; JoyButtonDown JOYBUTTON_RT]
             [JoyButtonDown JOYBUTTON_A; JoyAxisMotion] JOYBUTTON_RT start).
    + right. reflexivity.
    + intros e b' [<- | [<- | []]] [H | H]; try discriminate H.
      injection H as <-. split; discriminate.
Defined.

Lemma axis_event_sets_the_flags_witness :
  Controller.moving_right (World.controller (axis_motion (1 # 2) (- (1 # 4)) start))
  = true /\
  Controller.moving_forward
    (World.controller (axis_motion (1 # 2) (- (1 # 4)) start))
  = false.
Proof.
  destruct (axis_event_sets_the_flags (1 # 2) (- (1 # 4)) start)
    as [H1 [_ [H3 _]]]; try (vm_compute; reflexivity).
  split; [exact H1|exact H3].
Defined.

Lemma swept_stick_keeps_moving_left_witness :
  Controller.moving_right
    (World.controller
       (axis_motion 0 0 (axis_motion 1 0 (axis_motion (- (1)) 0 start))))
  = false /\
  Controller.moving_left
    (World.controller
       (axis_motion 0 0 (axis_motion 1 0 (axis_motion (- (1)) 0 start))))
  = true /\
  Controller.moving_left
    (World.controller
       (axis_motion 0 0
          (axis_motion 0 0 (axis_motion 1 0 (axis_motion (- (1)) 0 start)))))
  = false.
Proof.
  apply (swept_stick_keeps_moving_left (- (1)) 1 0 0 0 0 0 0 start);
    vm_compute; try reflexivity; discriminate.
Defined.
